(** * Nova Launch front-end: the Stellar service and the transaction monitor

    A shallow embedding of [frontend/src/services/stellar.ts]
    ([deployToken], [mintTokens], [calculateTotalFee], [handleError]) and of
    the transaction-monitoring loop, with the properties the specification
    states about them. *)

From Stdlib Require Import ZArith NArith QArith Qminmax Qround List String Ascii Bool.
From Stdlib Require Import Lia Lqa DecimalString.
Import ListNotations.

(* ===================================================================== *)
(** * The JavaScript values the service handles *)
(* ===================================================================== *)

Module Js.

(** A JavaScript string is a sequence of UTF-16 code units. *)
Definition jsstring := list N.

(** A string literal of the source, as code units (the literals of
    [stellar.ts] are all ASCII). *)
Definition lit (s : string) : jsstring :=
  map N_of_ascii (list_ascii_of_string s).

(** [WhiteSpace] and [LineTerminator] code points, the ones
    [String.prototype.trim] strips. *)
Definition is_white_space (c : N) : bool :=
  ((9 <=? c) && (c <=? 13) || (c =? 32) || (c =? 160) || (c =? 5760)
   || (8192 <=? c) && (c <=? 8202) || (c =? 8232) || (c =? 8233)
   || (c =? 8239) || (c =? 8287) || (c =? 12288) || (c =? 65279))%N.

Fixpoint trimStart (s : jsstring) : jsstring :=
  match s with
  | [] => []
  | c :: rest => if is_white_space c then trimStart rest else s
  end.

(** [s.trim()] *)
Definition trim (s : jsstring) : jsstring :=
  rev (trimStart (rev (trimStart s))).

(** [s === ''] *)
Definition is_empty (s : jsstring) : bool :=
  match s with [] => true | _ :: _ => false end.

(** Only white space, possibly none at all. *)
Definition whitespace_only (s : jsstring) : Prop :=
  Forall (fun c => is_white_space c = true) s.

(** Truthiness of a string: every string but the empty one. *)
Definition truthy (s : jsstring) : bool := negb (is_empty s).

Fixpoint startsWith (s p : jsstring) : bool :=
  match p, s with
  | [], _ => true
  | _ :: _, [] => false
  | a :: p', b :: s' => (a =? b)%N && startsWith s' p'
  end.

(** [s.includes(p)]: [p] occurs in [s] as a contiguous run of code units. *)
Fixpoint includes (s p : jsstring) : bool :=
  startsWith s p ||
  match s with
  | [] => false
  | _ :: s' => includes s' p
  end.

(** The result of [Number(s)]: a double is NaN, an infinity, or a finite
    value (both zeros are [Finite 0]). *)
Inductive jsnumber :=
| NaN
| NegInfinity
| Finite (q : Q)
| PosInfinity.

(** [isNaN(x)] on a number. *)
Definition isNaN (x : jsnumber) : bool :=
  match x with NaN => true | _ => false end.

(** [x <= 0]; every comparison with NaN is false. *)
Definition le_zero (x : jsnumber) : bool :=
  match x with
  | NaN => false
  | NegInfinity => true
  | Finite q => Qle_bool q 0
  | PosInfinity => false
  end.

(** A number strictly above zero. *)
Definition positive (x : jsnumber) : Prop :=
  match x with
  | Finite q => 0 < q
  | PosInfinity => True
  | NaN | NegInfinity => False
  end.

(** [n.toString()] for a number with an integral value below 10^21 in
    magnitude: its decimal digits, with a leading minus sign when negative. *)
Definition number_toString (n : Z) : jsstring :=
  lit (NilZero.string_of_int (Z.to_int n)).

(** The values handed to [nativeToScVal]. *)
Inductive jsvalue :=
| VString (s : jsstring)
| VNumber (n : Z).

(** What a [throw] carries: an [Error] object with its [message], or any
    other value ([error instanceof Error] tells them apart). *)
Inductive thrown :=
| ErrorObj (message : jsstring)
| NonError (value : jsvalue).

End Js.

Import Js.

(* ===================================================================== *)
(** * [StellarService]: [frontend/src/services/stellar.ts] *)
(* ===================================================================== *)

Module Stellar.

(** The object types the service only passes around: the SDK's classes and
    the object under [params.metadata] ([TokenDeployParams] is declared in
    [../types], outside the service; an object is truthy whenever present). *)
Record Objects := {
  Contract : Type;
  ScVal : Type;
  Operation : Type;
  Account : Type;
  Transaction : Type;
  SimulationSuccess : Type;
  Prepared : Type;
  Metadata : Type
}.

(** The response of [server.simulateTransaction]:
    [SorobanRpc.Api.isSimulationError] holds of the first form, whose
    [error] field is a string. *)
Inductive Simulation (O : Objects) :=
| SimulationError (error : jsstring)
| SimulationOk (response : SimulationSuccess O).
Arguments SimulationError {O} error.
Arguments SimulationOk {O} response.

(** Everything the service calls and reads but does not define: the
    operations of [@stellar/stellar-sdk] (each returns or throws), the
    configuration constants, and the runtime's [Number] and [Date.now]. *)
Record Env (O : Objects) := {
  (* new Contract(id) *)
  newContract : jsstring -> thrown + Contract O;
  (* nativeToScVal(value, { type }) *)
  nativeToScVal : jsvalue -> jsstring -> thrown + ScVal O;
  (* contract.call(method, ...args) *)
  contractCall : Contract O -> jsstring -> list (ScVal O) -> thrown + Operation O;
  (* await server.getAccount(address) *)
  getAccount : jsstring -> thrown + Account O;
  (* new TransactionBuilder(account, { fee, networkPassphrase })
       .addOperation(operation).setTimeout(timeout).build() *)
  buildTransaction :
    Account O -> jsstring -> jsstring -> Operation O -> Z -> thrown + Transaction O;
  (* await server.simulateTransaction(transaction) *)
  simulateTransaction : Transaction O -> thrown + Simulation O;
  (* SorobanRpc.assembleTransaction(transaction, simulated).build() *)
  assembleTransaction : Transaction O -> Simulation O -> thrown + Prepared O;
  (* prepared.hash().toString('hex') *)
  hashHex : Prepared O -> thrown + jsstring;
  (* STELLAR_CONFIG.factoryContractId, BASE_FEE, this.networkPassphrase *)
  factoryContractId : jsstring;
  BASE_FEE : jsstring;
  networkPassphrase : jsstring;
  (* Number(s) on a string, and Date.now() *)
  Number : jsstring -> jsnumber;
  Date_now : Z
}.
Arguments newContract {O} _ _.
Arguments nativeToScVal {O} _ _ _.
Arguments contractCall {O} _ _ _ _.
Arguments getAccount {O} _ _.
Arguments buildTransaction {O} _ _ _ _ _ _.
Arguments simulateTransaction {O} _ _.
Arguments assembleTransaction {O} _ _ _.
Arguments hashHex {O} _ _.
Arguments factoryContractId {O} _.
Arguments BASE_FEE {O} _.
Arguments networkPassphrase {O} _.
Arguments Number {O} _ _.
Arguments Date_now {O} _.

(** One entry per SDK operation the service invokes, in program order. *)
Inductive sdk_event :=
| EvNewContract (contractId : jsstring)
| EvNativeToScVal (value : jsvalue) (type : jsstring)
| EvContractCall (method : jsstring)
| EvGetAccount (address : jsstring)
| EvBuildTransaction
| EvSimulateTransaction
| EvAssembleTransaction
| EvHash.

(** A computation of the service: the SDK operations it performed, and
    either the value thrown or the value returned. *)
Definition M (A : Type) : Type := (list sdk_event * (thrown + A))%type.

Definition ret {A} (a : A) : M A := ([], inr a).

Definition throw {A} (e : thrown) : M A := ([], inl e).

Definition bind {A B} (m : M A) (k : A -> M B) : M B :=
  match snd m with
  | inl e => (fst m, inl e)
  | inr a => (fst m ++ fst (k a), snd (k a))
  end.

(** An SDK operation: logged, then its result or its exception. *)
Definition sdk_call {A} (ev : sdk_event) (r : thrown + A) : M A := ([ev], r).

(** [try { body } catch (error) { handler }] *)
Definition try_catch {A} (body : M A) (handler : thrown -> M A) : M A :=
  match snd body with
  | inl e => (fst body ++ fst (handler e), snd (handler e))
  | inr _ => body
  end.

(** [P] holds of the value a computation returns, if it returns. *)
Definition on_return {A} (P : A -> Prop) (m : M A) : Prop :=
  match snd m with
  | inr a => P a
  | inl _ => True
  end.

(** [if (c) { throw new Error(message) }] *)
Definition throw_if (c : bool) (message : jsstring) : M unit :=
  if c then throw (ErrorObj message) else ret tt.

Declare Scope svc_scope.
Delimit Scope svc_scope with svc.
Notation "x <- m ;; k" := (bind m (fun x => k))
  (at level 61, m at next level, right associativity) : svc_scope.
Notation "m ;;; k" := (bind m (fun _ => k))
  (at level 61, right associativity) : svc_scope.
Local Open Scope svc_scope.

(** [TokenDeployParams] and [DeploymentResult] of [../types], with the
    fields the service reads and writes. *)
Record TokenDeployParams (O : Objects) := {
  name : jsstring;
  symbol : jsstring;
  decimals : jsvalue;
  initialSupply : jsvalue;
  adminWallet : jsstring;
  metadata : option (Metadata O)
}.
Arguments name {O} _.
Arguments symbol {O} _.
Arguments decimals {O} _.
Arguments initialSupply {O} _.
Arguments adminWallet {O} _.
Arguments metadata {O} _.

Record DeploymentResult := {
  tokenAddress : jsstring;
  transactionHash : jsstring;
  totalFee : jsstring;
  timestamp : Z
}.

Section Service.

Context {O : Objects} (env : Env O).

(** [calculateTotalFee] *)
Definition calculateTotalFee (params : TokenDeployParams O) : Z :=
  let baseFee := 10000000%Z in
  let metadataFee :=
    match metadata params with Some _ => 5000000%Z | None => 0%Z end in
  (baseFee + metadataFee)%Z.

(** [handleError] *)
Definition handleError (error : thrown) : thrown :=
  match error with
  | ErrorObj _ => error
  | NonError _ => ErrorObj (lit "An unknown error occurred")
  end.

(** The body of [deployToken]'s [try]. *)
Definition deployToken_try (params : TokenDeployParams O)
    (sourceAddress : jsstring) : M DeploymentResult :=
  contract <- sdk_call (EvNewContract (factoryContractId env))
                (newContract env (factoryContractId env)) ;;
  a1 <- sdk_call (EvNativeToScVal (VString (name params)) (lit "string"))
          (nativeToScVal env (VString (name params)) (lit "string")) ;;
  a2 <- sdk_call (EvNativeToScVal (VString (symbol params)) (lit "string"))
          (nativeToScVal env (VString (symbol params)) (lit "string")) ;;
  a3 <- sdk_call (EvNativeToScVal (decimals params) (lit "u32"))
          (nativeToScVal env (decimals params) (lit "u32")) ;;
  a4 <- sdk_call (EvNativeToScVal (initialSupply params) (lit "i128"))
          (nativeToScVal env (initialSupply params) (lit "i128")) ;;
  a5 <- sdk_call (EvNativeToScVal (VString (adminWallet params)) (lit "address"))
          (nativeToScVal env (VString (adminWallet params)) (lit "address")) ;;
  a6 <- sdk_call (EvNativeToScVal (VNumber (calculateTotalFee params)) (lit "i128"))
          (nativeToScVal env (VNumber (calculateTotalFee params)) (lit "i128")) ;;
  operation <- sdk_call (EvContractCall (lit "create_token"))
                 (contractCall env contract (lit "create_token")
                    [a1; a2; a3; a4; a5; a6]) ;;
  account <- sdk_call (EvGetAccount sourceAddress)
               (getAccount env sourceAddress) ;;
  transaction <- sdk_call EvBuildTransaction
                   (buildTransaction env account (BASE_FEE env)
                      (networkPassphrase env) operation 30) ;;
  simulated <- sdk_call EvSimulateTransaction
                 (simulateTransaction env transaction) ;;
  match simulated with
  | SimulationError error =>
      throw (ErrorObj (lit "Simulation failed: " ++ error))
  | SimulationOk _ => ret tt
  end ;;;
  prepared <- sdk_call EvAssembleTransaction
                (assembleTransaction env transaction simulated) ;;
  hash <- sdk_call EvHash (hashHex env prepared) ;;
  ret {| tokenAddress := [];
         transactionHash := hash;
         totalFee := number_toString (calculateTotalFee params);
         timestamp := Date_now env |}.

(** [deployToken] *)
Definition deployToken (params : TokenDeployParams O)
    (sourceAddress : jsstring) : M DeploymentResult :=
  try_catch (deployToken_try params sourceAddress)
            (fun error => throw (handleError error)).

(** The guard clauses at the head of [mintTokens]. *)
Definition mintTokens_validate
    (tokenAddress recipient amount adminAddress : jsstring) : M unit :=
  throw_if (negb (truthy tokenAddress) || is_empty (trim tokenAddress))
    (lit "Token address is required") ;;;
  throw_if (negb (truthy recipient) || is_empty (trim recipient))
    (lit "Recipient address is required") ;;;
  throw_if (negb (truthy adminAddress) || is_empty (trim adminAddress))
    (lit "Admin address is required") ;;;
  throw_if (negb (truthy amount) || isNaN (Number env amount)
            || le_zero (Number env amount))
    (lit "Invalid amount: must be a positive number").

(** What [mintTokens] does once the guards have passed. *)
Definition mintTokens_delegate
    (tokenAddress recipient amount adminAddress : jsstring) : M jsstring :=
  contract <- sdk_call (EvNewContract tokenAddress)
                (newContract env tokenAddress) ;;
  let mintingFee := lit "1000000" in
  a1 <- sdk_call (EvNativeToScVal (VString recipient) (lit "address"))
          (nativeToScVal env (VString recipient) (lit "address")) ;;
  a2 <- sdk_call (EvNativeToScVal (VString amount) (lit "i128"))
          (nativeToScVal env (VString amount) (lit "i128")) ;;
  a3 <- sdk_call (EvNativeToScVal (VString mintingFee) (lit "i128"))
          (nativeToScVal env (VString mintingFee) (lit "i128")) ;;
  operation <- sdk_call (EvContractCall (lit "mint_tokens"))
                 (contractCall env contract (lit "mint_tokens") [a1; a2; a3]) ;;
  account <- sdk_call (EvGetAccount adminAddress)
               (getAccount env adminAddress) ;;
  transaction <- sdk_call EvBuildTransaction
                   (buildTransaction env account (BASE_FEE env)
                      (networkPassphrase env) operation 30) ;;
  simulated <- sdk_call EvSimulateTransaction
                 (simulateTransaction env transaction) ;;
  match simulated with
  | SimulationError error =>
      if includes error (lit "unauthorized") || includes error (lit "auth")
      then throw (ErrorObj
                    (lit "Unauthorized: Admin authorization required for minting"))
      else throw (ErrorObj (lit "Simulation failed: " ++ error))
  | SimulationOk _ => ret tt
  end ;;;
  prepared <- sdk_call EvAssembleTransaction
                (assembleTransaction env transaction simulated) ;;
  sdk_call EvHash (hashHex env prepared).

(** The body of [mintTokens]'s [try]. *)
Definition mintTokens_try
    (tokenAddress recipient amount adminAddress : jsstring) : M jsstring :=
  mintTokens_validate tokenAddress recipient amount adminAddress ;;;
  mintTokens_delegate tokenAddress recipient amount adminAddress.

(** The [catch] block of [mintTokens]. *)
Definition mintTokens_catch (error : thrown) : M jsstring :=
  match error with
  | ErrorObj message =>
      if includes message (lit "unauthorized")
         || includes message (lit "Unauthorized")
      then throw (ErrorObj (lit "Unauthorized: Only the admin can mint tokens"))
      else if includes message (lit "Invalid amount")
      then throw error
      else throw (ErrorObj (lit "Minting failed: " ++ message))
  | NonError _ => throw (ErrorObj (lit "Minting failed: Unknown error"))
  end.

(** [mintTokens] *)
Definition mintTokens
    (tokenAddress recipient amount adminAddress : jsstring) : M jsstring :=
  try_catch (mintTokens_try tokenAddress recipient amount adminAddress)
            mintTokens_catch.

End Service.

End Stellar.

(* ===================================================================== *)
(** * The transaction monitor *)
(* ===================================================================== *)

Module Monitor.

(** The code of [monitorTransaction] is not among the sources, which hold
    only its README; the session below follows the specification's data
    model (section 3) and the behaviour of its monitor (sections 4.1 and 7).
    Times and intervals are exact rationals, in milliseconds. *)

(** Modelled from the spec: the [state] of a [TransactionStatus]. *)
Inductive tx_state := pending | success | failed.

(** Modelled from the spec: a terminal state is [success] or [failed]. *)
Definition is_terminal (s : tx_state) : bool :=
  match s with pending => false | success | failed => true end.

(** Modelled from the spec: the [TransactionStatus] value object. *)
Record TransactionStatus := {
  identifier : jsstring;
  state : tx_state;
  observedAt : Q;
  fee : option Q
}.

(** Modelled from the spec: the [PollingPolicy] of a session. *)
Record PollingPolicy := {
  initialIntervalMs : Q;
  maxIntervalMs : Q;
  backoffMultiplier : Q;
  timeoutMs : Q
}.

(** Modelled from the spec: the default policy of the data model; 1.5 is
    the rational 3/2. *)
Definition default_policy : PollingPolicy :=
  {| initialIntervalMs := 2000;
     maxIntervalMs := 10000;
     backoffMultiplier := 3 # 2;
     timeoutMs := 60000 |}.

(** Modelled from the spec: what one query to the Status Provider yields,
    the current state, fee and timestamp, or a transient error
    (section 6). *)
Inductive reply :=
| Answer (st : tx_state) (fee : option Q) (timestamp : Q)
| TransientError.

(** Modelled from the spec: the Status Provider as the monitor sees it.
    For the identifier, the number of the query (from 0) and the instant the
    query is issued, it tells how long the query stays in flight and what it
    yields. *)
Definition provider := jsstring -> nat -> Q -> Q * reply.

(** What a session does, in order. *)
Inductive event :=
| Query (n : nat) (issuedAt : Q)
| Progress (status : TransactionStatus)
| Wait (ms : Q).

(** Modelled from the spec: how a session ends, with a terminal status or
    with one of the errors of section 7. *)
Inductive outcome :=
| Resolved (status : TransactionStatus)
| MonitoringTimeout (identifier : jsstring) (elapsedMs : Q)
| InvalidIdentifier.

(** A finished session: what it did, how it ended, and the instant it
    ended. *)
Record session := {
  trace : list event;
  result : outcome;
  finishedAt : Q
}.

Section Session.

Variable policy : PollingPolicy.
Variable query : provider.
(** Whether the caller passed [onProgress]. *)
Variable onProgress : bool.
Variable id : jsstring.
(** The clock reading at invocation. *)
Variable start : Q.

(** Modelled from the spec: step 1, [deadline = now + timeoutMs]. *)
Definition deadline : Q := start + timeoutMs policy.

(** Modelled from the spec: step (g),
    [min(interval * backoffMultiplier, maxIntervalMs)]. *)
Definition next_interval (interval : Q) : Q :=
  Qmin (interval * backoffMultiplier policy) (maxIntervalMs policy).

(** Modelled from the spec: steps (c) and (d), [onProgress] is invoked if
    provided. *)
Definition notify (status : TransactionStatus) : list event :=
  if onProgress then [Progress status] else [].

(** Modelled from the spec: steps (a) and (b), the status a query yields
    once it has returned at [now]. An answer is taken as the provider gave
    it; a transient failure counts as an observation of [pending], made at
    [now]. *)
Definition observe (r : reply) (now : Q) : TransactionStatus :=
  match r with
  | Answer st f ts =>
      {| identifier := id; state := st; observedAt := ts; fee := f |}
  | TransientError =>
      {| identifier := id; state := pending; observedAt := now; fee := None |}
  end.

Definition prepend (evs : list event) (s : session) : session :=
  {| trace := evs ++ trace s; result := result s; finishedAt := finishedAt s |}.

(** Modelled from the spec: the polling loop of [monitorTransaction], whose
    code is not among the sources; steps (a) to (h) of the specification's
    section 4.1.  [fuel] bounds the number of polls, [n] counts the queries
    made so far, [now] is the clock and [interval] the next wait. The clock
    advances while a query is in flight and during the wait, and at no other
    point. *)
Fixpoint poll (fuel n : nat) (now interval : Q) : option session :=
  match fuel with
  | O => None
  | S fuel' =>
      (* a, b *)
      let '(latency, r) := query id n now in
      let now1 := now + latency in
      let current := observe r now1 in
      if is_terminal (state current) then
        (* c *)
        Some {| trace := Query n now :: notify current;
                result := Resolved current;
                finishedAt := now1 |}
      else if Qle_bool deadline now1 then
        (* d, e *)
        Some {| trace := Query n now :: notify current;
                result := MonitoringTimeout id (now1 - start);
                finishedAt := now1 |}
      else
        (* d, f, g, h *)
        option_map
          (prepend (Query n now :: notify current ++ [Wait interval]))
          (poll fuel' (S n) (now1 + interval) (next_interval interval))
  end.

(** Modelled from the spec: [monitor(identifier, onProgress?)], absent from
    the sources like its loop; an empty identifier fails fast with
    [InvalidIdentifier] (section 7), otherwise steps 1 to 3 of section 4.1. *)
Definition monitor (fuel : nat) : option session :=
  if is_empty id then
    Some {| trace := []; result := InvalidIdentifier; finishedAt := start |}
  else poll fuel 0 start (initialIntervalMs policy).

(** The wait the loop makes after its [k]-th poll (from 0), if it gets
    there. *)
Fixpoint backoff (k : nat) : Q :=
  match k with
  | O => initialIntervalMs policy
  | S k' => next_interval (backoff k')
  end.

End Session.

(** Projections of a trace. *)
Fixpoint waits (tr : list event) : list Q :=
  match tr with
  | [] => []
  | Wait ms :: tr' => ms :: waits tr'
  | _ :: tr' => waits tr'
  end.

Fixpoint delivered (tr : list event) : list TransactionStatus :=
  match tr with
  | [] => []
  | Progress s :: tr' => s :: delivered tr'
  | _ :: tr' => delivered tr'
  end.

Fixpoint queries (tr : list event) : list (nat * Q) :=
  match tr with
  | [] => []
  | Query n t :: tr' => (n, t) :: queries tr'
  | _ :: tr' => queries tr'
  end.

(** Timestamps in strictly increasing order. *)
Fixpoint increasing (ts : list Q) : Prop :=
  match ts with
  | [] => True
  | t :: rest =>
      match rest with
      | [] => True
      | t' :: _ => t < t'
      end /\ increasing rest
  end.

(** No status follows a terminal one. *)
Fixpoint terminal_last (ss : list TransactionStatus) : Prop :=
  match ss with
  | [] => True
  | s :: rest => (is_terminal (state s) = true -> rest = []) /\ terminal_last rest
  end.

(** A policy whose waits are positive, never shrink and respect the cap,
    and whose timeout is not negative. *)
Definition well_formed (p : PollingPolicy) : Prop :=
  0 < initialIntervalMs p
  /\ initialIntervalMs p <= maxIntervalMs p
  /\ 1 <= backoffMultiplier p
  /\ 0 <= timeoutMs p.

(** The provider never reports a terminal state for [id]. *)
Definition never_terminal (query : provider) (id : jsstring) : Prop :=
  forall n t,
    match snd (query id n t) with
    | Answer st _ _ => st = pending
    | TransientError => True
    end.

(** Every query about [id] fails transiently. *)
Definition always_transient (query : provider) (id : jsstring) : Prop :=
  forall n t, snd (query id n t) = TransientError.

(** Every query about [id] is in flight for at most [L] milliseconds. *)
Definition latency_within (query : provider) (id : jsstring) (L : Q) : Prop :=
  forall n t, 0 <= fst (query id n t) <= L.

(** Every answer about [id] is stamped while its query is in flight. *)
Definition stamped_in_flight (query : provider) (id : jsstring) : Prop :=
  forall n t,
    0 <= fst (query id n t)
    /\ match snd (query id n t) with
       | Answer _ _ ts => t <= ts <= t + fst (query id n t)
       | TransientError => True
       end.

(** Polls that suffice to reach the deadline of a well-formed policy. *)
Definition polls_needed (p : PollingPolicy) : nat :=
  S (Z.to_nat (Qceiling (timeoutMs p / initialIntervalMs p))).

(** A delivered terminal status is followed by no status of another state. *)
Definition terminal_absorbing (ss : list TransactionStatus) : Prop :=
  forall i j a b,
    (i < j)%nat -> nth_error ss i = Some a -> nth_error ss j = Some b ->
    is_terminal (state a) = true -> state b = state a.

Section Schedule.

Variable policy : PollingPolicy.
Variable query : provider.
Variable id : jsstring.
Variable start : Q.

(** The instant the [k]-th query (from 0) is issued in a session that is
    still polling: the first at invocation, each later one when the query
    before it has returned and the wait after it has elapsed. *)
Fixpoint issuedAt (k : nat) : Q :=
  match k with
  | O => start
  | S k' => issuedAt k' + fst (query id k' (issuedAt k')) + backoff policy k'
  end.

(** The instant that query returns. *)
Definition answeredAt (k : nat) : Q :=
  issuedAt k + fst (query id k (issuedAt k)).

(** The first [n] waits of the policy, added up. *)
Fixpoint total_wait (n : nat) : Q :=
  match n with
  | O => 0
  | S n' => total_wait n' + backoff policy n'
  end.

(** Modelled from the spec: the status of step (b) for query [k], issued at
    [issued], read off the provider's reply; an answer as it came, a
    transient error as [pending] at the instant the query returned. *)
Definition reported (k : nat) (issued : Q) : TransactionStatus :=
  match snd (query id k issued) with
  | Answer st f ts =>
      {| identifier := id; state := st; observedAt := ts; fee := f |}
  | TransientError =>
      {| identifier := id; state := pending;
         observedAt := issued + fst (query id k issued); fee := None |}
  end.

End Schedule.

End Monitor.

(* ===================================================================== *)
(** * Concrete environments, to run the service and the monitor *)
(* ===================================================================== *)

Module Samples.

Import Stellar Monitor.

(** SDK objects without content. *)
Definition unit_objects : Objects :=
  {| Contract := unit; ScVal := unit; Operation := unit; Account := unit;
     Transaction := unit; SimulationSuccess := unit; Prepared := unit;
     Metadata := unit |}.

Fixpoint digits_value (acc : Z) (s : jsstring) : option Z :=
  match s with
  | [] => Some acc
  | c :: rest =>
      if ((48 <=? c) && (c <=? 57))%N
      then digits_value (10 * acc + Z.of_N (c - 48)) rest
      else None
  end.

(** [Number] on the strings the examples use: surrounding white space is
    dropped, the empty string is 0, an optional minus sign and decimal digits
    give that integer; this sample answers NaN for everything else. *)
Definition sample_Number (s : jsstring) : jsnumber :=
  match trim s with
  | [] => Finite 0
  | 45%N :: (_ :: _) as ds =>
      match digits_value 0 ds with
      | Some v => Finite (inject_Z (- v))
      | None => NaN
      end
  | ds =>
      match digits_value 0 ds with
      | Some v => Finite (inject_Z v)
      | None => NaN
      end
  end.

(** An SDK every operation of which succeeds, whatever its arguments. *)
Definition accepting_env : Env unit_objects :=
  {| newContract := fun _ => inr (tt : Contract unit_objects);
     nativeToScVal := fun _ _ => inr tt;
     contractCall := fun _ _ _ => inr tt;
     getAccount := fun _ => inr tt;
     buildTransaction := fun _ _ _ _ _ => inr tt;
     simulateTransaction := fun _ => inr (SimulationOk (tt : SimulationSuccess unit_objects));
     assembleTransaction := fun _ _ => inr tt;
     hashHex := fun _ => inr (lit "9f2c");
     factoryContractId := lit "CFACTORY";
     BASE_FEE := lit "100";
     networkPassphrase := lit "Test SDF Network ; September 2015";
     Number := sample_Number;
     Date_now := 1700000000000 |}.

(** The same SDK, except that the simulation reports [error]. *)
Definition simulation_error_env (error : jsstring) : Env unit_objects :=
  {| newContract := newContract accepting_env;
     nativeToScVal := nativeToScVal accepting_env;
     contractCall := contractCall accepting_env;
     getAccount := getAccount accepting_env;
     buildTransaction := buildTransaction accepting_env;
     simulateTransaction := fun _ => inr (SimulationError error);
     assembleTransaction := assembleTransaction accepting_env;
     hashHex := hashHex accepting_env;
     factoryContractId := factoryContractId accepting_env;
     BASE_FEE := BASE_FEE accepting_env;
     networkPassphrase := networkPassphrase accepting_env;
     Number := Number accepting_env;
     Date_now := Date_now accepting_env |}.

(** The same SDK, except that fetching the account throws [e]. *)
Definition account_error_env (e : thrown) : Env unit_objects :=
  {| newContract := newContract accepting_env;
     nativeToScVal := nativeToScVal accepting_env;
     contractCall := contractCall accepting_env;
     getAccount := fun _ => inl e;
     buildTransaction := buildTransaction accepting_env;
     simulateTransaction := simulateTransaction accepting_env;
     assembleTransaction := assembleTransaction accepting_env;
     hashHex := hashHex accepting_env;
     factoryContractId := factoryContractId accepting_env;
     BASE_FEE := BASE_FEE accepting_env;
     networkPassphrase := networkPassphrase accepting_env;
     Number := Number accepting_env;
     Date_now := Date_now accepting_env |}.

Definition sample_params (m : option (Metadata unit_objects))
    : TokenDeployParams unit_objects :=
  {| name := lit "Nova"; symbol := lit "NOVA"; decimals := VNumber 7;
     initialSupply := VString (lit "1000000"); adminWallet := lit "GADMIN";
     metadata := m |}.

(** Deployment parameters with an empty admin wallet. *)
Definition no_admin_params : TokenDeployParams unit_objects :=
  {| name := lit "Nova"; symbol := lit "NOVA"; decimals := VNumber 7;
     initialSupply := VString (lit "1000000"); adminWallet := [];
     metadata := @None (Metadata unit_objects) |}.

(** Providers that answer at once. *)
Definition always_pending : provider :=
  fun _ _ now => (0, Answer pending None now).

Definition always_failing : provider :=
  fun _ _ _ => (0, TransientError).

Definition success_at_once : provider :=
  fun _ _ now => (0, Answer success (Some 100) now).

(** Pending twice, then failed: the scenario of the specification. *)
Definition pending_twice_then_failed : provider :=
  fun _ n now =>
    match n with
    | O | S O => (0, Answer pending None now)
    | _ => (0, Answer failed (Some 100) now)
    end.

(** A provider that stamps every answer with the same instant. *)
Definition frozen_stamp : provider :=
  fun _ _ _ => (0, Answer pending None 100).

(** Pending, then success, each answer stamped with the instant of its
    query. *)
Definition pending_then_success : provider :=
  fun _ n now =>
    match n with
    | O => (0, Answer pending None now)
    | _ => (0, Answer success (Some 100) now)
    end.

(** A policy that does not wait between polls. *)
Definition no_wait : PollingPolicy :=
  {| initialIntervalMs := 0;
     maxIntervalMs := 10000;
     backoffMultiplier := 3 # 2;
     timeoutMs := 60000 |}.

(** A policy whose first wait is longer than its cap. *)
Definition long_first_wait : PollingPolicy :=
  {| initialIntervalMs := 5000;
     maxIntervalMs := 1000;
     backoffMultiplier := 3 # 2;
     timeoutMs := 100 |}.

End Samples.

(* ===================================================================== *)
(** * The SDK operations of a call, in program order *)
(* ===================================================================== *)

Module Operations.

Import Stellar.

(** The SDK operations [deployToken] performs when none of them throws, in
    the order of its [try] block. *)
Definition deployToken_operations {O : Objects} (env : Env O)
    (params : TokenDeployParams O) (sourceAddress : jsstring)
    : list sdk_event :=
  [EvNewContract (factoryContractId env);
   EvNativeToScVal (VString (name params)) (lit "string");
   EvNativeToScVal (VString (symbol params)) (lit "string");
   EvNativeToScVal (decimals params) (lit "u32");
   EvNativeToScVal (initialSupply params) (lit "i128");
   EvNativeToScVal (VString (adminWallet params)) (lit "address");
   EvNativeToScVal (VNumber (calculateTotalFee params)) (lit "i128");
   EvContractCall (lit "create_token");
   EvGetAccount sourceAddress;
   EvBuildTransaction;
   EvSimulateTransaction;
   EvAssembleTransaction;
   EvHash].

(** The SDK operations [mintTokens] performs when its guards pass and none
    of them throws, in the order of its [try] block. *)
Definition mintTokens_operations
    (tokenAddress recipient amount adminAddress : jsstring)
    : list sdk_event :=
  [EvNewContract tokenAddress;
   EvNativeToScVal (VString recipient) (lit "address");
   EvNativeToScVal (VString amount) (lit "i128");
   EvNativeToScVal (VString (lit "1000000")) (lit "i128");
   EvContractCall (lit "mint_tokens");
   EvGetAccount adminAddress;
   EvBuildTransaction;
   EvSimulateTransaction;
   EvAssembleTransaction;
   EvHash].

(** How many SDK operations a call to [deployToken] invokes, read off the
    results of the SDK: an operation is invoked only when every operation
    before it has returned, so the count is the position of the first that
    throws; a simulation that reports an error stops the call after the
    eleventh; 13 when none throws. *)
Definition deployToken_reach {O : Objects} (env : Env O)
    (params : TokenDeployParams O) (sourceAddress : jsstring) : nat :=
  match newContract env (factoryContractId env) with
  | inl _ => 1
  | inr contract =>
  match nativeToScVal env (VString (name params)) (lit "string") with
  | inl _ => 2
  | inr a1 =>
  match nativeToScVal env (VString (symbol params)) (lit "string") with
  | inl _ => 3
  | inr a2 =>
  match nativeToScVal env (decimals params) (lit "u32") with
  | inl _ => 4
  | inr a3 =>
  match nativeToScVal env (initialSupply params) (lit "i128") with
  | inl _ => 5
  | inr a4 =>
  match nativeToScVal env (VString (adminWallet params)) (lit "address") with
  | inl _ => 6
  | inr a5 =>
  match nativeToScVal env (VNumber (calculateTotalFee params)) (lit "i128") with
  | inl _ => 7
  | inr a6 =>
  match contractCall env contract (lit "create_token") [a1; a2; a3; a4; a5; a6] with
  | inl _ => 8
  | inr operation =>
  match getAccount env sourceAddress with
  | inl _ => 9
  | inr account =>
  match buildTransaction env account (BASE_FEE env) (networkPassphrase env)
          operation 30 with
  | inl _ => 10
  | inr transaction =>
  match simulateTransaction env transaction with
  | inl _ => 11
  | inr (SimulationError _) => 11
  | inr (SimulationOk response) =>
  match assembleTransaction env transaction (SimulationOk response) with
  | inl _ => 12
  | inr _ => 13
  end end end end end end end end end end end end.

(** The same for a call to [mintTokens] whose guards have passed; 10 when
    no operation throws. *)
Definition mintTokens_reach {O : Objects} (env : Env O)
    (tokenAddress recipient amount adminAddress : jsstring) : nat :=
  match newContract env tokenAddress with
  | inl _ => 1
  | inr contract =>
  match nativeToScVal env (VString recipient) (lit "address") with
  | inl _ => 2
  | inr a1 =>
  match nativeToScVal env (VString amount) (lit "i128") with
  | inl _ => 3
  | inr a2 =>
  match nativeToScVal env (VString (lit "1000000")) (lit "i128") with
  | inl _ => 4
  | inr a3 =>
  match contractCall env contract (lit "mint_tokens") [a1; a2; a3] with
  | inl _ => 5
  | inr operation =>
  match getAccount env adminAddress with
  | inl _ => 6
  | inr account =>
  match buildTransaction env account (BASE_FEE env) (networkPassphrase env)
          operation 30 with
  | inl _ => 7
  | inr transaction =>
  match simulateTransaction env transaction with
  | inl _ => 8
  | inr (SimulationError _) => 8
  | inr (SimulationOk response) =>
  match assembleTransaction env transaction (SimulationOk response) with
  | inl _ => 9
  | inr _ => 10
  end end end end end end end end end.

End Operations.

(* ===================================================================== *)
(** * [useConfetti]: the confetti hook *)
(* ===================================================================== *)

Module Confetti.

(** [UseConfettiOptions]; a field left out is [None]. [duration] is taken
    as a finite number, in milliseconds, like every clock reading here. *)
Record UseConfettiOptions := {
  opt_duration : option Q;
  opt_colors : option (list jsstring);
  opt_disableForReducedMotion : option bool
}.

(** A number the hook computes for [confetti], as the arithmetic the code
    performs to get it. The operations are those of double-precision
    floating point; their rounding is not modelled, so an expression is
    left as it is written and stands for whatever the runtime computes from
    it. [Value q] is the number the runtime holds for [q]: a literal of the
    source, a clock reading, an option, a value of [Math.random()]. *)
Inductive jsfloat :=
| Value (q : Q)
| Plus (a b : jsfloat)
| Minus (a b : jsfloat)
| Times (a b : jsfloat)
| Over (a b : jsfloat).

(** The options object of one call to [confetti]. *)
Record confetti_call := {
  startVelocity : Q;
  spread : Q;
  ticks : Q;
  zIndex : Q;
  colors : list jsstring;
  disableForReducedMotion : bool;
  particleCount : jsfloat;
  origin_x : jsfloat;
  origin_y : jsfloat
}.

(** What the runtime holds for an active timer of the confetti: the
    interval started by [fire], whose callback has captured its
    [animationEnd], or the timeout by which the success modal delays
    [fireConfetti]. The page has other timers, which neither the hook nor
    the modal's effect ever clears: the resets of the copy buttons are kept
    with the button that scheduled them. *)
Inductive timer :=
| BurstInterval (animationEnd : Q)
| FireTimeout.

(** The state the hook and the runtime share: [intervalRef.current], the
    runtime's active confetti timers by handle, the next handle [setInterval] or
    [setTimeout] hands out, and the calls made to [confetti], oldest
    first. *)
Record world := {
  intervalRef : option nat;
  timers : list (nat * timer);
  next_handle : nat;
  emitted : list confetti_call
}.

Definition initial_world : world :=
  {| intervalRef := None; timers := []; next_handle := 1; emitted := [] |}.

(** [clearInterval(h)] and [clearTimeout(h)]: the timer with handle [h], if
    active, is dropped. *)
Definition clear_timer (h : nat) (ts : list (nat * timer)) : list (nat * timer) :=
  filter (fun t => negb (Nat.eqb (fst t) h)) ts.

Fixpoint find_timer (h : nat) (ts : list (nat * timer)) : option timer :=
  match ts with
  | [] => None
  | (h', t) :: rest => if Nat.eqb h' h then Some t else find_timer h rest
  end.

Section Hook.

Variable options : UseConfettiOptions.

(** The destructuring defaults of the hook. *)
Definition duration : Q :=
  match opt_duration options with Some d => d | None => 2500 end.

Definition palette : list jsstring :=
  match opt_colors options with
  | Some cs => cs
  | None => [lit "#10B981"; lit "#3B82F6"; lit "#F59E0B"; lit "#F97316";
             lit "#8B5CF6"; lit "#EC4899"]
  end.

Definition reduced_motion_respected : bool :=
  match opt_disableForReducedMotion options with Some b => b | None => true end.

(** [stop] *)
Definition stop (w : world) : world :=
  match intervalRef w with
  | Some h =>
      {| intervalRef := None;
         timers := clear_timer h (timers w);
         next_handle := next_handle w;
         emitted := emitted w |}
  | None => w
  end.

(** [fire], called at clock reading [now]; [prefersReduced] is what
    [window.matchMedia('(prefers-reduced-motion: reduce)').matches]
    answers. [Date.now() + duration] is taken as the exact sum, which it is
    for whole milliseconds. *)
Definition fire (now : Q) (prefersReduced : bool) (w : world) : world :=
  if reduced_motion_respected && prefersReduced then w
  else
    let w1 := stop w in
    let animationEnd := now + duration in
    {| intervalRef := Some (next_handle w1);
       timers := timers w1 ++ [(next_handle w1, BurstInterval animationEnd)];
       next_handle := S (next_handle w1);
       emitted := emitted w1 |}.

(** [randomInRange(min, max)], on the value [r] of [Math.random()]:
    [r * (max - min) + min]. *)
Definition randomInRange (r min max : jsfloat) : jsfloat :=
  Plus (Times r (Minus max min)) min.

(** [50 * (timeLeft / duration)] *)
Definition particle_count (timeLeft : jsfloat) : jsfloat :=
  Times (Value 50) (Over timeLeft (Value duration)).

(** One call to [confetti] of the interval callback. *)
Definition burst_call (count x y : jsfloat) : confetti_call :=
  {| startVelocity := 30;
     spread := 360;
     ticks := 60;
     zIndex := 9999;
     colors := palette;
     disableForReducedMotion := reduced_motion_respected;
     particleCount := count;
     origin_x := x;
     origin_y := y |}.

(** The callback [fire] hands to [setInterval], with the [animationEnd] it
    captured, run at clock reading [now]; [r1] to [r4] are the values
    [Math.random()] returns, in call order. The test [timeLeft <= 0] is
    decided on the two instants: a difference of two doubles is zero or
    negative exactly when the first is not above the second. *)
Definition burst_tick (animationEnd now r1 r2 r3 r4 : Q) (w : world) : world :=
  if Qle_bool (animationEnd - now) 0 then stop w
  else
    let timeLeft := Minus (Value animationEnd) (Value now) in
    let count := particle_count timeLeft in
    {| intervalRef := intervalRef w;
       timers := timers w;
       next_handle := next_handle w;
       emitted :=
         emitted w
         ++ [burst_call count
               (randomInRange (Value r1) (Value (1 # 10)) (Value (3 # 10)))
               (Minus (Value r2) (Value (1 # 5)));
             burst_call count
               (randomInRange (Value r3) (Value (7 # 10)) (Value (9 # 10)))
               (Minus (Value r4) (Value (1 # 5)))] |}.

(** The runtime runs the callback of interval [h], if [h] is an active
    interval. *)
Definition interval_fires (h : nat) (now r1 r2 r3 r4 : Q) (w : world) : world :=
  match find_timer h (timers w) with
  | Some (BurstInterval animationEnd) => burst_tick animationEnd now r1 r2 r3 r4 w
  | _ => w
  end.

(** What can happen to the hook on its own: its two functions are called,
    or the runtime runs an interval callback. *)
Inductive action :=
| Fire (now : Q) (prefersReduced : bool)
| Stop
| IntervalFires (h : nat) (now r1 r2 r3 r4 : Q).

Definition step (w : world) (a : action) : world :=
  match a with
  | Fire now prefersReduced => fire now prefersReduced w
  | Stop => stop w
  | IntervalFires h now r1 r2 r3 r4 => interval_fires h now r1 r2 r3 r4 w
  end.

Definition run (w : world) (actions : list action) : world :=
  fold_left step actions w.

End Hook.

(** No interval but the one [intervalRef] holds is active. *)
Definition tidy (w : world) : Prop :=
  match intervalRef w with
  | Some h => exists animationEnd,
                timers w = [(h, BurstInterval animationEnd)]
                /\ (h < next_handle w)%nat
  | None => timers w = []
  end.

Definition is_fire (a : action) : bool :=
  match a with Fire _ _ => true | _ => false end.

Definition prefers_reduced (a : action) : bool :=
  match a with Fire _ p => p | _ => true end.

(** The runtime runs the callback of interval [h] at a clock reading before
    [animationEnd]. *)
Definition tick_before (h : nat) (animationEnd : Q) (a : action) : Prop :=
  match a with
  | IntervalFires h' now _ _ _ _ => h' = h /\ now < animationEnd
  | _ => False
  end.

End Confetti.

(* ===================================================================== *)
(** * [SuccessModal.tsx]: confetti on open, sharing, copying *)
(* ===================================================================== *)

Module SuccessModal.

Import Confetti.

(** ** The effect that fires confetti *)

(** [useConfetti()]: the modal passes no options. *)
Definition hook_options : UseConfettiOptions :=
  {| opt_duration := None; opt_colors := None;
     opt_disableForReducedMotion := None |}.

(** The page as the modal's effect sees it: the hook's world, whose timers
    are those of the confetti (the timeout of this effect, the interval of
    the hook), and the cleanup the last run of the effect returned, with
    the timeout handle it captured. The reset timeouts of the modal's copy
    buttons are not in it: see [copy_button]. *)
Record modal := {
  page : world;
  cleanup : option nat
}.

Definition initial_modal : modal :=
  {| page := initial_world; cleanup := None |}.

(** The body of the effect: [setTimeout(fireConfetti, 350)] when the modal
    is open, with a cleanup that captures the handle; nothing otherwise. *)
Definition effect (isOpen : bool) (w : world) : modal :=
  if isOpen then
    {| page := {| intervalRef := intervalRef w;
                  timers := timers w ++ [(next_handle w, FireTimeout)];
                  next_handle := S (next_handle w);
                  emitted := emitted w |};
       cleanup := Some (next_handle w) |}
  else {| page := w; cleanup := None |}.

(** The cleanup: [clearTimeout(t); stopConfetti()]. *)
Definition run_cleanup (t : nat) (w : world) : world :=
  stop
    {| intervalRef := intervalRef w;
       timers := clear_timer t (timers w);
       next_handle := next_handle w;
       emitted := emitted w |}.

Definition cleaned (m : modal) : world :=
  match cleanup m with
  | Some t => run_cleanup t (page m)
  | None => page m
  end.

(** What can happen to a mounted modal: React runs the effect again (on the
    first render, or when [isOpen] or one of the hook's functions has
    changed), after the cleanup of the run before; React unmounts it, which
    runs the cleanup; the runtime runs a timeout or an interval callback. *)
Inductive modal_action :=
| Commit (isOpen : bool)
| Unmount
| TimeoutFires (h : nat) (now : Q) (prefersReduced : bool)
| TickFires (h : nat) (now r1 r2 r3 r4 : Q).

Definition modal_step (m : modal) (a : modal_action) : modal :=
  match a with
  | Commit isOpen => effect isOpen (cleaned m)
  | Unmount => {| page := cleaned m; cleanup := None |}
  | TimeoutFires h now prefersReduced =>
      match find_timer h (timers (page m)) with
      | Some FireTimeout =>
          {| page :=
               fire hook_options now prefersReduced
                 {| intervalRef := intervalRef (page m);
                    timers := clear_timer h (timers (page m));
                    next_handle := next_handle (page m);
                    emitted := emitted (page m) |};
             cleanup := cleanup m |}
      | _ => m
      end
  | TickFires h now r1 r2 r3 r4 =>
      {| page := interval_fires hook_options h now r1 r2 r3 r4 (page m);
         cleanup := cleanup m |}
  end.

Definition modal_run (m : modal) (actions : list modal_action) : modal :=
  fold_left modal_step actions m.

(** Every active confetti timer is one the modal can still clear: a pending
    timeout is the one its cleanup captured, an interval the one
    [intervalRef] holds. *)
Definition accounted (m : modal) : Prop :=
  forall h t,
    In (h, t) (timers (page m)) ->
    match t with
    | FireTimeout => cleanup m = Some h
    | BurstInterval _ => intervalRef (page m) = Some h
    end.

Definition is_timeout_fires (a : modal_action) : bool :=
  match a with TimeoutFires _ _ _ => true | _ => false end.

Definition is_runtime (a : modal_action) : bool :=
  match a with TimeoutFires _ _ _ | TickFires _ _ _ _ _ _ => true | _ => false end.

Definition fires_with_reduced_motion (a : modal_action) : bool :=
  match a with TimeoutFires _ _ p => p | _ => true end.

(** A modal that has every confetti timer under control, and none while no
    cleanup is registered. *)
Definition modal_ok (m : modal) : Prop :=
  accounted m
  /\ (cleanup m = None -> timers (page m) = [] /\ intervalRef (page m) = None).

(** The modal has started no burst and made no call to [confetti]. *)
Definition quiet (m : modal) : Prop :=
  emitted (page m) = []
  /\ intervalRef (page m) = None
  /\ forall h e, ~ In (h, BurstInterval e) (timers (page m)).

(** ** Sharing *)

(** The argument of [navigator.share]. *)
Record ShareData := {
  title : jsstring;
  text : jsstring;
  url : jsstring
}.

(** What the modal uses of [navigator]: [share], where the browser has it,
    with whether the promise it returns is fulfilled; and [clipboard], where
    the browser has it, with whether the promise of [writeText] is
    fulfilled. *)
Record Navigator := {
  share : option (ShareData -> bool);
  clipboard : option (jsstring -> bool)
}.

Inductive ui_event :=
| UiShare (data : ShareData)
| UiClipboardWrite (content : jsstring)
| UiAlert (message : jsstring).

(** How a call ends: it returns, or it throws the TypeError of reading
    [writeText] off an undefined [navigator.clipboard]. *)
Inductive completion := Returned | ThrewTypeError.

(** The party popper U+1F389, as its two code units. *)
Definition party_popper : jsstring := [55356%N; 57225%N].

Definition line_feed : jsstring := [10%N].

(** [shareText] *)
Definition shareText (tokenName tokenSymbol tokenAddress : jsstring) : jsstring :=
  party_popper ++ lit " I just deployed " ++ tokenName ++ lit " (" ++ tokenSymbol
  ++ lit ") on Nova Launch!" ++ line_feed ++ lit "Token address: "
  ++ tokenAddress.

(** [shareSuccess]; [href] is [window.location.href]. *)
Definition shareSuccess (navigator : Navigator) (href : jsstring)
    (tokenName tokenSymbol tokenAddress : jsstring)
    : list ui_event * completion :=
  let shareText := shareText tokenName tokenSymbol tokenAddress in
  let shareUrl := href in
  match share navigator with
  | Some _ =>
      ([UiShare {| title := tokenName ++ lit " deployed on Nova Launch!";
                   text := shareText;
                   url := shareUrl |}],
       Returned)
  | None =>
      match clipboard navigator with
      | None => ([], ThrewTypeError)
      | Some writeText =>
          let content := shareText ++ line_feed ++ shareUrl in
          ([UiClipboardWrite content;
            UiAlert (if writeText content
                     then lit "Share text copied to clipboard!"
                     else lit "Share: " ++ shareText)],
           Returned)
      end
  end.

(** The fee line of the deployment details:
    [{deploymentResult.totalFee} XLM]. *)
Definition fee_line (deploymentResult : Stellar.DeploymentResult) : jsstring :=
  Stellar.totalFee deploymentResult ++ lit " XLM".

(** ** [CopyButton] *)

Inductive dom_event :=
| DomClipboardWrite (content : jsstring)
| DomCreateTextarea
| DomSetValue (value : jsstring)
| DomSetStyle (property value : jsstring)
| DomAppendChild
| DomSelect
| DomExecCommand (command : jsstring)
| DomRemoveChild.

(** A copy button on its page: the [copied] flag, the timeouts pending to
    reset it, the next timeout handle, the textareas attached to
    [document.body] by the fallback, and what was done to the page and the
    clipboard, oldest first. *)
Record copy_button := {
  copied : bool;
  resets : list nat;
  next_timeout : nat;
  attached : nat;
  done : list dom_event
}.

(** [setCopied(true); setTimeout(() => setCopied(false), 2000)] *)
Definition show_copied (b : copy_button) (events : list dom_event) (attached' : nat)
    : copy_button :=
  {| copied := true;
     resets := resets b ++ [next_timeout b];
     next_timeout := S (next_timeout b);
     attached := attached';
     done := done b ++ events |}.

(** [handleCopy]. [clip] is [navigator.clipboard] as in [Navigator];
    [exec] is what [document.execCommand('copy')] does, returning a boolean
    or throwing. A call that throws out of its [catch] block rejects, the
    second component then being [false]. *)
Definition handleCopy (clip : option (jsstring -> bool)) (exec : thrown + bool)
    (text : jsstring) (b : copy_button) : copy_button * bool :=
  let attempted :=
    match clip with
    | Some _ => [DomClipboardWrite text]
    | None => []
    end in
  let fulfilled :=
    match clip with
    | Some writeText => writeText text
    | None => false
    end in
  if fulfilled then (show_copied b attempted (attached b), true)
  else
    let fallback :=
      [DomCreateTextarea; DomSetValue text;
       DomSetStyle (lit "position") (lit "fixed");
       DomSetStyle (lit "opacity") (lit "0");
       DomAppendChild; DomSelect; DomExecCommand (lit "copy")] in
    match exec with
    | inr _ =>
        (show_copied b (attempted ++ fallback ++ [DomRemoveChild]) (attached b),
         true)
    | inl _ =>
        ({| copied := copied b;
            resets := resets b;
            next_timeout := next_timeout b;
            attached := S (attached b);
            done := done b ++ attempted ++ fallback |},
         false)
    end.

(** The runtime runs the reset scheduled under handle [h], if pending:
    [setCopied(false)]. *)
Definition reset_fires (h : nat) (b : copy_button) : copy_button :=
  if existsb (Nat.eqb h) (resets b) then
    {| copied := false;
       resets := filter (fun h' => negb (Nat.eqb h' h)) (resets b);
       next_timeout := next_timeout b;
       attached := attached b;
       done := done b |}
  else b.

(** ** Reading a trace *)

Definition is_share (e : ui_event) : bool :=
  match e with UiShare _ => true | _ => false end.

Definition is_clipboard_write (e : ui_event) : bool :=
  match e with UiClipboardWrite _ => true | _ => false end.

Definition is_alert (e : ui_event) : bool :=
  match e with UiAlert _ => true | _ => false end.

(** The strings a call hands to the clipboard or puts into the textarea. *)
Fixpoint offered (events : list dom_event) : list jsstring :=
  match events with
  | [] => []
  | DomClipboardWrite c :: rest => c :: offered rest
  | DomSetValue v :: rest => v :: offered rest
  | _ :: rest => offered rest
  end.

End SuccessModal.

(* ===================================================================== *)
(** * Concrete pages, to run the hook and the modal *)
(* ===================================================================== *)

Module Pages.

Import Confetti SuccessModal.

(** A browser with the Web Share API, whose shares are turned down. *)
Definition sharing_browser : Navigator :=
  {| share := Some (fun _ => false); clipboard := Some (fun _ => true) |}.

(** A browser without the Web Share API, with a working clipboard. *)
Definition clipboard_browser : Navigator :=
  {| share := None; clipboard := Some (fun _ => true) |}.

(** A copy button that has not been used. *)
Definition fresh_button : copy_button :=
  {| copied := false; resets := []; next_timeout := 1; attached := 0;
     done := [] |}.

End Pages.

(* ===================================================================== *)
(** * Facts about strings and numbers *)
(* ===================================================================== *)

Import Js.

Lemma trimStart_nil_iff (s : jsstring) :
  trimStart s = [] <-> whitespace_only s.
Proof.
  unfold whitespace_only. induction s as [|c s IH]; simpl.
  - split; auto.
  - destruct (is_white_space c) eqn:Hc.
    + rewrite IH. split; intros H.
      * constructor; assumption.
      * inversion H; assumption.
    + split; intros H.
      * discriminate.
      * inversion H; congruence.
Qed.

Lemma trimStart_whitespace_only (s : jsstring) :
  whitespace_only (trimStart s) <-> whitespace_only s.
Proof.
  unfold whitespace_only. induction s as [|c s IH]; simpl.
  - reflexivity.
  - destruct (is_white_space c) eqn:Hc.
    + rewrite IH. split; intros H.
      * constructor; assumption.
      * inversion H; assumption.
    + reflexivity.
Qed.

Lemma whitespace_only_rev (s : jsstring) :
  whitespace_only (rev s) <-> whitespace_only s.
Proof.
  unfold whitespace_only. rewrite !Forall_forall.
  split; intros H c Hin; apply H.
  - apply in_rev in Hin. exact Hin.
  - apply in_rev. exact Hin.
Qed.

(** [s.trim() === ''] exactly when [s] holds nothing but white space. *)
Lemma trim_nil_iff (s : jsstring) :
  trim s = [] <-> whitespace_only s.
Proof.
  unfold trim. split; intros H.
  - apply (f_equal (@rev N)) in H. rewrite rev_involutive in H. simpl in H.
    apply (proj1 (trimStart_nil_iff _)) in H.
    apply (proj1 (whitespace_only_rev _)) in H.
    apply (proj1 (trimStart_whitespace_only _)) in H.
    exact H.
  - apply (proj2 (trimStart_whitespace_only _)) in H.
    apply (proj2 (whitespace_only_rev _)) in H.
    apply (proj2 (trimStart_nil_iff _)) in H.
    rewrite H. reflexivity.
Qed.

(** The test [!s || s.trim() === ''] of the guards. *)
Lemma blank_test_iff (s : jsstring) :
  negb (truthy s) || is_empty (trim s) = true <-> whitespace_only s.
Proof.
  rewrite <- trim_nil_iff. split.
  - intros H. apply orb_true_iff in H. destruct H as [H | H].
    + destruct s; [reflexivity | discriminate].
    + destruct (trim s); [reflexivity | discriminate].
  - intros H. rewrite H. apply orb_true_r.
Qed.

Lemma positive_iff (x : jsnumber) :
  positive x <-> isNaN x = false /\ le_zero x = false.
Proof.
  destruct x as [ | | q | ]; simpl; try (split; [intros [] | intros [? ?]; discriminate]).
  - split.
    + intros H. split; [reflexivity | ].
      destruct (Qle_bool q 0) eqn:E; [ | reflexivity].
      apply Qle_bool_iff in E. lra.
    + intros [_ H].
      destruct (Qlt_le_dec 0 q) as [Hq | Hq]; [exact Hq | ].
      apply Qle_bool_iff in Hq. congruence.
  - split; auto.
Qed.

(** The test [!amount || isNaN(Number(amount)) || Number(amount) <= 0]. *)
Lemma amount_test_iff (amount : jsstring) (n : jsnumber) :
  negb (truthy amount) || isNaN n || le_zero n = true
  <-> amount = [] \/ n = NaN \/ ~ positive n.
Proof.
  rewrite positive_iff. split.
  - intros H. apply orb_true_iff in H. destruct H as [H | H].
    + apply orb_true_iff in H. destruct H as [H | H].
      * left. destruct amount; [reflexivity | discriminate].
      * right. left. destruct n; try discriminate. reflexivity.
    + right. right. intros [_ H']. congruence.
  - intros [H | [H | H]].
    + subst. reflexivity.
    + subst. simpl. destruct (negb (truthy amount)); reflexivity.
    + destruct amount; [reflexivity | ]. simpl.
      destruct (isNaN n); [reflexivity | ].
      destruct (le_zero n); [reflexivity | ].
      exfalso. apply H. split; reflexivity.
Qed.

(* ===================================================================== *)
(** * Facts about the service *)
(* ===================================================================== *)

Import Stellar.
Local Open Scope svc_scope.

Lemma on_return_ret {A} (P : A -> Prop) (a : A) : P a -> on_return P (ret a).
Proof. intros H. exact H. Qed.

Lemma on_return_throw {A} (P : A -> Prop) (e : thrown) : on_return P (throw e).
Proof. exact I. Qed.

Lemma on_return_bind {A B} (P : B -> Prop) (m : M A) (k : A -> M B) :
  (forall a, on_return P (k a)) -> on_return P (bind m k).
Proof.
  intros H. unfold on_return, bind.
  destruct (snd m) as [e | a]; simpl; [exact I | apply H].
Qed.

Lemma on_return_try_catch {A} (P : A -> Prop) (body : M A) (handler : thrown -> M A) :
  on_return P body -> (forall e, on_return P (handler e)) ->
  on_return P (try_catch body handler).
Proof.
  intros Hb Hh. unfold try_catch.
  destruct (snd body) as [e | a] eqn:E.
  - apply Hh.
  - exact Hb.
Qed.

Lemma on_return_elim {A} (P : A -> Prop) (m : M A) tr a :
  on_return P m -> m = (tr, inr a) -> P a.
Proof. intros H E. rewrite E in H. exact H. Qed.

(** The events of a sequence start with those of its first part. *)
Lemma bind_sdk_call_events {A B} (ev : sdk_event) (r : thrown + A) (k : A -> M B) :
  exists rest, fst (bind (sdk_call ev r) k) = ev :: rest.
Proof.
  unfold bind, sdk_call. simpl. destruct r as [e | a]; simpl; eauto.
Qed.

Lemma try_catch_throw_events {A} (body : M A) (f : thrown -> thrown) :
  fst (try_catch body (fun e => throw (f e))) = fst body.
Proof.
  unfold try_catch. destruct (snd body); simpl; [apply app_nil_r | reflexivity].
Qed.

Section ServiceFacts.

Context {O : Objects} (env : Env O).

(** The guards, read as one cascade of tests. *)
Lemma mintTokens_validate_cascade (tokenAddress recipient amount adminAddress : jsstring) :
  mintTokens_validate env tokenAddress recipient amount adminAddress =
  if negb (truthy tokenAddress) || is_empty (trim tokenAddress)
  then throw (ErrorObj (lit "Token address is required"))
  else if negb (truthy recipient) || is_empty (trim recipient)
  then throw (ErrorObj (lit "Recipient address is required"))
  else if negb (truthy adminAddress) || is_empty (trim adminAddress)
  then throw (ErrorObj (lit "Admin address is required"))
  else if negb (truthy amount) || isNaN (Number env amount)
          || le_zero (Number env amount)
  then throw (ErrorObj (lit "Invalid amount: must be a positive number"))
  else ret tt.
Proof.
  unfold mintTokens_validate, throw_if.
  destruct (negb (truthy tokenAddress) || is_empty (trim tokenAddress));
    [reflexivity | ].
  destruct (negb (truthy recipient) || is_empty (trim recipient));
    [reflexivity | ].
  destruct (negb (truthy adminAddress) || is_empty (trim adminAddress));
    [reflexivity | ].
  destruct (negb (truthy amount) || isNaN (Number env amount)
            || le_zero (Number env amount)); reflexivity.
Qed.

(** A failed guard ends the call: nothing of the SDK has run, and the
    [catch] block decides what is surfaced. *)
Lemma mintTokens_guard_fails (tokenAddress recipient amount adminAddress message : jsstring) :
  mintTokens_validate env tokenAddress recipient amount adminAddress
    = throw (ErrorObj message) ->
  mintTokens_try env tokenAddress recipient amount adminAddress
    = ([], inl (ErrorObj message))
  /\ mintTokens env tokenAddress recipient amount adminAddress
     = mintTokens_catch (ErrorObj message).
Proof.
  intros H.
  assert (E : mintTokens_try env tokenAddress recipient amount adminAddress
              = ([], inl (ErrorObj message))).
  { unfold mintTokens_try, bind. rewrite H. reflexivity. }
  split; [exact E | ].
  unfold mintTokens, try_catch. rewrite E. cbn [fst snd app].
  destruct (mintTokens_catch (ErrorObj message)); reflexivity.
Qed.

(** Once the guards have passed, the call is the delegation to the SDK. *)
Lemma mintTokens_guard_passes (tokenAddress recipient amount adminAddress : jsstring) :
  mintTokens_validate env tokenAddress recipient amount adminAddress = ret tt ->
  mintTokens_try env tokenAddress recipient amount adminAddress
    = mintTokens_delegate env tokenAddress recipient amount adminAddress.
Proof.
  intros H. unfold mintTokens_try, bind. rewrite H. cbn [fst snd app ret].
  destruct (mintTokens_delegate env tokenAddress recipient amount adminAddress)
    as [tr [e | h]]; reflexivity.
Qed.

Lemma mintTokens_delegate_first_event (tokenAddress recipient amount adminAddress : jsstring) :
  exists rest,
    fst (mintTokens_delegate env tokenAddress recipient amount adminAddress)
    = EvNewContract tokenAddress :: rest.
Proof. unfold mintTokens_delegate. apply bind_sdk_call_events. Qed.

Lemma try_catch_first_event {A} (body : M A) (handler : thrown -> M A) ev rest :
  fst body = ev :: rest ->
  exists rest', fst (try_catch body handler) = ev :: rest'.
Proof.
  intros H. unfold try_catch. destruct (snd body); simpl.
  - rewrite H. simpl. eauto.
  - eauto.
Qed.

(** C1. Every call to [mintTokens] whose [tokenAddress], [recipient] or
    [adminAddress] is empty or only white space, or whose [amount] is
    missing, not a number, or not strictly positive, fails with a validation
    error before any SDK operation has run (the trace is empty: no contract,
    no account fetch, no simulation); the three address errors are surfaced
    behind the prefix of the [catch] block, the amount error unchanged.
    Conversely, with four valid inputs every guard passes without an error,
    and the call is the delegation to the SDK, which starts by constructing
    the contract. *)
Theorem mintTokens_validates_before_sdk
    (tokenAddress recipient amount adminAddress : jsstring) :
  (whitespace_only tokenAddress \/ whitespace_only recipient
   \/ whitespace_only adminAddress
   \/ amount = [] \/ Number env amount = NaN \/ ~ positive (Number env amount) ->
   exists message,
     In message [lit "Token address is required";
                 lit "Recipient address is required";
                 lit "Admin address is required";
                 lit "Invalid amount: must be a positive number"]
     /\ mintTokens_try env tokenAddress recipient amount adminAddress
        = ([], inl (ErrorObj message))
     /\ exists surfaced,
          (surfaced = message \/ surfaced = lit "Minting failed: " ++ message)
          /\ mintTokens env tokenAddress recipient amount adminAddress
             = ([], inl (ErrorObj surfaced)))
  /\
  (~ whitespace_only tokenAddress -> ~ whitespace_only recipient ->
   ~ whitespace_only adminAddress ->
   amount <> [] -> positive (Number env amount) ->
   mintTokens_validate env tokenAddress recipient amount adminAddress
     = ([], inr tt)
   /\ mintTokens env tokenAddress recipient amount adminAddress
      = try_catch
          (mintTokens_delegate env tokenAddress recipient amount adminAddress)
          mintTokens_catch
   /\ exists rest,
        fst (mintTokens env tokenAddress recipient amount adminAddress)
        = EvNewContract tokenAddress :: rest).
Proof.
  pose proof (mintTokens_validate_cascade tokenAddress recipient amount adminAddress)
    as Hv.
  pose proof (blank_test_iff tokenAddress) as Ht.
  pose proof (blank_test_iff recipient) as Hr.
  pose proof (blank_test_iff adminAddress) as Ha.
  pose proof (amount_test_iff amount (Number env amount)) as Hn.
  destruct (negb (truthy tokenAddress) || is_empty (trim tokenAddress)).
  { split; [intros _ | intros H; exfalso; apply H, Ht; reflexivity].
    destruct (mintTokens_guard_fails _ _ _ _ _ Hv) as [E1 E2].
    exists (lit "Token address is required"). split; [simpl; auto | ].
    split; [exact E1 | ]. eexists. split; [right; reflexivity | ].
    rewrite E2. reflexivity. }
  destruct (negb (truthy recipient) || is_empty (trim recipient)).
  { split; [intros _ | intros _ H; exfalso; apply H, Hr; reflexivity].
    destruct (mintTokens_guard_fails _ _ _ _ _ Hv) as [E1 E2].
    exists (lit "Recipient address is required"). split; [simpl; auto | ].
    split; [exact E1 | ]. eexists. split; [right; reflexivity | ].
    rewrite E2. reflexivity. }
  destruct (negb (truthy adminAddress) || is_empty (trim adminAddress)).
  { split; [intros _ | intros _ _ H; exfalso; apply H, Ha; reflexivity].
    destruct (mintTokens_guard_fails _ _ _ _ _ Hv) as [E1 E2].
    exists (lit "Admin address is required"). split; [simpl; auto | ].
    split; [exact E1 | ]. eexists. split; [right; reflexivity | ].
    rewrite E2. reflexivity. }
  destruct (negb (truthy amount) || isNaN (Number env amount)
            || le_zero (Number env amount)).
  { split.
    - intros _.
      destruct (mintTokens_guard_fails _ _ _ _ _ Hv) as [E1 E2].
      exists (lit "Invalid amount: must be a positive number").
      split; [simpl; auto 6 | ].
      split; [exact E1 | ]. eexists. split; [left; reflexivity | ].
      rewrite E2. reflexivity.
    - intros _ _ _ Hne Hpos. exfalso.
      destruct (proj1 Hn eq_refl) as [H | [H | H]].
      + contradiction.
      + rewrite H in Hpos. exact Hpos.
      + contradiction. }
  split.
  - intros [H | [H | [H | H]]].
    + apply Ht in H. discriminate.
    + apply Hr in H. discriminate.
    + apply Ha in H. discriminate.
    + apply Hn in H. discriminate.
  - intros _ _ _ _ _. split; [exact Hv | ].
    unfold mintTokens.
    rewrite (mintTokens_guard_passes _ _ _ _ Hv).
    split; [reflexivity | ].
    destruct (mintTokens_delegate_first_event tokenAddress recipient amount adminAddress)
      as [rest Hrest].
    exact (try_catch_first_event _ _ _ _ Hrest).
Qed.

(** ** [mintTokens]: what is surfaced on failure *)

Lemma mintTokens_validate_valid (tokenAddress recipient amount adminAddress : jsstring) :
  ~ whitespace_only tokenAddress -> ~ whitespace_only recipient ->
  ~ whitespace_only adminAddress ->
  amount <> [] -> positive (Number env amount) ->
  mintTokens_validate env tokenAddress recipient amount adminAddress = ret tt.
Proof.
  intros Ht Hr Ha Hne Hpos. rewrite mintTokens_validate_cascade.
  destruct (negb (truthy tokenAddress) || is_empty (trim tokenAddress)) eqn:E1.
  { exfalso. apply Ht, blank_test_iff, E1. }
  destruct (negb (truthy recipient) || is_empty (trim recipient)) eqn:E2.
  { exfalso. apply Hr, blank_test_iff, E2. }
  destruct (negb (truthy adminAddress) || is_empty (trim adminAddress)) eqn:E3.
  { exfalso. apply Ha, blank_test_iff, E3. }
  destruct (negb (truthy amount) || isNaN (Number env amount)
            || le_zero (Number env amount)) eqn:E4; [ | reflexivity].
  exfalso. apply amount_test_iff in E4. destruct E4 as [H | [H | H]].
  - contradiction.
  - rewrite H in Hpos. exact Hpos.
  - contradiction.
Qed.

Lemma mintTokens_validate_invalid_amount
    (tokenAddress recipient amount adminAddress : jsstring) :
  ~ whitespace_only tokenAddress -> ~ whitespace_only recipient ->
  ~ whitespace_only adminAddress ->
  amount = [] \/ Number env amount = NaN \/ ~ positive (Number env amount) ->
  mintTokens_validate env tokenAddress recipient amount adminAddress
  = throw (ErrorObj (lit "Invalid amount: must be a positive number")).
Proof.
  intros Ht Hr Ha Hbad. rewrite mintTokens_validate_cascade.
  destruct (negb (truthy tokenAddress) || is_empty (trim tokenAddress)) eqn:E1.
  { exfalso. apply Ht, blank_test_iff, E1. }
  destruct (negb (truthy recipient) || is_empty (trim recipient)) eqn:E2.
  { exfalso. apply Hr, blank_test_iff, E2. }
  destruct (negb (truthy adminAddress) || is_empty (trim adminAddress)) eqn:E3.
  { exfalso. apply Ha, blank_test_iff, E3. }
  apply amount_test_iff in Hbad. rewrite Hbad. reflexivity.
Qed.

Lemma bind_sdk_call_inr {A B} (ev : sdk_event) (r : thrown + A) (a : A)
    (k : A -> M B) :
  r = inr a -> bind (sdk_call ev r) k = (ev :: fst (k a), snd (k a)).
Proof. intros H. subst. reflexivity. Qed.

(** The message the [try] block throws for a simulation error that mentions
    authorization holds the word the [catch] block looks for. *)
Lemma admin_authorization_is_unauthorized :
  includes (lit "Unauthorized: Admin authorization required for minting")
           (lit "Unauthorized") = true.
Proof. vm_compute. reflexivity. Qed.

Lemma mintTokens_catch_cases (e : thrown) :
  exists surfaced,
    mintTokens_catch e = ([], inl (ErrorObj surfaced))
    /\ (forall m, e = ErrorObj m ->
          (includes m (lit "unauthorized") = true
           \/ includes m (lit "Unauthorized") = true ->
           surfaced = lit "Unauthorized: Only the admin can mint tokens")
          /\ (includes m (lit "unauthorized") = false ->
              includes m (lit "Unauthorized") = false ->
              includes m (lit "Invalid amount") = true ->
              surfaced = m)
          /\ (includes m (lit "unauthorized") = false ->
              includes m (lit "Unauthorized") = false ->
              includes m (lit "Invalid amount") = false ->
              surfaced = lit "Minting failed: " ++ m))
    /\ (forall v, e = NonError v -> surfaced = lit "Minting failed: Unknown error").
Proof.
  destruct e as [m | v]; unfold mintTokens_catch, throw.
  - destruct (includes m (lit "unauthorized")) eqn:E1;
    destruct (includes m (lit "Unauthorized")) eqn:E2;
    destruct (includes m (lit "Invalid amount")) eqn:E3;
    cbn [orb]; eexists; (split; [reflexivity | ]);
    (split; [ | intros; discriminate]);
    intros m' Hm; injection Hm as Hm; subst m';
    rewrite ?E1, ?E2, ?E3;
    repeat split; intros; try reflexivity; try discriminate;
    try (match goal with H : _ \/ _ |- _ => destruct H; discriminate end).
  - eexists. split; [reflexivity | ]. split; intros; [discriminate | reflexivity].
Qed.

(** C10. A failing call to [mintTokens] surfaces an error that depends
    only on what its [try] block threw: an Error whose message holds
    'unauthorized' or 'Unauthorized' becomes 'Unauthorized: Only the admin
    can mint tokens' (so does a simulation error that mentions 'auth' or
    'unauthorized'); otherwise an Error whose message holds 'Invalid amount'
    is rethrown unchanged (so the validation error of an invalid amount
    comes out as it was thrown); every other Error becomes 'Minting failed: '
    followed by its message; a thrown value that is no Error becomes
    'Minting failed: Unknown error'. The call fails exactly when its [try]
    block does, with the same SDK operations performed. *)
Theorem mintTokens_error_classification
    (tokenAddress recipient amount adminAddress : jsstring) :
  (forall tr e,
     mintTokens_try env tokenAddress recipient amount adminAddress = (tr, inl e) ->
     exists surfaced,
       mintTokens env tokenAddress recipient amount adminAddress
       = (tr, inl (ErrorObj surfaced))
       /\ (forall m, e = ErrorObj m ->
             (includes m (lit "unauthorized") = true
              \/ includes m (lit "Unauthorized") = true ->
              surfaced = lit "Unauthorized: Only the admin can mint tokens")
             /\ (includes m (lit "unauthorized") = false ->
                 includes m (lit "Unauthorized") = false ->
                 includes m (lit "Invalid amount") = true ->
                 surfaced = m)
             /\ (includes m (lit "unauthorized") = false ->
                 includes m (lit "Unauthorized") = false ->
                 includes m (lit "Invalid amount") = false ->
                 surfaced = lit "Minting failed: " ++ m))
       /\ (forall v, e = NonError v ->
             surfaced = lit "Minting failed: Unknown error"))
  /\ (forall tr e,
        mintTokens env tokenAddress recipient amount adminAddress = (tr, inl e) ->
        exists e0,
          mintTokens_try env tokenAddress recipient amount adminAddress
          = (tr, inl e0))
  /\ (forall c a1 a2 a3 op acc tx error,
        ~ whitespace_only tokenAddress -> ~ whitespace_only recipient ->
        ~ whitespace_only adminAddress ->
        amount <> [] -> positive (Number env amount) ->
        newContract env tokenAddress = inr c ->
        nativeToScVal env (VString recipient) (lit "address") = inr a1 ->
        nativeToScVal env (VString amount) (lit "i128") = inr a2 ->
        nativeToScVal env (VString (lit "1000000")) (lit "i128") = inr a3 ->
        contractCall env c (lit "mint_tokens") [a1; a2; a3] = inr op ->
        getAccount env adminAddress = inr acc ->
        buildTransaction env acc (BASE_FEE env) (networkPassphrase env) op 30
          = inr tx ->
        simulateTransaction env tx = inr (SimulationError error) ->
        includes error (lit "unauthorized") = true
        \/ includes error (lit "auth") = true ->
        snd (mintTokens env tokenAddress recipient amount adminAddress)
        = inl (ErrorObj (lit "Unauthorized: Only the admin can mint tokens")))
  /\ (~ whitespace_only tokenAddress -> ~ whitespace_only recipient ->
      ~ whitespace_only adminAddress ->
      amount = [] \/ Number env amount = NaN \/ ~ positive (Number env amount) ->
      mintTokens env tokenAddress recipient amount adminAddress
      = ([], inl (ErrorObj (lit "Invalid amount: must be a positive number")))).
Proof.
  split; [ | split; [ | split]].
  - intros tr e He.
    destruct (mintTokens_catch_cases e) as [surfaced [Hc Hrest]].
    exists surfaced. split; [ | exact Hrest].
    unfold mintTokens, try_catch. rewrite He. cbn [fst snd].
    rewrite Hc. cbn [fst snd]. rewrite app_nil_r. reflexivity.
  - intros tr e He. unfold mintTokens, try_catch in He.
    destruct (mintTokens_try env tokenAddress recipient amount adminAddress)
      as [tr0 [e0 | h]] eqn:Et; cbn [fst snd] in He.
    + destruct (mintTokens_catch_cases e0) as [surfaced [Hc _]].
      rewrite Hc in He. cbn [fst snd] in He. rewrite app_nil_r in He.
      injection He as Htr _. subst tr0. exists e0. reflexivity.
    + discriminate.
  - intros c a1 a2 a3 op acc tx error Ht Hr Ha Hne Hpos
           Hc H1 H2 H3 Hop Hacc Htx Hsim Hauth.
    unfold mintTokens.
    rewrite (mintTokens_guard_passes _ _ _ _
               (mintTokens_validate_valid _ _ _ _ Ht Hr Ha Hne Hpos)).
    unfold mintTokens_delegate.
    rewrite (bind_sdk_call_inr _ _ _ _ Hc).
    rewrite (bind_sdk_call_inr _ _ _ _ H1).
    rewrite (bind_sdk_call_inr _ _ _ _ H2).
    rewrite (bind_sdk_call_inr _ _ _ _ H3).
    rewrite (bind_sdk_call_inr _ _ _ _ Hop).
    rewrite (bind_sdk_call_inr _ _ _ _ Hacc).
    rewrite (bind_sdk_call_inr _ _ _ _ Htx).
    rewrite (bind_sdk_call_inr _ _ _ _ Hsim).
    assert (Hb : includes error (lit "unauthorized")
                 || includes error (lit "auth") = true).
    { apply orb_true_iff. exact Hauth. }
    rewrite Hb. unfold try_catch, bind, throw. cbn [fst snd].
    unfold mintTokens_catch.
    rewrite admin_authorization_is_unauthorized, orb_true_r.
    reflexivity.
  - intros Ht Hr Ha Hbad.
    destruct (mintTokens_guard_fails _ _ _ _ _
                (mintTokens_validate_invalid_amount _ _ _ _ Ht Hr Ha Hbad))
      as [_ E].
    rewrite E. reflexivity.
Qed.

(** ** [deployToken] *)

Lemma deployToken_first_event (params : TokenDeployParams O) (sourceAddress : jsstring) :
  exists rest,
    fst (deployToken env params sourceAddress)
    = EvNewContract (factoryContractId env) :: rest.
Proof.
  unfold deployToken. rewrite try_catch_throw_events.
  unfold deployToken_try. apply bind_sdk_call_events.
Qed.

Lemma deployToken_failure (params : TokenDeployParams O) (sourceAddress : jsstring) tr e :
  deployToken env params sourceAddress = (tr, inl e) ->
  exists e0,
    deployToken_try env params sourceAddress = (tr, inl e0)
    /\ e = handleError e0.
Proof.
  unfold deployToken, try_catch. intros H.
  destruct (deployToken_try env params sourceAddress) as [tr0 [e0 | r]];
    cbn [fst snd throw] in H.
  - rewrite app_nil_r in H. injection H as Htr He. subst.
    exists e0. split; reflexivity.
  - discriminate.
Qed.

(** What [deployToken] returns, when it returns. *)
Lemma deployToken_result (params : TokenDeployParams O) (sourceAddress : jsstring) :
  on_return
    (fun r => tokenAddress r = []
              /\ totalFee r = number_toString (calculateTotalFee params)
              /\ timestamp r = Date_now env)
    (deployToken env params sourceAddress).
Proof.
  unfold deployToken. apply on_return_try_catch.
  - unfold deployToken_try.
    repeat (apply on_return_bind; intros).
    apply on_return_ret. repeat split.
  - intros e. apply on_return_throw.
Qed.

(** C2, as the service has it. [deployToken] has no guard clause: whatever
    its input, an empty [sourceAddress] or [adminWallet] included, the first
    thing it does is an SDK operation, the construction of the factory
    contract; a failure it reports is what the SDK operations (or a failed
    simulation) threw inside the [try] block, passed through [handleError],
    and so at least one SDK operation has run by then. *)
Theorem deployToken_delegates_unvalidated
    (params : TokenDeployParams O) (sourceAddress : jsstring) :
  (exists rest,
     fst (deployToken env params sourceAddress)
     = EvNewContract (factoryContractId env) :: rest)
  /\ (forall tr e,
        deployToken env params sourceAddress = (tr, inl e) ->
        tr <> []
        /\ exists e0,
             deployToken_try env params sourceAddress = (tr, inl e0)
             /\ e = handleError e0).
Proof.
  split; [apply deployToken_first_event | ].
  intros tr e H. split.
  - destruct (deployToken_first_event params sourceAddress) as [rest Hrest].
    rewrite H in Hrest. cbn [fst] in Hrest. rewrite Hrest. discriminate.
  - apply deployToken_failure. exact H.
Qed.

(** C8. The fee [calculateTotalFee] computes is 10000000 stroops plus
    5000000 exactly when [params.metadata] is present: 15000000 with
    metadata, 10000000 without; and the [totalFee] of a result [deployToken]
    returns is the decimal string of that value. *)
Theorem deployToken_total_fee
    (params : TokenDeployParams O) (sourceAddress : jsstring) :
  calculateTotalFee params
  = (10000000 + match metadata params with Some _ => 5000000 | None => 0 end)%Z
  /\ (metadata params <> None -> calculateTotalFee params = 15000000%Z)
  /\ (metadata params = None -> calculateTotalFee params = 10000000%Z)
  /\ (forall tr r,
        deployToken env params sourceAddress = (tr, inr r) ->
        totalFee r = number_toString (calculateTotalFee params)
        /\ totalFee r = match metadata params with
                        | Some _ => lit "15000000"
                        | None => lit "10000000"
                        end).
Proof.
  split; [reflexivity | ]. split; [ | split].
  - intros H. unfold calculateTotalFee.
    destruct (metadata params); [reflexivity | contradiction].
  - intros H. unfold calculateTotalFee. rewrite H. reflexivity.
  - intros tr r H.
    pose proof (on_return_elim _ _ _ _ (deployToken_result params sourceAddress) H)
      as [_ [Hfee _]].
    split; [exact Hfee | ]. rewrite Hfee. unfold calculateTotalFee.
    destruct (metadata params); vm_compute; reflexivity.
Qed.

(** C9. A result [deployToken] returns always has the empty string as its
    [tokenAddress]: [deployToken] never fills the token address in. *)
Theorem deployToken_token_address_empty
    (params : TokenDeployParams O) (sourceAddress : jsstring) tr r :
  deployToken env params sourceAddress = (tr, inr r) ->
  tokenAddress r = [].
Proof.
  intros H.
  exact (proj1 (on_return_elim _ _ _ _ (deployToken_result params sourceAddress) H)).
Qed.

End ServiceFacts.

(** ** The service at concrete inputs *)

Import Samples.

Lemma not_blank_head (c : N) (s : jsstring) :
  is_white_space c = false -> ~ whitespace_only (c :: s).
Proof. intros Hc H. inversion H. congruence. Qed.

Ltac not_blank := apply not_blank_head; vm_compute; reflexivity.

Ltac all_blank := vm_compute; repeat constructor.

Lemma mintTokens_validates_before_sdk_witness :
  (exists surfaced,
     mintTokens accepting_env (lit "  ") (lit "GRECIP") (lit "5") (lit "GADMIN")
     = ([], inl (ErrorObj surfaced)))
  /\ (exists surfaced,
        mintTokens accepting_env (lit "CTOKEN") (lit "GRECIP") (lit "abc") (lit "GADMIN")
        = ([], inl (ErrorObj surfaced)))
  /\ (exists rest,
        fst (mintTokens accepting_env (lit "CTOKEN") (lit "GRECIP") (lit "5") (lit "GADMIN"))
        = EvNewContract (lit "CTOKEN") :: rest).
Proof.
  split; [ | split].
  - destruct (proj1 (mintTokens_validates_before_sdk accepting_env
                       (lit "  ") (lit "GRECIP") (lit "5") (lit "GADMIN")))
      as [message [_ [_ [surfaced [_ H]]]]].
    + left. all_blank.
    + exists surfaced. exact H.
  - destruct (proj1 (mintTokens_validates_before_sdk accepting_env
                       (lit "CTOKEN") (lit "GRECIP") (lit "abc") (lit "GADMIN")))
      as [message [_ [_ [surfaced [_ H]]]]].
    + right. right. right. right. left. vm_compute. reflexivity.
    + exists surfaced. exact H.
  - apply (proj2 (mintTokens_validates_before_sdk accepting_env
                    (lit "CTOKEN") (lit "GRECIP") (lit "5") (lit "GADMIN"))).
    + not_blank.
    + not_blank.
    + not_blank.
    + discriminate.
    + vm_compute. reflexivity.
Defined.

Lemma mintTokens_error_classification_witness :
  snd (mintTokens (simulation_error_env (lit "host auth failed"))
         (lit "CTOKEN") (lit "GRECIP") (lit "5") (lit "GADMIN"))
  = inl (ErrorObj (lit "Unauthorized: Only the admin can mint tokens"))
  /\ mintTokens accepting_env (lit "CTOKEN") (lit "GRECIP") (lit "-5") (lit "GADMIN")
     = ([], inl (ErrorObj (lit "Invalid amount: must be a positive number")))
  /\ (exists surfaced,
        mintTokens (account_error_env (ErrorObj (lit "Account not found")))
          (lit "CTOKEN") (lit "GRECIP") (lit "5") (lit "GADMIN")
        = ([EvNewContract (lit "CTOKEN");
            EvNativeToScVal (VString (lit "GRECIP")) (lit "address");
            EvNativeToScVal (VString (lit "5")) (lit "i128");
            EvNativeToScVal (VString (lit "1000000")) (lit "i128");
            EvContractCall (lit "mint_tokens");
            EvGetAccount (lit "GADMIN")],
           inl (ErrorObj surfaced))
        /\ surfaced = lit "Minting failed: Account not found").
Proof.
  split; [ | split].
  - apply (proj1 (proj2 (proj2 (mintTokens_error_classification
             (simulation_error_env (lit "host auth failed"))
             (lit "CTOKEN") (lit "GRECIP") (lit "5") (lit "GADMIN"))))
             tt tt tt tt tt tt tt (lit "host auth failed")).
    + not_blank.
    + not_blank.
    + not_blank.
    + discriminate.
    + vm_compute. reflexivity.
    + reflexivity.
    + reflexivity.
    + reflexivity.
    + reflexivity.
    + reflexivity.
    + reflexivity.
    + reflexivity.
    + reflexivity.
    + right. vm_compute. reflexivity.
  - apply (proj2 (proj2 (proj2 (mintTokens_error_classification accepting_env
             (lit "CTOKEN") (lit "GRECIP") (lit "-5") (lit "GADMIN"))))).
    + not_blank.
    + not_blank.
    + not_blank.
    + right. right. vm_compute. intros H. discriminate H.
  - destruct (proj1 (mintTokens_error_classification
                       (account_error_env (ErrorObj (lit "Account not found")))
                       (lit "CTOKEN") (lit "GRECIP") (lit "5") (lit "GADMIN"))
                _ (ErrorObj (lit "Account not found")) eq_refl)
      as [surfaced [Hrun [Hcls _]]].
    exists surfaced. split; [exact Hrun | ].
    apply (proj2 (proj2 (Hcls _ eq_refl))); vm_compute; reflexivity.
Defined.

(** With an SDK that accepts its arguments, a deployment from an empty
    source address for an empty admin wallet goes through, the empty
    strings handed to the SDK as they are; and [deployToken] never fails
    without an SDK operation having run, whatever the SDK and the input. *)
Lemma deployToken_validation_counterexample :
  (exists r,
     deployToken accepting_env no_admin_params []
     = ([EvNewContract (lit "CFACTORY");
         EvNativeToScVal (VString (lit "Nova")) (lit "string");
         EvNativeToScVal (VString (lit "NOVA")) (lit "string");
         EvNativeToScVal (VNumber 7) (lit "u32");
         EvNativeToScVal (VString (lit "1000000")) (lit "i128");
         EvNativeToScVal (VString []) (lit "address");
         EvNativeToScVal (VNumber 10000000) (lit "i128");
         EvContractCall (lit "create_token");
         EvGetAccount [];
         EvBuildTransaction; EvSimulateTransaction; EvAssembleTransaction;
         EvHash],
        inr r))
  /\ ~ (exists (O : Objects) (env : Env O) (params : TokenDeployParams O)
               (sourceAddress : jsstring) (e : thrown),
          deployToken env params sourceAddress = ([], inl e)).
Proof.
  split.
  - eexists. vm_compute. reflexivity.
  - intros [O [env [params [sourceAddress [e H]]]]].
    destruct (deployToken_first_event env params sourceAddress) as [rest Hrest].
    rewrite H in Hrest. discriminate Hrest.
Qed.

Lemma deployToken_total_fee_witness :
  (exists tr r,
     deployToken accepting_env (sample_params (Some tt)) (lit "GSOURCE") = (tr, inr r)
     /\ totalFee r = lit "15000000")
  /\ (exists tr r,
        deployToken accepting_env (sample_params None) (lit "GSOURCE") = (tr, inr r)
        /\ totalFee r = lit "10000000").
Proof.
  split.
  - eexists. eexists. split.
    + vm_compute. reflexivity.
    + eapply (proj2 (proj2 (proj2 (proj2 (deployToken_total_fee accepting_env
                (sample_params (Some tt)) (lit "GSOURCE")))) _ _ _)).
      Unshelve. 2: { vm_compute. reflexivity. }
  - eexists. eexists. split.
    + vm_compute. reflexivity.
    + eapply (proj2 (proj2 (proj2 (proj2 (deployToken_total_fee accepting_env
                (sample_params None) (lit "GSOURCE")))) _ _ _)).
      Unshelve. 2: { vm_compute. reflexivity. }
Defined.

Lemma deployToken_token_address_empty_witness :
  exists tr r,
    deployToken accepting_env (sample_params None) (lit "GSOURCE") = (tr, inr r)
    /\ tokenAddress r = [].
Proof.
  eexists. eexists. split.
  - vm_compute. reflexivity.
  - eapply (deployToken_token_address_empty accepting_env
              (sample_params None) (lit "GSOURCE")).
    vm_compute. reflexivity.
Defined.

(* ===================================================================== *)
(** * Facts about the monitor *)
(* ===================================================================== *)

Import Monitor.

Lemma waits_app (a b : list event) : waits (a ++ b) = waits a ++ waits b.
Proof.
  induction a as [ | [n t | st | ms] a IH]; simpl; rewrite ?IH; reflexivity.
Qed.

Lemma delivered_app (a b : list event) :
  delivered (a ++ b) = delivered a ++ delivered b.
Proof.
  induction a as [ | [n t | st | ms] a IH]; simpl; rewrite ?IH; reflexivity.
Qed.

Lemma queries_app (a b : list event) :
  queries (a ++ b) = queries a ++ queries b.
Proof.
  induction a as [ | [n t | st | ms] a IH]; simpl; rewrite ?IH; reflexivity.
Qed.

Section MonitorFacts.

Variable policy : PollingPolicy.
Variable query : provider.
Variable onProgress : bool.
Variable id : jsstring.
Variable start : Q.

#[local] Abbreviation poll := (poll policy query onProgress id start).
#[local] Abbreviation monitor := (monitor policy query onProgress id start).
#[local] Abbreviation notify := (notify onProgress).
#[local] Abbreviation observe := (observe id).
#[local] Abbreviation deadline := (deadline policy start).
#[local] Abbreviation next_interval := (next_interval policy).
#[local] Abbreviation backoff := (backoff policy).

Lemma waits_notify (st : TransactionStatus) : waits (notify st) = [].
Proof. unfold Monitor.notify. destruct onProgress; reflexivity. Qed.

Lemma queries_notify (st : TransactionStatus) : queries (notify st) = [].
Proof. unfold Monitor.notify. destruct onProgress; reflexivity. Qed.

Lemma delivered_notify (st : TransactionStatus) :
  delivered (notify st) = if onProgress then [st] else [].
Proof. unfold Monitor.notify. destruct onProgress; reflexivity. Qed.

(** One unfolding of the loop. *)
Lemma poll_step (fuel n : nat) (now interval : Q) :
  poll (S fuel) n now interval =
  let now1 := now + fst (query id n now) in
  let current := observe (snd (query id n now)) now1 in
  if is_terminal (state current) then
    Some {| trace := Query n now :: notify current;
            result := Resolved current;
            finishedAt := now1 |}
  else if Qle_bool deadline now1 then
    Some {| trace := Query n now :: notify current;
            result := MonitoringTimeout id (now1 - start);
            finishedAt := now1 |}
  else
    option_map
      (prepend (Query n now :: notify current ++ [Wait interval]))
      (poll fuel (S n) (now1 + interval) (next_interval interval)).
Proof. simpl. destruct (query id n now) as [latency r]. reflexivity. Qed.

(** More fuel does not change a finished session. *)
Lemma poll_more_fuel (fuel : nat) :
  forall n now interval s,
    poll fuel n now interval = Some s ->
    poll (S fuel) n now interval = Some s.
Proof.
  induction fuel as [ | fuel IH]; intros n now interval s H.
  - discriminate.
  - rewrite poll_step in H. rewrite poll_step. cbv zeta in *.
    destruct (is_terminal _); [exact H | ].
    destruct (Qle_bool _ _); [exact H | ].
    destruct (Monitor.poll policy query onProgress id start fuel (S n) _ _)
      as [s' | ] eqn:E; [ | discriminate].
    rewrite (IH _ _ _ _ E). exact H.
Qed.

Lemma poll_fuel_le (fuel fuel' : nat) n now interval s :
  (fuel <= fuel')%nat ->
  poll fuel n now interval = Some s ->
  poll fuel' n now interval = Some s.
Proof.
  intros Hle H. induction Hle; [exact H | ].
  apply poll_more_fuel. assumption.
Qed.

Lemma monitor_fuel_le (fuel fuel' : nat) s :
  (fuel <= fuel')%nat -> monitor fuel = Some s -> monitor fuel' = Some s.
Proof.
  unfold Monitor.monitor. destruct (is_empty id); [auto | ].
  apply poll_fuel_le.
Qed.

(** Two finished runs of one session are the same run. *)
Lemma monitor_deterministic (fuel fuel' : nat) s s' :
  monitor fuel = Some s -> monitor fuel' = Some s' -> s = s'.
Proof.
  intros H H'.
  pose proof (monitor_fuel_le fuel (Nat.max fuel fuel') s (Nat.le_max_l _ _) H) as E.
  pose proof (monitor_fuel_le fuel' (Nat.max fuel fuel') s' (Nat.le_max_r _ _) H') as E'.
  congruence.
Qed.

Lemma monitor_valid_identifier (fuel : nat) :
  id <> [] -> monitor fuel = poll fuel 0 start (initialIntervalMs policy).
Proof.
  intros H. unfold Monitor.monitor. destruct id; [contradiction | reflexivity].
Qed.

(** The waits of a session are the backoff sequence, from the wait the
    loop was entered with. *)
Lemma poll_waits (fuel : nat) :
  forall n now m s,
    poll fuel n now (backoff m) = Some s ->
    forall k d, nth_error (waits (trace s)) k = Some d -> d = backoff (m + k).
Proof.
  induction fuel as [ | fuel IH]; intros n now m s H k d Hk.
  - discriminate.
  - rewrite poll_step in H. cbv zeta in H.
    destruct (is_terminal _).
    { injection H as <-. simpl in Hk. rewrite waits_notify in Hk.
      destruct k; discriminate. }
    destruct (Qle_bool _ _).
    { injection H as <-. simpl in Hk. rewrite waits_notify in Hk.
      destruct k; discriminate. }
    destruct (Monitor.poll policy query onProgress id start fuel (S n) _ _)
      as [s' | ] eqn:E; [ | discriminate].
    injection H as <-. cbn [prepend trace] in Hk.
    change (Query n now :: notify (observe (snd (query id n now))
                                     (now + fst (query id n now)))
              ++ [Wait (backoff m)])
      with ([Query n now] ++ notify (observe (snd (query id n now))
                                       (now + fst (query id n now)))
              ++ [Wait (backoff m)]) in Hk.
    rewrite !waits_app, waits_notify in Hk. simpl in Hk.
    destruct k as [ | k].
    + injection Hk as <-. rewrite Nat.add_0_r. reflexivity.
    + simpl in Hk. change (next_interval (backoff m)) with (backoff (S m)) in E.
      rewrite (IH _ _ _ _ E _ _ Hk). f_equal. lia.
Qed.

Lemma monitor_waits (fuel : nat) s :
  monitor fuel = Some s ->
  forall k d, nth_error (waits (trace s)) k = Some d -> d = backoff k.
Proof.
  unfold Monitor.monitor. destruct (is_empty id).
  - intros H k d Hk. injection H as <-. destruct k; discriminate.
  - intros H k d Hk.
    change (initialIntervalMs policy) with (backoff 0) in H.
    exact (poll_waits _ _ _ _ _ H _ _ Hk).
Qed.

(** C6. For a valid identifier, if the first query answers with state
    [success], the session resolves with exactly that status as soon as the
    answer is in: one query, no wait, and [onProgress], when provided, is
    invoked exactly once, with the final status. *)
Theorem success_on_first_query (latency : Q) (f : option Q) (ts : Q) (fuel : nat) :
  id <> [] ->
  query id 0%nat start = (latency, Answer success f ts) ->
  exists s,
    monitor (S fuel) = Some s
    /\ result s
       = Resolved {| identifier := id; state := success;
                     observedAt := ts; fee := f |}
    /\ queries (trace s) = [(0%nat, start)]
    /\ waits (trace s) = []
    /\ delivered (trace s)
       = (if onProgress
          then [{| identifier := id; state := success;
                   observedAt := ts; fee := f |}]
          else [])
    /\ finishedAt s = start + latency.
Proof.
  intros Hid Hq. rewrite (monitor_valid_identifier _ Hid), poll_step, Hq.
  cbn [fst snd Monitor.observe state is_terminal].
  eexists. split; [reflexivity | ]. cbn [trace result finishedAt].
  split; [reflexivity | ]. simpl.
  rewrite queries_notify, waits_notify, delivered_notify.
  repeat split.
Qed.

End MonitorFacts.

(** ** The backoff sequence of the default intervals *)

Lemma backoff_capped (timeout : Q) (k : nat) :
  backoff {| initialIntervalMs := 2000; maxIntervalMs := 10000;
             backoffMultiplier := 3 # 2; timeoutMs := timeout |} (4 + k)
  == 10000.
Proof.
  induction k as [ | k IH].
  - vm_compute. reflexivity.
  - replace (4 + S k)%nat with (S (4 + k)) by lia.
    cbn [backoff]. unfold next_interval.
    cbn [backoffMultiplier maxIntervalMs].
    apply Q.min_r. rewrite IH. vm_compute. discriminate.
Qed.

Lemma backoff_values (timeout : Q) (k : nat) :
  backoff {| initialIntervalMs := 2000; maxIntervalMs := 10000;
             backoffMultiplier := 3 # 2; timeoutMs := timeout |} k
  == nth k [2000; 3000; 4500; 6750] 10000.
Proof.
  destruct k as [ | [ | [ | [ | k]]]].
  1-4: vm_compute; reflexivity.
  change (S (S (S (S k)))) with (4 + k)%nat at 1.
  rewrite backoff_capped. cbn [nth]. destruct k; apply Qeq_refl.
Qed.

(** C3. With [initialIntervalMs] 2000, [maxIntervalMs] 10000 and
    [backoffMultiplier] 1.5, the waits of a session between its successive
    polls are, in order, 2000, 3000, 4500, 6750 and then 10000 for as long
    as it polls; every wait after the first is the minimum of 1.5 times the
    wait before it and 10000. *)
Theorem backoff_sequence_2000_10000
    (timeout : Q) (query : provider) (onProgress : bool) (id : jsstring)
    (start : Q) (fuel : nat) (s : session) :
  monitor {| initialIntervalMs := 2000; maxIntervalMs := 10000;
             backoffMultiplier := 3 # 2; timeoutMs := timeout |}
          query onProgress id start fuel = Some s ->
  forall k d,
    nth_error (waits (trace s)) k = Some d ->
    d == nth k [2000; 3000; 4500; 6750] 10000
    /\ match k with
       | O => d = 2000
       | S k' =>
           exists prev,
             nth_error (waits (trace s)) k' = Some prev
             /\ d = Qmin (prev * (3 # 2)) 10000
       end.
Proof.
  intros H k d Hk.
  pose proof (monitor_waits _ _ _ _ _ _ _ H) as Hw.
  split.
  - rewrite (Hw _ _ Hk). apply backoff_values.
  - destruct k as [ | k'].
    + rewrite (Hw _ _ Hk). reflexivity.
    + destruct (nth_error (waits (trace s)) k') as [prev | ] eqn:E.
      * exists prev. split; [reflexivity | ].
        rewrite (Hw _ _ Hk), (Hw _ _ E). reflexivity.
      * exfalso. apply nth_error_None in E.
        assert (Hlt : (S k' < List.length (waits (trace s)))%nat).
        { apply nth_error_Some. rewrite Hk. discriminate. }
        lia.
Qed.

Lemma backoff_sequence_2000_10000_witness :
  exists s d,
    monitor default_policy always_pending true (lit "deadbeef") 0 10 = Some s
    /\ List.length (waits (trace s)) = 9%nat
    /\ nth_error (waits (trace s)) 5 = Some d
    /\ d == 10000.
Proof.
  eexists. eexists. split; [vm_compute; reflexivity | ].
  split; [reflexivity | ].
  split; [vm_compute; reflexivity | ].
  refine (proj1 (backoff_sequence_2000_10000 60000 always_pending true
                   (lit "deadbeef") 0 10 _ _ 5%nat _ _)).
  - vm_compute. reflexivity.
  - vm_compute. reflexivity.
Defined.

(** ** Sessions that never see a terminal state *)

Lemma polls_needed_reaches_timeout (policy : PollingPolicy) :
  well_formed policy ->
  timeoutMs policy
  <= inject_Z (Z.of_nat (pred (polls_needed policy))) * initialIntervalMs policy.
Proof.
  intros [Hi [_ [_ Ht]]]. unfold polls_needed. cbn [pred].
  set (x := timeoutMs policy / initialIntervalMs policy).
  assert (Hx : timeoutMs policy == x * initialIntervalMs policy).
  { unfold x. field. intros H0. rewrite H0 in Hi. apply (Qlt_irrefl 0 Hi). }
  assert (Hc : x <= inject_Z (Z.of_nat (Z.to_nat (Qceiling x)))).
  { apply Qle_trans with (inject_Z (Qceiling x)); [apply Qle_ceiling | ].
    rewrite <- Zle_Qle. lia. }
  rewrite Hx at 1. apply Qmult_le_compat_r; [exact Hc | apply Qlt_le_weak, Hi].
Qed.

Section MonitorTimeout.

Variable policy : PollingPolicy.
Variable query : provider.
Variable onProgress : bool.
Variable id : jsstring.
Variable start : Q.

#[local] Abbreviation poll := (poll policy query onProgress id start).
#[local] Abbreviation monitor := (monitor policy query onProgress id start).
#[local] Abbreviation notify := (notify onProgress).
#[local] Abbreviation observe := (observe id).
#[local] Abbreviation deadline := (deadline policy start).
#[local] Abbreviation next_interval := (next_interval policy).

Hypothesis policy_ok : well_formed policy.

Lemma next_interval_bounds (interval : Q) :
  initialIntervalMs policy <= interval <= maxIntervalMs policy ->
  initialIntervalMs policy <= next_interval interval <= maxIntervalMs policy.
Proof.
  destruct policy_ok as [Hi [Him [Hm _]]]. intros [Hlo Hhi].
  unfold Monitor.next_interval. split.
  - apply Q.min_glb; [nra | exact Him].
  - apply Q.le_min_r.
Qed.

Lemma observe_never_terminal (n : nat) (now now1 : Q) :
  never_terminal query id ->
  state (observe (snd (query id n now)) now1) = pending.
Proof.
  intros H. specialize (H n now).
  destruct (snd (query id n now)) as [st f ts | ]; simpl; [exact H | reflexivity].
Qed.

(** With a provider that never reports a terminal state and answers in no
    negative time, the loop runs into the deadline: it ends with
    [MonitoringTimeout] once the elapsed time has reached the timeout, at
    most one wait and one query later. *)
Lemma poll_times_out :
  never_terminal query id ->
  (forall n t, 0 <= fst (query id n t)) ->
  forall fuel n now interval,
    initialIntervalMs policy <= interval <= maxIntervalMs policy ->
    now < deadline + maxIntervalMs policy ->
    deadline - now <= inject_Z (Z.of_nat fuel) * initialIntervalMs policy ->
    exists s e,
      poll (S fuel) n now interval = Some s
      /\ result s = MonitoringTimeout id e
      /\ finishedAt s == start + e
      /\ timeoutMs policy <= e
      /\ (forall L, (forall n t, fst (query id n t) <= L) ->
                    e <= timeoutMs policy + maxIntervalMs policy + L).
Proof.
  intros Hnt Hlat.
  destruct policy_ok as [Hi [Him [Hm Ht]]].
  induction fuel as [ | fuel IH]; intros n now interval Hint Hnow Hfuel;
    rewrite poll_step; cbv zeta;
    rewrite (observe_never_terminal _ _ _ Hnt); cbn [is_terminal];
    pose proof (Hlat n now) as Hl;
    destruct (Qle_bool deadline (now + fst (query id n now))) eqn:E.
  - apply Qle_bool_iff in E. unfold Monitor.deadline in *.
    eexists. eexists. split; [reflexivity | ]. cbn [result finishedAt].
    split; [reflexivity | ]. split; [ring | ]. split; [lra | ].
    intros L HL. specialize (HL n now). lra.
  - exfalso.
    assert (E' : deadline <= now + fst (query id n now)).
    { change (inject_Z (Z.of_nat 0)) with 0 in Hfuel. lra. }
    apply Qle_bool_iff in E'. congruence.
  - apply Qle_bool_iff in E. unfold Monitor.deadline in *.
    eexists. eexists. split; [reflexivity | ]. cbn [result finishedAt].
    split; [reflexivity | ]. split; [ring | ]. split; [lra | ].
    intros L HL. specialize (HL n now). lra.
  - assert (E' : now + fst (query id n now) < deadline).
    { apply Qnot_le_lt. intros H. apply Qle_bool_iff in H. congruence. }
    assert (Hsucc : inject_Z (Z.of_nat (S fuel)) == inject_Z (Z.of_nat fuel) + 1).
    { rewrite Nat2Z.inj_succ. unfold Z.succ. rewrite inject_Z_plus. reflexivity. }
    rewrite Hsucc in Hfuel.
    destruct (IH (S n) (now + fst (query id n now) + interval)
                 (next_interval interval))
      as [s [e [Hs [Hr [Hf [Hlo Hhi]]]]]].
    + apply next_interval_bounds. exact Hint.
    + lra.
    + nra.
    + rewrite Hs. cbn [option_map].
      eexists. exists e. split; [reflexivity | ].
      cbn [prepend result finishedAt]. auto.
Qed.

Lemma monitor_times_out :
  id <> [] ->
  never_terminal query id ->
  (forall n t, 0 <= fst (query id n t)) ->
  exists s e,
    (forall fuel, (polls_needed policy <= fuel)%nat -> monitor fuel = Some s)
    /\ result s = MonitoringTimeout id e
    /\ finishedAt s == start + e
    /\ timeoutMs policy <= e
    /\ (forall L, (forall n t, fst (query id n t) <= L) ->
                  e <= timeoutMs policy + maxIntervalMs policy + L).
Proof.
  intros Hid Hnt Hlat.
  pose proof (polls_needed_reaches_timeout policy policy_ok) as Hreach.
  destruct policy_ok as [Hi [Him [Hm Ht]]].
  destruct (poll_times_out Hnt Hlat (pred (polls_needed policy)) 0 start
              (initialIntervalMs policy))
    as [s [e [Hs Hrest]]].
  - split; [apply Qle_refl | exact Him].
  - unfold Monitor.deadline. lra.
  - unfold Monitor.deadline. lra.
  - exists s, e. split; [ | exact Hrest].
    intros fuel Hfuel. apply (monitor_fuel_le _ _ _ _ _ (polls_needed policy));
      [exact Hfuel | ].
    rewrite (monitor_valid_identifier _ _ _ _ _ _ Hid). exact Hs.
Qed.

End MonitorTimeout.

Section MonitorOrder.

Variable policy : PollingPolicy.
Variable query : provider.
Variable onProgress : bool.
Variable id : jsstring.
Variable start : Q.

#[local] Abbreviation poll := (poll policy query onProgress id start).
#[local] Abbreviation monitor := (monitor policy query onProgress id start).
#[local] Abbreviation notify := (notify onProgress).
#[local] Abbreviation observe := (observe id).
#[local] Abbreviation next_interval := (next_interval policy).

Lemma trace_prepend (n : nat) (now interval : Q) (c : TransactionStatus) (s : session) :
  trace (prepend (Query n now :: notify c ++ [Wait interval]) s)
  = [Query n now] ++ notify c ++ [Wait interval] ++ trace s.
Proof. cbn [prepend trace]. simpl. rewrite <- app_assoc. reflexivity. Qed.

(** Every query is followed by a wait, but the last. *)
Lemma poll_queries_waits (fuel : nat) :
  forall n now interval s,
    poll fuel n now interval = Some s ->
    List.length (queries (trace s)) = S (List.length (waits (trace s))).
Proof.
  induction fuel as [ | fuel IH]; intros n now interval s H.
  - discriminate.
  - rewrite poll_step in H. cbv zeta in H.
    destruct (is_terminal _).
    { injection H as <-. simpl.
      rewrite (queries_notify onProgress), (waits_notify onProgress).
      reflexivity. }
    destruct (Qle_bool _ _).
    { injection H as <-. simpl.
      rewrite (queries_notify onProgress), (waits_notify onProgress).
      reflexivity. }
    destruct (Monitor.poll policy query onProgress id start fuel (S n) _ _)
      as [s' | ] eqn:E; [ | discriminate].
    injection H as <-. rewrite trace_prepend.
    rewrite !queries_app, !waits_app.
    rewrite (queries_notify onProgress), (waits_notify onProgress).
    simpl. rewrite (IH _ _ _ _ E). reflexivity.
Qed.

(** Without a terminal answer, every status delivered is [pending]. *)
Lemma poll_delivered_pending (fuel : nat) :
  never_terminal query id ->
  forall n now interval s,
    poll fuel n now interval = Some s ->
    Forall (fun st => state st = pending) (delivered (trace s)).
Proof.
  intros Hnt.
  assert (Hone : forall c, state c = pending ->
                 Forall (fun st => state st = pending) (delivered (notify c))).
  { intros c Hc. rewrite (delivered_notify onProgress).
    destruct onProgress; repeat constructor. exact Hc. }
  induction fuel as [ | fuel IH]; intros n now interval s H.
  - discriminate.
  - rewrite poll_step in H. cbv zeta in H.
    pose proof (observe_never_terminal query id n now
                  (now + fst (query id n now)) Hnt) as Hc.
    destruct (is_terminal _).
    { injection H as <-. simpl. apply Hone. exact Hc. }
    destruct (Qle_bool _ _).
    { injection H as <-. simpl. apply Hone. exact Hc. }
    destruct (Monitor.poll policy query onProgress id start fuel (S n) _ _)
      as [s' | ] eqn:E; [ | discriminate].
    injection H as <-. rewrite trace_prepend, !delivered_app. simpl.
    apply Forall_app. split; [apply Hone; exact Hc | ].
    exact (IH _ _ _ _ E).
Qed.

(** A terminal status ends the session, so it is the last one delivered. *)
Lemma poll_terminal_last (fuel : nat) :
  forall n now interval s,
    poll fuel n now interval = Some s ->
    terminal_last (delivered (trace s)).
Proof.
  assert (Hone : forall c, terminal_last (delivered (notify c))).
  { intros c. rewrite (delivered_notify onProgress).
    destruct onProgress; simpl; auto. }
  induction fuel as [ | fuel IH]; intros n now interval s H.
  - discriminate.
  - rewrite poll_step in H. cbv zeta in H.
    destruct (is_terminal _) eqn:Et.
    { injection H as <-. simpl. apply Hone. }
    destruct (Qle_bool _ _).
    { injection H as <-. simpl. apply Hone. }
    destruct (Monitor.poll policy query onProgress id start fuel (S n) _ _)
      as [s' | ] eqn:E; [ | discriminate].
    injection H as <-. rewrite trace_prepend, !delivered_app.
    rewrite (delivered_notify onProgress). simpl.
    specialize (IH _ _ _ _ E).
    destruct onProgress; simpl; [ | exact IH].
    split; [ | exact IH]. intros Hterm. congruence.
Qed.

Lemma terminal_last_absorbing (ss : list TransactionStatus) :
  terminal_last ss -> terminal_absorbing ss.
Proof.
  unfold terminal_absorbing.
  induction ss as [ | s0 ss IH]; intros H i j a b Hij Ha Hb Hterm.
  - destruct i; discriminate.
  - destruct H as [Hhead Htail]. destruct i as [ | i].
    + simpl in Ha. injection Ha as <-.
      rewrite (Hhead Hterm) in Hb. destruct j as [ | j]; [lia | ].
      simpl in Hb. destruct j; discriminate.
    + destruct j as [ | j]; [lia | ]. simpl in Ha, Hb.
      apply (IH Htail i j a b); [lia | assumption ..].
Qed.

Hypothesis policy_ok : well_formed policy.
Hypothesis stamps : stamped_in_flight query id.

Lemma observe_in_flight (n : nat) (now : Q) :
  now <= observedAt (observe (snd (query id n now)) (now + fst (query id n now)))
  <= now + fst (query id n now).
Proof.
  destruct (stamps n now) as [Hl Hs].
  destruct (snd (query id n now)) as [st f ts | ]; simpl.
  - exact Hs.
  - lra.
Qed.

Lemma increasing_cons (t : Q) (rest : list Q) :
  Forall (fun t' => t < t') rest -> increasing rest -> increasing (t :: rest).
Proof.
  intros Hall Hinc. split; [ | exact Hinc].
  destruct rest as [ | t' rest]; [exact I | ].
  inversion Hall; assumption.
Qed.

(** With positive waits and answers stamped in flight, the statuses
    delivered carry strictly increasing timestamps. *)
Lemma poll_increasing (fuel : nat) :
  forall n now interval s,
    initialIntervalMs policy <= interval <= maxIntervalMs policy ->
    poll fuel n now interval = Some s ->
    Forall (fun t => now <= t) (map observedAt (delivered (trace s)))
    /\ increasing (map observedAt (delivered (trace s))).
Proof.
  assert (Hone : forall c lo,
            lo <= observedAt c ->
            Forall (fun t => lo <= t) (map observedAt (delivered (notify c)))
            /\ increasing (map observedAt (delivered (notify c)))).
  { intros c lo Hc. rewrite (delivered_notify onProgress).
    destruct onProgress; simpl; repeat constructor. exact Hc. }
  induction fuel as [ | fuel IH]; intros n now interval s Hint H.
  - discriminate.
  - rewrite poll_step in H. cbv zeta in H.
    pose proof (observe_in_flight n now) as [Hlo Hhi].
    destruct (is_terminal _).
    { injection H as <-. simpl. apply Hone. exact Hlo. }
    destruct (Qle_bool _ _).
    { injection H as <-. simpl. apply Hone. exact Hlo. }
    destruct (Monitor.poll policy query onProgress id start fuel (S n) _ _)
      as [s' | ] eqn:E; [ | discriminate].
    injection H as <-. rewrite trace_prepend, !delivered_app.
    rewrite (delivered_notify onProgress). simpl.
    destruct (IH _ _ _ _ (next_interval_bounds policy policy_ok _ Hint) E)
      as [Hall Hinc].
    destruct policy_ok as [Hi _].
    assert (Hlater : Forall (fun t => now + fst (query id n now) < t)
                       (map observedAt (delivered (trace s')))).
    { eapply Forall_impl; [ | exact Hall]. intros t Ht. simpl in Ht. lra. }
    assert (Hafter : Forall (fun t => now <= t)
                       (map observedAt (delivered (trace s')))).
    { eapply Forall_impl; [ | exact Hlater].
      intros t Ht. simpl in Ht. destruct (stamps n now) as [Hl _]. lra. }
    destruct onProgress; simpl; [ | split; assumption].
    split.
    + constructor; assumption.
    + apply increasing_cons; [ | exact Hinc].
      eapply Forall_impl; [ | exact Hlater]. intros t Ht. simpl in Ht. lra.
Qed.

End MonitorOrder.

(** ** Timeouts, transient errors and the order of deliveries *)

(** C4, as the loop has it. For a policy with a positive first wait not
    above the cap, a multiplier of at least 1 and a timeout that is not
    negative, and a provider that never reports a terminal state and answers
    every query within [L] milliseconds, the session fails with
    [MonitoringTimeout], and the time elapsed from invocation to that
    failure lies between [timeoutMs] and [timeoutMs + maxIntervalMs + L];
    with a provider that answers at once ([L] = 0) this is the closed
    interval from [timeoutMs] to [timeoutMs + maxIntervalMs]. *)
Theorem monitoring_timeout_window
    (policy : PollingPolicy) (query : provider) (onProgress : bool)
    (id : jsstring) (start L : Q) :
  well_formed policy ->
  id <> [] ->
  never_terminal query id ->
  latency_within query id L ->
  exists s e,
    (forall fuel, (polls_needed policy <= fuel)%nat ->
                  monitor policy query onProgress id start fuel = Some s)
    /\ result s = MonitoringTimeout id e
    /\ finishedAt s == start + e
    /\ timeoutMs policy <= e <= timeoutMs policy + maxIntervalMs policy + L.
Proof.
  intros Hwf Hid Hnt Hlat.
  destruct (monitor_times_out policy query onProgress id start Hwf Hid Hnt)
    as [s [e [Hrun [Hres [Hfin [Hlo Hhi]]]]]].
  - intros n t. apply (Hlat n t).
  - exists s, e. repeat split; try assumption.
    apply Hhi. intros n t. apply (Hlat n t).
Qed.

Lemma default_policy_well_formed : well_formed default_policy.
Proof. unfold well_formed, default_policy; simpl. repeat split; lra. Qed.

Lemma monitoring_timeout_window_witness :
  exists s e,
    monitor default_policy always_pending true (lit "deadbeef") 0 31 = Some s
    /\ result s = MonitoringTimeout (lit "deadbeef") e
    /\ 60000 <= e <= 60000 + 10000 + 0.
Proof.
  destruct (monitoring_timeout_window default_policy always_pending true
              (lit "deadbeef") 0 0)
    as [s [e [Hrun [Hres [_ Hwin]]]]].
  - unfold well_formed, default_policy; simpl. repeat split; lra.
  - discriminate.
  - intros n t. reflexivity.
  - intros n t. simpl. split; apply Qle_refl.
  - exists s, e. split; [ | split; assumption].
    apply Hrun. vm_compute. apply le_n.
Defined.

(** With a first wait of 5000 ms, a cap of 1000 ms and a timeout of
    100 ms, a session whose provider stays pending and answers at once
    fails with [MonitoringTimeout] 5000 ms after invocation, later than
    [timeoutMs + maxIntervalMs] = 1100 ms. *)
Lemma monitoring_timeout_window_counterexample :
  never_terminal always_pending (lit "deadbeef")
  /\ monitor long_first_wait always_pending true (lit "deadbeef") 0 2
     = Some {| trace :=
                 [Query 0 0;
                  Progress {| identifier := lit "deadbeef"; state := pending;
                              observedAt := 0; fee := None |};
                  Wait 5000;
                  Query 1 5000;
                  Progress {| identifier := lit "deadbeef"; state := pending;
                              observedAt := 5000; fee := None |}];
               result := MonitoringTimeout (lit "deadbeef") 5000;
               finishedAt := 5000 |}
  /\ ~ (5000 <= timeoutMs long_first_wait + maxIntervalMs long_first_wait).
Proof.
  split; [intros n t; reflexivity | ]. split.
  - vm_compute. reflexivity.
  - vm_compute. intros H. apply H. reflexivity.
Qed.

(** ** The schedule of a session that keeps polling *)

Section Retry.

Variable policy : PollingPolicy.
Variable query : provider.
Variable onProgress : bool.
Variable id : jsstring.
Variable start : Q.

#[local] Abbreviation poll := (poll policy query onProgress id start).
#[local] Abbreviation monitor := (monitor policy query onProgress id start).
#[local] Abbreviation deadline := (deadline policy start).
#[local] Abbreviation issuedAt := (issuedAt policy query id start).
#[local] Abbreviation answeredAt := (answeredAt policy query id start).
#[local] Abbreviation total_wait := (total_wait policy).
#[local] Abbreviation backoff := (backoff policy).

#[local] Abbreviation failed_status :=
  (fun k : nat =>
     {| identifier := id; state := pending; observedAt := answeredAt k;
        fee := None |}).

Lemma poll_retries :
  always_transient query id ->
  forall j m,
    (forall k, (m <= k < m + j)%nat -> answeredAt k < deadline) ->
    deadline <= answeredAt (m + j) ->
    exists s,
      poll (S j) m (issuedAt m) (backoff m) = Some s
      /\ result s = MonitoringTimeout id (answeredAt (m + j) - start)
      /\ finishedAt s = answeredAt (m + j)
      /\ queries (trace s) = map (fun k => (k, issuedAt k)) (seq m (S j))
      /\ waits (trace s) = map backoff (seq m j)
      /\ delivered (trace s)
         = if onProgress then map failed_status (seq m (S j)) else [].
Proof.
  intros Herr. induction j as [ | j IH]; intros m Hbefore Hend.
  - rewrite Nat.add_0_r in *. rewrite poll_step. cbv zeta.
    rewrite (Herr m (issuedAt m)). cbn [Monitor.observe state is_terminal].
    fold (answeredAt m).
    apply Qle_bool_iff in Hend. rewrite Hend.
    eexists. split; [reflexivity | ]. cbn [result finishedAt trace].
    split; [reflexivity | ]. split; [reflexivity | ].
    cbn [queries waits delivered seq map].
    rewrite (queries_notify onProgress), (waits_notify onProgress),
            (delivered_notify onProgress).
    repeat split; destruct onProgress; reflexivity.
  - rewrite poll_step. cbv zeta.
    rewrite (Herr m (issuedAt m)). cbn [Monitor.observe state is_terminal].
    fold (answeredAt m).
    assert (Hm : Qle_bool deadline (answeredAt m) = false).
    { destruct (Qle_bool deadline (answeredAt m)) eqn:E; [ | reflexivity].
      apply Qle_bool_iff in E. specialize (Hbefore m ltac:(lia)). lra. }
    rewrite Hm.
    destruct (IH (S m)) as [s [Hs [Hr [Hf [Hq [Hw Hd]]]]]].
    + intros k Hk. apply Hbefore. lia.
    + replace (S m + j)%nat with (m + S j)%nat by lia. exact Hend.
    + change (answeredAt m + backoff m) with (issuedAt (S m)).
      change (Monitor.next_interval policy (backoff m)) with (backoff (S m)).
      rewrite Hs. cbn [option_map].
      replace (S m + j)%nat with (m + S j)%nat in * by lia.
      eexists. split; [reflexivity | ].
      split; [exact Hr | ]. split; [exact Hf | ].
      rewrite (trace_prepend onProgress).
      rewrite !queries_app, !waits_app, !delivered_app.
      rewrite (queries_notify onProgress), (waits_notify onProgress),
              (delivered_notify onProgress).
      cbn [queries waits delivered app].
      rewrite Hq, Hw, Hd. cbn [seq map].
      repeat split; destruct onProgress; reflexivity.
Qed.

Lemma issuedAt_lower_bound :
  (forall n t, 0 <= fst (query id n t)) ->
  forall k, start + total_wait k <= issuedAt k /\ issuedAt k <= answeredAt k.
Proof.
  intros Hlat.
  assert (Hans : forall k, issuedAt k <= answeredAt k).
  { intros k. unfold Monitor.answeredAt. specialize (Hlat k (issuedAt k)). lra. }
  intros k. split; [ | apply Hans].
  induction k as [ | k IH]; cbn [Monitor.issuedAt Monitor.total_wait].
  - lra.
  - specialize (Hlat k (issuedAt k)). lra.
Qed.

(** The first query that returns at or after the deadline. *)
Lemma first_past_deadline (n0 : nat) :
  deadline <= answeredAt n0 ->
  exists n,
    (n <= n0)%nat
    /\ deadline <= answeredAt n
    /\ forall k, (k < n)%nat -> answeredAt k < deadline.
Proof.
  induction n0 as [ | n0 IH]; intros H.
  - exists 0%nat. split; [lia | ]. split; [exact H | ]. intros k Hk. lia.
  - destruct (Qlt_le_dec (answeredAt n0) deadline) as [Hlt | Hle].
    + assert (Hall : forall j, (j <= S n0)%nat ->
                (forall k, (k < j)%nat -> answeredAt k < deadline)
                \/ exists n, (n < j)%nat /\ deadline <= answeredAt n
                             /\ forall k, (k < n)%nat -> answeredAt k < deadline).
      { induction j as [ | j IHj]; intros Hj.
        - left. intros k Hk. lia.
        - destruct (IHj ltac:(lia)) as [Hnone | [n [Hn Hrest]]].
          + destruct (Qlt_le_dec (answeredAt j) deadline) as [Hj1 | Hj2].
            * left. intros k Hk.
              destruct (Nat.eq_dec k j) as [-> | Hne]; [exact Hj1 | ].
              apply Hnone. lia.
            * right. exists j. split; [lia | ]. split; assumption.
          + right. exists n. split; [lia | exact Hrest]. }
      destruct (Hall (S n0) (le_n _)) as [Hnone | [n [Hn [Hd Hb]]]].
      * exists (S n0). split; [lia | ]. split; [exact H | exact Hnone].
      * exists n. split; [lia | ]. split; assumption.
    + destruct (IH Hle) as [n [Hn Hrest]]. exists n. split; [lia | exact Hrest].
Qed.

(** A session that gets no further than a wait at every poll never ends. *)
Lemma poll_never_ends :
  always_transient query id ->
  (forall k, answeredAt k < deadline) ->
  forall fuel m, poll fuel m (issuedAt m) (backoff m) = None.
Proof.
  intros Herr Hbefore. induction fuel as [ | fuel IH]; intros m.
  - reflexivity.
  - rewrite poll_step. cbv zeta.
    rewrite (Herr m (issuedAt m)). cbn [Monitor.observe state is_terminal].
    fold (answeredAt m).
    assert (Hm : Qle_bool deadline (answeredAt m) = false).
    { destruct (Qle_bool deadline (answeredAt m)) eqn:E; [ | reflexivity].
      apply Qle_bool_iff in E. specialize (Hbefore m). lra. }
    rewrite Hm.
    change (answeredAt m + backoff m) with (issuedAt (S m)).
    change (Monitor.next_interval policy (backoff m)) with (backoff (S m)).
    rewrite IH. reflexivity.
Qed.

Lemma answeredAt_instant :
  (forall n t, fst (query id n t) == 0) ->
  forall k, answeredAt k == start + total_wait k.
Proof.
  intros Hlat.
  assert (Hi : forall k, issuedAt k == start + total_wait k).
  { induction k as [ | k IH]; cbn [Monitor.issuedAt Monitor.total_wait].
    - lra.
    - pose proof (Hlat k (issuedAt k)) as H0. lra. }
  intros k. unfold Monitor.answeredAt.
  pose proof (Hlat k (issuedAt k)) as H0. pose proof (Hi k) as H1. lra.
Qed.

(** What is delivered is what the provider replied, query by query. *)
Lemma poll_delivered_reported (fuel : nat) :
  forall n now interval s,
    poll fuel n now interval = Some s ->
    delivered (trace s)
    = if onProgress
      then map (fun q => reported query id (fst q) (snd q)) (queries (trace s))
      else [].
Proof.
  assert (Hobs : forall n now,
            Monitor.observe id (snd (query id n now)) (now + fst (query id n now))
            = reported query id n now).
  { intros n now. unfold Monitor.reported.
    destruct (snd (query id n now)); reflexivity. }
  induction fuel as [ | fuel IH]; intros n now interval s H.
  - discriminate.
  - rewrite poll_step in H. cbv zeta in H. rewrite Hobs in H.
    destruct (is_terminal _).
    { injection H as <-. cbn [trace queries delivered].
      rewrite (queries_notify onProgress), (delivered_notify onProgress).
      destruct onProgress; reflexivity. }
    destruct (Qle_bool _ _).
    { injection H as <-. cbn [trace queries delivered].
      rewrite (queries_notify onProgress), (delivered_notify onProgress).
      destruct onProgress; reflexivity. }
    destruct (Monitor.poll policy query onProgress id start fuel (S n) _ _)
      as [s' | ] eqn:E; [ | discriminate].
    injection H as <-. rewrite (trace_prepend onProgress).
    rewrite !queries_app, !delivered_app.
    rewrite (queries_notify onProgress), (delivered_notify onProgress).
    cbn [queries delivered app]. rewrite (IH _ _ _ _ E).
    destruct onProgress; reflexivity.
Qed.

(** With positive waits and answers stamped in flight, the timestamps
    delivered are strictly increasing. *)
Lemma poll_increasing_positive_waits (fuel : nat) :
  stamped_in_flight query id ->
  forall n now interval s,
    poll fuel n now interval = Some s ->
    Forall (fun ms => 0 < ms) (waits (trace s)) ->
    Forall (fun t => now <= t) (map observedAt (delivered (trace s)))
    /\ increasing (map observedAt (delivered (trace s))).
Proof.
  intros stamps.
  assert (Hone : forall c lo,
            lo <= observedAt c ->
            Forall (fun t => lo <= t)
              (map observedAt (delivered (Monitor.notify onProgress c)))
            /\ increasing (map observedAt (delivered (Monitor.notify onProgress c)))).
  { intros c lo Hc. rewrite (delivered_notify onProgress).
    destruct onProgress; simpl; repeat constructor. exact Hc. }
  induction fuel as [ | fuel IH]; intros n now interval s H Hpos.
  - discriminate.
  - rewrite poll_step in H. cbv zeta in H.
    pose proof (observe_in_flight query id stamps n now) as [Hlo Hhi].
    destruct (is_terminal _).
    { injection H as <-. simpl. apply Hone. exact Hlo. }
    destruct (Qle_bool _ _).
    { injection H as <-. simpl. apply Hone. exact Hlo. }
    destruct (Monitor.poll policy query onProgress id start fuel (S n) _ _)
      as [s' | ] eqn:E; [ | discriminate].
    injection H as <-. rewrite (trace_prepend onProgress) in *.
    rewrite !waits_app, (waits_notify onProgress) in Hpos.
    cbn [waits app] in Hpos. inversion Hpos as [ | ? ? Hint Hrest]; subst.
    rewrite !delivered_app.
    rewrite (delivered_notify onProgress). simpl.
    destruct (IH _ _ _ _ E Hrest) as [Hall Hinc].
    assert (Hlater : Forall (fun t => now + fst (query id n now) < t)
                       (map observedAt (delivered (trace s')))).
    { eapply Forall_impl; [ | exact Hall]. intros t Ht. simpl in Ht. lra. }
    assert (Hafter : Forall (fun t => now <= t)
                       (map observedAt (delivered (trace s')))).
    { eapply Forall_impl; [ | exact Hlater].
      intros t Ht. simpl in Ht. destruct (stamps n now) as [Hl _]. lra. }
    destruct onProgress; simpl; [ | split; assumption].
    split.
    + constructor; assumption.
    + apply increasing_cons; [ | exact Hinc].
      eapply Forall_impl; [ | exact Hlater]. intros t Ht. simpl in Ht. lra.
Qed.

Lemma backoff_positive :
  0 < initialIntervalMs policy -> 0 < maxIntervalMs policy ->
  0 < backoffMultiplier policy ->
  forall k, 0 < backoff k.
Proof.
  intros Hi Hm Hb. induction k as [ | k IH]; cbn [Monitor.backoff].
  - exact Hi.
  - unfold Monitor.next_interval.
    destruct (Q.min_spec (backoff k * backoffMultiplier policy) (maxIntervalMs policy))
      as [[_ ->] | [_ ->]]; [nra | exact Hm].
Qed.

Lemma monitor_waits_positive (fuel : nat) (s : session) :
  0 < initialIntervalMs policy -> 0 < maxIntervalMs policy ->
  0 < backoffMultiplier policy ->
  monitor fuel = Some s ->
  Forall (fun ms => 0 < ms) (waits (trace s)).
Proof.
  intros Hi Hm Hb H. apply Forall_forall. intros d Hin.
  apply In_nth_error in Hin. destruct Hin as [k Hk].
  rewrite (monitor_waits _ _ _ _ _ _ _ H _ _ Hk).
  apply backoff_positive; assumption.
Qed.

Lemma backoff_not_negative :
  0 <= initialIntervalMs policy -> 0 <= maxIntervalMs policy ->
  0 <= backoffMultiplier policy ->
  forall k, 0 <= backoff k.
Proof.
  intros Hi Hm Hb. induction k as [ | k IH]; cbn [Monitor.backoff].
  - exact Hi.
  - unfold Monitor.next_interval.
    destruct (Q.min_spec (backoff k * backoffMultiplier policy) (maxIntervalMs policy))
      as [[_ ->] | [_ ->]]; [nra | exact Hm].
Qed.

(** When every query takes at least [eps] and no wait is negative, the
    [k]-th query returns no earlier than [(k + 1) * eps] after invocation. *)
Lemma answeredAt_slow_provider (eps : Q) :
  (forall n t, eps <= fst (query id n t)) ->
  (forall k, 0 <= backoff k) ->
  forall k, start + inject_Z (Z.of_nat (S k)) * eps <= answeredAt k.
Proof.
  intros Hlat Hw.
  assert (Hissued : forall k, start + inject_Z (Z.of_nat k) * eps <= issuedAt k).
  { induction k as [ | k IH].
    - cbn [Monitor.issuedAt]. change (inject_Z (Z.of_nat 0)) with 0. lra.
    - cbn [Monitor.issuedAt].
      pose proof (Hlat k (issuedAt k)). pose proof (Hw k).
      rewrite Nat2Z.inj_succ. unfold Z.succ. rewrite inject_Z_plus.
      change (inject_Z 1) with 1. lra. }
  intros k. unfold Monitor.answeredAt.
  pose proof (Hissued k). pose proof (Hlat k (issuedAt k)).
  rewrite Nat2Z.inj_succ. unfold Z.succ. rewrite inject_Z_plus.
  change (inject_Z 1) with 1. lra.
Qed.

Lemma enough_steps (eps bound : Q) :
  0 < eps -> exists k, bound <= inject_Z (Z.of_nat (S k)) * eps.
Proof.
  intros He. exists (Z.to_nat (Qceiling (bound / eps))).
  set (x := bound / eps).
  assert (Hx : bound == x * eps).
  { unfold x. field. intros H0. rewrite H0 in He. apply (Qlt_irrefl 0 He). }
  assert (Hc : x <= inject_Z (Z.of_nat (S (Z.to_nat (Qceiling x))))).
  { apply Qle_trans with (inject_Z (Qceiling x)); [apply Qle_ceiling | ].
    rewrite <- Zle_Qle. lia. }
  rewrite Hx at 1. apply Qmult_le_compat_r; [exact Hc | apply Qlt_le_weak, He].
Qed.

End Retry.

Lemma backoff_no_wait (k : nat) : backoff no_wait k == 0.
Proof.
  induction k as [ | k IH]; cbn [Monitor.backoff].
  - reflexivity.
  - unfold Monitor.next_interval.
    assert (E : backoff no_wait k * backoffMultiplier no_wait == 0)
      by (rewrite IH; reflexivity).
    rewrite Q.min_l; [exact E | ].
    rewrite E. vm_compute. discriminate.
Qed.

Lemma total_wait_no_wait (n : nat) : total_wait no_wait n == 0.
Proof.
  induction n as [ | n IH]; cbn [total_wait].
  - reflexivity.
  - rewrite IH, backoff_no_wait. reflexivity.
Qed.




(** C7, as the loop has it. In every session, a status whose state is
    [success] or [failed] is the last one delivered to [onProgress], so no
    status of another state follows a terminal one. What is delivered is,
    query by query, what the provider replied: the state, fee and timestamp
    of an answer as they came, and [pending] at the instant the query
    returned for one that failed. The timestamps are strictly increasing
    when every wait made is positive, and so when the policy's first
    interval, cap and multiplier are positive, provided each answer is
    stamped while its query is in flight. *)
Theorem progress_order
    (policy : PollingPolicy) (query : provider) (onProgress : bool)
    (id : jsstring) (start : Q) (fuel : nat) (s : session) :
  monitor policy query onProgress id start fuel = Some s ->
  terminal_last (delivered (trace s))
  /\ terminal_absorbing (delivered (trace s))
  /\ delivered (trace s)
     = (if onProgress
        then map (fun q => reported query id (fst q) (snd q)) (queries (trace s))
        else [])
  /\ (Forall (fun ms => 0 < ms) (waits (trace s)) ->
      stamped_in_flight query id ->
      increasing (map observedAt (delivered (trace s))))
  /\ (0 < initialIntervalMs policy -> 0 < maxIntervalMs policy ->
      0 < backoffMultiplier policy ->
      stamped_in_flight query id ->
      increasing (map observedAt (delivered (trace s)))).
Proof.
  intros Hs.
  assert (Hpos : Forall (fun ms => 0 < ms) (waits (trace s)) ->
                 stamped_in_flight query id ->
                 increasing (map observedAt (delivered (trace s)))).
  { revert Hs. unfold monitor. destruct (is_empty id).
    - intros H _ _. injection H as <-. exact I.
    - intros H Hw Hst.
      exact (proj2 (poll_increasing_positive_waits _ _ _ _ _ _ Hst _ _ _ _ H Hw)). }
  assert (Hpolicy : 0 < initialIntervalMs policy -> 0 < maxIntervalMs policy ->
                    0 < backoffMultiplier policy ->
                    stamped_in_flight query id ->
                    increasing (map observedAt (delivered (trace s)))).
  { intros Hi Hm Hb Hst. apply Hpos; [ | exact Hst].
    exact (monitor_waits_positive _ _ _ _ _ _ _ Hi Hm Hb Hs). }
  revert Hs. unfold monitor. destruct (is_empty id).
  - intros H. injection H as <-. simpl.
    split; [exact I | ].
    split; [intros i j a b _ Ha; destruct i; discriminate | ].
    split; [destruct onProgress; reflexivity | ].
    split; intros; exact I.
  - intros H.
    pose proof (poll_terminal_last _ _ _ _ _ _ _ _ _ _ H) as Hlast.
    split; [exact Hlast | ]. split; [apply terminal_last_absorbing, Hlast | ].
    split; [exact (poll_delivered_reported _ _ _ _ _ _ _ _ _ _ H) | ].
    split; [exact Hpos | exact Hpolicy].
Qed.

Lemma progress_order_witness :
  exists s,
    monitor default_policy pending_twice_then_failed true (lit "deadbeef") 0 3
    = Some s
    /\ map state (delivered (trace s)) = [pending; pending; failed]
    /\ map fst (queries (trace s)) = [0%nat; 1%nat; 2%nat]
    /\ terminal_absorbing (delivered (trace s))
    /\ increasing (map observedAt (delivered (trace s))).
Proof.
  eexists. split; [vm_compute; reflexivity | ].
  split; [reflexivity | ]. split; [reflexivity | ].
  destruct (progress_order default_policy pending_twice_then_failed true
              (lit "deadbeef") 0 3 _ ltac:(vm_compute; reflexivity))
    as [_ [Habs [_ [_ Hinc]]]].
  split; [exact Habs | ]. apply Hinc.
  - reflexivity.
  - reflexivity.
  - reflexivity.
  - intros n t. destruct n as [ | [ | n]]; simpl; repeat split;
      try apply Qle_refl; lra.
Defined.

(** Two sessions whose deliveries are not in strictly increasing
    [observedAt] order: under the default policy, a provider that stamps
    every answer with the same instant; and, without any wait between polls,
    a provider that stamps each answer with the instant of its query. *)
Lemma progress_order_counterexample :
  (exists s,
     monitor default_policy frozen_stamp true (lit "deadbeef") 0 10 = Some s
     /\ firstn 2 (map observedAt (delivered (trace s))) = [100; 100]
     /\ ~ increasing (map observedAt (delivered (trace s))))
  /\ (exists s,
        monitor no_wait pending_then_success true (lit "deadbeef") 0 2 = Some s
        /\ map state (delivered (trace s)) = [pending; success]
        /\ map observedAt (delivered (trace s)) = [0; 0]
        /\ ~ increasing (map observedAt (delivered (trace s)))).
Proof.
  split.
  - eexists. split; [vm_compute; reflexivity | ].
    split; [reflexivity | ].
    intros [H _]. vm_compute in H. discriminate H.
  - eexists. split; [vm_compute; reflexivity | ].
    split; [reflexivity | ]. split; [reflexivity | ].
    intros [H _]. vm_compute in H. discriminate H.
Qed.

Lemma success_on_first_query_witness :
  exists s,
    monitor default_policy success_at_once true (lit "deadbeef") 0 1 = Some s
    /\ result s
       = Resolved {| identifier := lit "deadbeef"; state := success;
                     observedAt := 0; fee := Some 100 |}
    /\ queries (trace s) = [(0%nat, 0)]
    /\ delivered (trace s)
       = [{| identifier := lit "deadbeef"; state := success;
             observedAt := 0; fee := Some 100 |}].
Proof.
  destruct (success_on_first_query default_policy success_at_once true
              (lit "deadbeef") 0 0 (Some 100) 0 0)
    as [s [Hrun [Hres [Hq [_ [Hd _]]]]]].
  - discriminate.
  - reflexivity.
  - exists s. repeat split; assumption.
Defined.

Lemma deployToken_delegates_unvalidated_witness :
  exists tr e0,
    deployToken (account_error_env (NonError (VNumber 404))) no_admin_params []
    = (tr, inl (ErrorObj (lit "An unknown error occurred")))
    /\ tr <> []
    /\ deployToken_try (account_error_env (NonError (VNumber 404)))
         no_admin_params []
       = (tr, inl e0).
Proof.
  eexists.
  destruct (proj2 (deployToken_delegates_unvalidated
                     (account_error_env (NonError (VNumber 404)))
                     no_admin_params [])
              _ (ErrorObj (lit "An unknown error occurred"))
              ltac:(vm_compute; reflexivity))
    as [Hne [e0 [Htry _]]].
  exists e0. split; [vm_compute; reflexivity | ]. split; assumption.
Defined.

(* ===================================================================== *)
(** * More about the service: substrings, operation order, data flow *)
(* ===================================================================== *)

Import Operations.

Lemma startsWith_iff (s p : jsstring) :
  startsWith s p = true <-> exists b, s = p ++ b.
Proof.
  revert s. induction p as [ | a p IH]; intros s.
  - destruct s; simpl; split; eauto.
  - destruct s as [ | c s]; simpl.
    + split; [discriminate | intros [b H]; discriminate].
    + rewrite andb_true_iff, N.eqb_eq, IH. split.
      * intros [-> [b ->]]. exists b. reflexivity.
      * intros [b H]. injection H as -> ->. split; [reflexivity | eauto].
Qed.

Lemma includes_nil (p : jsstring) : includes [] p = startsWith [] p.
Proof. simpl. apply orb_false_r. Qed.

Lemma includes_cons (c : N) (s p : jsstring) :
  includes (c :: s) p = startsWith (c :: s) p || includes s p.
Proof. reflexivity. Qed.

Lemma includes_iff (s p : jsstring) :
  includes s p = true <-> exists a b, s = a ++ p ++ b.
Proof.
  induction s as [ | c s IH].
  - rewrite includes_nil, startsWith_iff. split.
    + intros [b H]. exists [], b. exact H.
    + intros [a [b H]]. destruct a as [ | x a]; [ | discriminate].
      exists b. exact H.
  - rewrite includes_cons, orb_true_iff, IH, startsWith_iff. split.
    + intros [[b H] | [a [b H]]].
      * exists [], b. exact H.
      * exists (c :: a), b. rewrite H. reflexivity.
    + intros [a [b H]]. destruct a as [ | x a].
      * left. exists b. exact H.
      * right. injection H as _ H. exists a, b. exact H.
Qed.

Lemma includes_trans (s p q : jsstring) :
  includes s p = true -> includes p q = true -> includes s q = true.
Proof.
  rewrite !includes_iff. intros [a [b ->]] [a' [b' ->]].
  exists (a ++ a'), (b' ++ b). rewrite <- !app_assoc. reflexivity.
Qed.

Lemma includes_false_trans (s p q : jsstring) :
  includes p q = true -> includes s q = false -> includes s p = false.
Proof.
  intros Hpq Hsq. destruct (includes s p) eqn:E; [ | reflexivity].
  rewrite (includes_trans _ _ _ E Hpq) in Hsq. discriminate.
Qed.

(** The words the [catch] block of [mintTokens] looks for occur in
    'Simulation failed: ' followed by an error text only if they occur in
    the error text. *)
Lemma simulation_failed_prefix_neutral (error : jsstring) :
  includes (lit "Simulation failed: " ++ error) (lit "unauthorized")
  = includes error (lit "unauthorized")
  /\ includes (lit "Simulation failed: " ++ error) (lit "Unauthorized")
     = includes error (lit "Unauthorized")
  /\ includes (lit "Simulation failed: " ++ error) (lit "Invalid amount")
     = includes error (lit "Invalid amount").
Proof. split; [reflexivity | split; reflexivity]. Qed.

Local Open Scope svc_scope.

Lemma try_catch_returns {A} (body : M A) (handler : thrown -> M A) tr a :
  (forall e, exists tr' e', handler e = (tr', inl e')) ->
  try_catch body handler = (tr, inr a) -> body = (tr, inr a).
Proof.
  intros Hh H. unfold try_catch in H.
  destruct body as [tr0 [e | a0]]; cbn [fst snd] in H.
  - destruct (Hh e) as [tr' [e' He]]. rewrite He in H. discriminate.
  - exact H.
Qed.

Lemma bind_sdk_call_returns {A B} (ev : sdk_event) (r : thrown + A)
    (f : A -> M B) tr b :
  bind (sdk_call ev r) f = (tr, inr b) ->
  exists a tr', r = inr a /\ f a = (tr', inr b) /\ tr = ev :: tr'.
Proof.
  destruct r as [e | a]; intros H.
  - discriminate H.
  - rewrite (bind_sdk_call_inr ev _ _ f eq_refl) in H.
    exists a, (fst (f a)). split; [reflexivity | ].
    injection H as Htr Hb. split; [ | congruence].
    destruct (f a); cbn [fst snd] in *. congruence.
Qed.

Lemma bind_ret_returns {B} (m : M unit) (f : unit -> M B) tr b :
  bind m f = (tr, inr b) ->
  exists tr1 tr2, m = (tr1, inr tt) /\ f tt = (tr2, inr b) /\ tr = tr1 ++ tr2.
Proof.
  unfold bind. destruct m as [tr1 [e | []]]; cbn [fst snd]; intros H.
  - discriminate H.
  - exists tr1, (fst (f tt)). split; [reflexivity | ].
    destruct (f tt) as [tr2 res]; cbn [fst snd] in *.
    injection H as Htr Hb. subst. split; reflexivity.
Qed.

Ltac sdk_invert H a :=
  let tr' := fresh "tr" in
  let E := fresh "E" a in
  let Htr := fresh "Htr" in
  apply bind_sdk_call_returns in H;
  destruct H as [a [tr' [E [H Htr]]]]; subst.

Ltac reach_step :=
  match goal with
  | |- context [bind (sdk_call ?ev ?r) ?f] =>
      destruct r as [? | ?];
      [ repeat split; try reflexivity; try lia; intros ? Hr; discriminate Hr
      | rewrite (bind_sdk_call_inr ev _ _ f eq_refl); cbn [fst snd] ]
  end.

Section MoreServiceFacts.

Context {O : Objects} (env : Env O).

Lemma deployToken_try_reach (params : TokenDeployParams O) (sourceAddress : jsstring) :
  fst (deployToken_try env params sourceAddress)
  = firstn (deployToken_reach env params sourceAddress)
      (deployToken_operations env params sourceAddress)
  /\ (1 <= deployToken_reach env params sourceAddress <= 13)%nat
  /\ (forall r, snd (deployToken_try env params sourceAddress) = inr r ->
                deployToken_reach env params sourceAddress = 13%nat).
Proof.
  unfold deployToken_try, deployToken_reach, deployToken_operations.
  do 11 reach_step.
  match goal with
  | |- context [match ?sim with SimulationError _ => _ | SimulationOk _ => _ end] =>
      destruct sim as [error | response]
  end.
  { repeat split; try reflexivity; try lia; intros ? Hr; discriminate Hr. }
  unfold bind at 1. cbn [fst snd ret app].
  reach_step.
  destruct (hashHex env _) as [e | h];
    repeat split; try reflexivity; lia.
Qed.

Lemma deployToken_returns (params : TokenDeployParams O) (sourceAddress : jsstring) tr r :
  deployToken env params sourceAddress = (tr, inr r) ->
  deployToken_try env params sourceAddress = (tr, inr r).
Proof.
  apply try_catch_returns. intros e. eexists. eexists. reflexivity.
Qed.

Lemma deployToken_reach_returns (params : TokenDeployParams O) (sourceAddress : jsstring) r :
  snd (deployToken env params sourceAddress) = inr r ->
  snd (deployToken_try env params sourceAddress) = inr r.
Proof.
  intros Hr.
  destruct (deployToken env params sourceAddress) as [tr res] eqn:E.
  cbn [snd] in Hr. subst res.
  rewrite (deployToken_returns _ _ _ _ E). reflexivity.
Qed.

(** X1. Whatever the SDK does, [deployToken] invokes its SDK operations in
    one fixed order, each at most once, and each only when every operation
    before it has returned: the operations of a call are the thirteen up to
    and including the first that throws, the first eleven when the
    simulation reports an error, and nothing is invoked after either. A
    call invokes at least the first, and one that returns has invoked all
    thirteen. *)
Theorem deployToken_operations_in_order
    (params : TokenDeployParams O) (sourceAddress : jsstring) :
  fst (deployToken env params sourceAddress)
  = firstn (deployToken_reach env params sourceAddress)
      (deployToken_operations env params sourceAddress)
  /\ (1 <= deployToken_reach env params sourceAddress <= 13)%nat
  /\ (forall r, snd (deployToken env params sourceAddress) = inr r ->
                fst (deployToken env params sourceAddress)
                = deployToken_operations env params sourceAddress).
Proof.
  destruct (deployToken_try_reach params sourceAddress) as [Htr [Hk Hret]].
  assert (E : fst (deployToken env params sourceAddress)
              = firstn (deployToken_reach env params sourceAddress)
                  (deployToken_operations env params sourceAddress)).
  { unfold deployToken. rewrite try_catch_throw_events. exact Htr. }
  split; [exact E | ]. split; [exact Hk | ].
  intros r Hr. rewrite E.
  rewrite (Hret r (deployToken_reach_returns _ _ _ Hr)). reflexivity.
Qed.

(** X2. [deployToken] returns only when every SDK operation returned and the
    simulation reported no error; the hash in its result is the hash of
    the transaction assembled from that simulation, built for the account
    of [sourceAddress] around the one [create_token] invocation, and its
    timestamp is the clock reading. *)
Theorem deployToken_returns_assembled_hash
    (params : TokenDeployParams O) (sourceAddress : jsstring) tr r :
  deployToken env params sourceAddress = (tr, inr r) ->
  exists c a1 a2 a3 a4 a5 a6 op acc tx response prepared,
    newContract env (factoryContractId env) = inr c
    /\ nativeToScVal env (VString (name params)) (lit "string") = inr a1
    /\ nativeToScVal env (VString (symbol params)) (lit "string") = inr a2
    /\ nativeToScVal env (decimals params) (lit "u32") = inr a3
    /\ nativeToScVal env (initialSupply params) (lit "i128") = inr a4
    /\ nativeToScVal env (VString (adminWallet params)) (lit "address") = inr a5
    /\ nativeToScVal env (VNumber (calculateTotalFee params)) (lit "i128")
       = inr a6
    /\ contractCall env c (lit "create_token") [a1; a2; a3; a4; a5; a6] = inr op
    /\ getAccount env sourceAddress = inr acc
    /\ buildTransaction env acc (BASE_FEE env) (networkPassphrase env) op 30
       = inr tx
    /\ simulateTransaction env tx = inr (SimulationOk response)
    /\ assembleTransaction env tx (SimulationOk response) = inr prepared
    /\ hashHex env prepared = inr (transactionHash r)
    /\ timestamp r = Date_now env
    /\ tr = deployToken_operations env params sourceAddress.
Proof.
  intros H. apply deployToken_returns in H. unfold deployToken_try in H.
  sdk_invert H c. sdk_invert H a1. sdk_invert H a2. sdk_invert H a3.
  sdk_invert H a4. sdk_invert H a5. sdk_invert H a6. sdk_invert H op.
  sdk_invert H acc. sdk_invert H tx. sdk_invert H sim.
  apply bind_ret_returns in H. destruct H as [tr1 [tr2 [Hsim [H Htr]]]].
  destruct sim as [error | response]; [discriminate Hsim | ].
  injection Hsim as <-. subst.
  sdk_invert H prepared. sdk_invert H h.
  injection H as <- <-.
  exists c, a1, a2, a3, a4, a5, a6, op, acc, tx, response, prepared.
  repeat (split; [assumption | ]). split; [reflexivity | reflexivity].
Qed.

(** X3. When the simulation of the deployment reports an error,
    [deployToken] rejects with 'Simulation failed: ' followed by that error,
    and neither assembles a transaction nor computes a hash. *)
Theorem deployToken_simulation_failure
    (params : TokenDeployParams O) (sourceAddress : jsstring)
    c a1 a2 a3 a4 a5 a6 op acc tx error :
  newContract env (factoryContractId env) = inr c ->
  nativeToScVal env (VString (name params)) (lit "string") = inr a1 ->
  nativeToScVal env (VString (symbol params)) (lit "string") = inr a2 ->
  nativeToScVal env (decimals params) (lit "u32") = inr a3 ->
  nativeToScVal env (initialSupply params) (lit "i128") = inr a4 ->
  nativeToScVal env (VString (adminWallet params)) (lit "address") = inr a5 ->
  nativeToScVal env (VNumber (calculateTotalFee params)) (lit "i128") = inr a6 ->
  contractCall env c (lit "create_token") [a1; a2; a3; a4; a5; a6] = inr op ->
  getAccount env sourceAddress = inr acc ->
  buildTransaction env acc (BASE_FEE env) (networkPassphrase env) op 30
    = inr tx ->
  simulateTransaction env tx = inr (SimulationError error) ->
  deployToken env params sourceAddress
  = (firstn 11 (deployToken_operations env params sourceAddress),
     inl (ErrorObj (lit "Simulation failed: " ++ error))).
Proof.
  intros Hc H1 H2 H3 H4 H5 H6 Hop Hacc Htx Hsim.
  unfold deployToken, deployToken_try.
  rewrite (bind_sdk_call_inr _ _ _ _ Hc).
  rewrite (bind_sdk_call_inr _ _ _ _ H1).
  rewrite (bind_sdk_call_inr _ _ _ _ H2).
  rewrite (bind_sdk_call_inr _ _ _ _ H3).
  rewrite (bind_sdk_call_inr _ _ _ _ H4).
  rewrite (bind_sdk_call_inr _ _ _ _ H5).
  rewrite (bind_sdk_call_inr _ _ _ _ H6).
  rewrite (bind_sdk_call_inr _ _ _ _ Hop).
  rewrite (bind_sdk_call_inr _ _ _ _ Hacc).
  rewrite (bind_sdk_call_inr _ _ _ _ Htx).
  rewrite (bind_sdk_call_inr _ _ _ _ Hsim).
  reflexivity.
Qed.

(** X4. [deployToken] rejects with Error objects only: an Error thrown inside
    its [try] block comes out with its message unchanged, and any other
    thrown value comes out as the Error 'An unknown error occurred'. *)
Theorem deployToken_rejects_with_errors
    (params : TokenDeployParams O) (sourceAddress : jsstring) tr e :
  deployToken env params sourceAddress = (tr, inl e) ->
  exists m,
    e = ErrorObj m
    /\ (deployToken_try env params sourceAddress = (tr, inl (ErrorObj m))
        \/ (m = lit "An unknown error occurred"
            /\ exists v,
                 deployToken_try env params sourceAddress
                 = (tr, inl (NonError v)))).
Proof.
  intros H. destruct (deployToken_failure env _ _ _ _ H) as [e0 [Htry ->]].
  destruct e0 as [m | v]; simpl.
  - exists m. split; [reflexivity | left; exact Htry].
  - eexists. split; [reflexivity | ]. right. split; [reflexivity | ].
    exists v. exact Htry.
Qed.

(** ** [mintTokens] *)

Lemma mintTokens_events (tokenAddress recipient amount adminAddress : jsstring) :
  fst (mintTokens env tokenAddress recipient amount adminAddress)
  = fst (mintTokens_try env tokenAddress recipient amount adminAddress).
Proof.
  unfold mintTokens, try_catch.
  destruct (snd (mintTokens_try env tokenAddress recipient amount adminAddress))
    as [e | h]; [ | reflexivity].
  destruct (mintTokens_catch_cases e) as [surfaced [Hc _]].
  rewrite Hc. cbn [fst]. apply app_nil_r.
Qed.

Lemma mintTokens_returns (tokenAddress recipient amount adminAddress : jsstring) tr h :
  mintTokens env tokenAddress recipient amount adminAddress = (tr, inr h) ->
  mintTokens_try env tokenAddress recipient amount adminAddress = (tr, inr h).
Proof.
  apply try_catch_returns. intros e.
  destruct (mintTokens_catch_cases e) as [surfaced [Hc _]].
  rewrite Hc. eauto.
Qed.

(** X5. The guards of [mintTokens] are tried in the order token address,
    recipient, admin address, amount, and the first one that fails decides
    the message: a blank token address gives 'Minting failed: Token address
    is required' whatever the other inputs; with a token address, a blank
    recipient gives 'Minting failed: Recipient address is required'; with
    both, a blank admin address gives 'Minting failed: Admin address is
    required'. *)
Theorem mintTokens_first_failing_guard
    (tokenAddress recipient amount adminAddress : jsstring) :
  (whitespace_only tokenAddress ->
   mintTokens env tokenAddress recipient amount adminAddress
   = ([], inl (ErrorObj (lit "Minting failed: Token address is required"))))
  /\ (~ whitespace_only tokenAddress -> whitespace_only recipient ->
      mintTokens env tokenAddress recipient amount adminAddress
      = ([], inl (ErrorObj
                    (lit "Minting failed: Recipient address is required"))))
  /\ (~ whitespace_only tokenAddress -> ~ whitespace_only recipient ->
      whitespace_only adminAddress ->
      mintTokens env tokenAddress recipient amount adminAddress
      = ([], inl (ErrorObj (lit "Minting failed: Admin address is required")))).
Proof.
  pose proof (mintTokens_validate_cascade env tokenAddress recipient amount
                adminAddress) as Hv.
  pose proof (blank_test_iff tokenAddress) as Ht.
  pose proof (blank_test_iff recipient) as Hr.
  pose proof (blank_test_iff adminAddress) as Ha.
  destruct (negb (truthy tokenAddress) || is_empty (trim tokenAddress)).
  { destruct (mintTokens_guard_fails env _ _ _ _ _ Hv) as [_ E].
    split; [intros _; rewrite E; reflexivity | ].
    split; intros H; exfalso; apply H, Ht; reflexivity. }
  split; [intros H; apply Ht in H; discriminate H | ].
  destruct (negb (truthy recipient) || is_empty (trim recipient)).
  { destruct (mintTokens_guard_fails env _ _ _ _ _ Hv) as [_ E].
    split; [intros _ _; rewrite E; reflexivity | ].
    intros _ H; exfalso; apply H, Hr; reflexivity. }
  split; [intros _ H; apply Hr in H; discriminate H | ].
  destruct (negb (truthy adminAddress) || is_empty (trim adminAddress)).
  { destruct (mintTokens_guard_fails env _ _ _ _ _ Hv) as [_ E].
    intros _ _ _; rewrite E; reflexivity. }
  intros _ _ H; apply Ha in H; discriminate H.
Qed.

Lemma mintTokens_validate_returns
    (tokenAddress recipient amount adminAddress : jsstring) tr :
  mintTokens_validate env tokenAddress recipient amount adminAddress
  = (tr, inr tt) ->
  tr = []
  /\ ~ whitespace_only tokenAddress /\ ~ whitespace_only recipient
  /\ ~ whitespace_only adminAddress
  /\ amount <> [] /\ positive (Number env amount).
Proof.
  rewrite mintTokens_validate_cascade. intros H.
  destruct (negb (truthy tokenAddress) || is_empty (trim tokenAddress)) eqn:E1;
    [discriminate H | ].
  destruct (negb (truthy recipient) || is_empty (trim recipient)) eqn:E2;
    [discriminate H | ].
  destruct (negb (truthy adminAddress) || is_empty (trim adminAddress)) eqn:E3;
    [discriminate H | ].
  destruct (negb (truthy amount) || isNaN (Number env amount)
            || le_zero (Number env amount)) eqn:E4; [discriminate H | ].
  injection H as <-. split; [reflexivity | ].
  split; [intros B; apply blank_test_iff in B; congruence | ].
  split; [intros B; apply blank_test_iff in B; congruence | ].
  split; [intros B; apply blank_test_iff in B; congruence | ].
  split.
  - intros ->. discriminate E4.
  - apply positive_iff. apply orb_false_iff in E4. destruct E4 as [E4 E5].
    apply orb_false_iff in E4. destruct E4 as [_ E4]. split; assumption.
Qed.

Lemma mintTokens_delegate_reach
    (tokenAddress recipient amount adminAddress : jsstring) :
  fst (mintTokens_delegate env tokenAddress recipient amount adminAddress)
  = firstn (mintTokens_reach env tokenAddress recipient amount adminAddress)
      (mintTokens_operations tokenAddress recipient amount adminAddress)
  /\ (1 <= mintTokens_reach env tokenAddress recipient amount adminAddress
         <= 10)%nat
  /\ (forall h,
        snd (mintTokens_delegate env tokenAddress recipient amount adminAddress)
        = inr h ->
        mintTokens_reach env tokenAddress recipient amount adminAddress
        = 10%nat).
Proof.
  unfold mintTokens_delegate, mintTokens_reach, mintTokens_operations.
  do 8 reach_step.
  match goal with
  | |- context [match ?sim with SimulationError _ => _ | SimulationOk _ => _ end] =>
      destruct sim as [error | response]
  end.
  { destruct (includes error (lit "unauthorized") || includes error (lit "auth"));
      repeat split; try reflexivity; try lia; intros ? Hr; discriminate Hr. }
  unfold bind at 1. cbn [fst snd ret app].
  destruct (assembleTransaction env _ _) as [e | prepared].
  { repeat split; try reflexivity; try lia; intros ? Hr; discriminate Hr. }
  rewrite (bind_sdk_call_inr _ _ _ _ eq_refl). cbn [fst snd].
  destruct (hashHex env prepared) as [e | h];
    repeat split; try reflexivity; lia.
Qed.

(** A call to [mintTokens] with an input that fails a guard invokes no SDK
    operation. *)
Lemma mintTokens_invalid_no_operation
    (tokenAddress recipient amount adminAddress : jsstring) :
  whitespace_only tokenAddress \/ whitespace_only recipient
  \/ whitespace_only adminAddress
  \/ amount = [] \/ Number env amount = NaN \/ ~ positive (Number env amount) ->
  fst (mintTokens_try env tokenAddress recipient amount adminAddress) = [].
Proof.
  intros Hbad.
  pose proof (mintTokens_validate_cascade env tokenAddress recipient amount
                adminAddress) as Hv.
  pose proof (blank_test_iff tokenAddress) as Ht.
  pose proof (blank_test_iff recipient) as Hr.
  pose proof (blank_test_iff adminAddress) as Ha.
  pose proof (amount_test_iff amount (Number env amount)) as Hn.
  destruct (negb (truthy tokenAddress) || is_empty (trim tokenAddress)).
  { destruct (mintTokens_guard_fails env _ _ _ _ _ Hv) as [E _].
    rewrite E. reflexivity. }
  destruct (negb (truthy recipient) || is_empty (trim recipient)).
  { destruct (mintTokens_guard_fails env _ _ _ _ _ Hv) as [E _].
    rewrite E. reflexivity. }
  destruct (negb (truthy adminAddress) || is_empty (trim adminAddress)).
  { destruct (mintTokens_guard_fails env _ _ _ _ _ Hv) as [E _].
    rewrite E. reflexivity. }
  destruct (negb (truthy amount) || isNaN (Number env amount)
            || le_zero (Number env amount)).
  { destruct (mintTokens_guard_fails env _ _ _ _ _ Hv) as [E _].
    rewrite E. reflexivity. }
  exfalso. destruct Hbad as [H | [H | [H | H]]].
  - apply Ht in H. discriminate.
  - apply Hr in H. discriminate.
  - apply Ha in H. discriminate.
  - apply Hn in H. discriminate.
Qed.

(** X6. Whatever the SDK does: a call to [mintTokens] with an input that
    fails a guard invokes no SDK operation; a call with four valid inputs
    invokes its SDK operations in one fixed order, each at most once, and
    each only when every operation before it has returned: the operations
    of the call are the ten up to and including the first that throws, the
    first eight when the simulation reports an error, and nothing is
    invoked after either. A call that returns has invoked all ten. *)
Theorem mintTokens_operations_in_order
    (tokenAddress recipient amount adminAddress : jsstring) :
  (whitespace_only tokenAddress \/ whitespace_only recipient
   \/ whitespace_only adminAddress
   \/ amount = [] \/ Number env amount = NaN \/ ~ positive (Number env amount) ->
   fst (mintTokens env tokenAddress recipient amount adminAddress) = [])
  /\ (~ whitespace_only tokenAddress -> ~ whitespace_only recipient ->
      ~ whitespace_only adminAddress ->
      amount <> [] -> positive (Number env amount) ->
      fst (mintTokens env tokenAddress recipient amount adminAddress)
      = firstn (mintTokens_reach env tokenAddress recipient amount adminAddress)
          (mintTokens_operations tokenAddress recipient amount adminAddress))
  /\ (1 <= mintTokens_reach env tokenAddress recipient amount adminAddress
         <= 10)%nat
  /\ (forall h,
        snd (mintTokens env tokenAddress recipient amount adminAddress) = inr h ->
        fst (mintTokens env tokenAddress recipient amount adminAddress)
        = mintTokens_operations tokenAddress recipient amount adminAddress).
Proof.
  destruct (mintTokens_delegate_reach tokenAddress recipient amount adminAddress)
    as [Htr [Hk Hfull]].
  rewrite mintTokens_events.
  split; [apply mintTokens_invalid_no_operation | ].
  split.
  { intros Ht Hr Ha Hne Hpos.
    rewrite (mintTokens_guard_passes env _ _ _ _
               (mintTokens_validate_valid env _ _ _ _ Ht Hr Ha Hne Hpos)).
    exact Htr. }
  split; [exact Hk | ].
  intros h Hh.
  destruct (mintTokens env tokenAddress recipient amount adminAddress)
    as [tr res] eqn:E.
  cbn [snd] in Hh. subst res.
  pose proof (mintTokens_returns _ _ _ _ _ _ E) as Et.
  destruct (bind_ret_returns _ _ _ _ Et) as [tr1 [tr2 [Ev [Ed Happ]]]].
  destruct (mintTokens_validate_returns _ _ _ _ _ Ev) as [-> _].
  rewrite Et. cbn [fst]. subst tr. cbn [app].
  rewrite Ed in Htr, Hfull. cbn [fst snd] in Htr, Hfull.
  rewrite Htr, (Hfull h eq_refl). reflexivity.
Qed.

(** X7. [mintTokens] returns a hash only for inputs that pass all four
    guards, and only when every SDK operation returned and the simulation
    reported no error; the hash is that of the transaction assembled from
    that simulation, built for the account of [adminAddress] around the one
    [mint_tokens] invocation with the recipient, the amount and the fixed
    fee '1000000'. *)
Theorem mintTokens_returns_assembled_hash
    (tokenAddress recipient amount adminAddress : jsstring) tr h :
  mintTokens env tokenAddress recipient amount adminAddress = (tr, inr h) ->
  (~ whitespace_only tokenAddress /\ ~ whitespace_only recipient
   /\ ~ whitespace_only adminAddress
   /\ amount <> [] /\ positive (Number env amount))
  /\ exists c a1 a2 a3 op acc tx response prepared,
       newContract env tokenAddress = inr c
       /\ nativeToScVal env (VString recipient) (lit "address") = inr a1
       /\ nativeToScVal env (VString amount) (lit "i128") = inr a2
       /\ nativeToScVal env (VString (lit "1000000")) (lit "i128") = inr a3
       /\ contractCall env c (lit "mint_tokens") [a1; a2; a3] = inr op
       /\ getAccount env adminAddress = inr acc
       /\ buildTransaction env acc (BASE_FEE env) (networkPassphrase env) op 30
          = inr tx
       /\ simulateTransaction env tx = inr (SimulationOk response)
       /\ assembleTransaction env tx (SimulationOk response) = inr prepared
       /\ hashHex env prepared = inr h
       /\ tr = mintTokens_operations tokenAddress recipient amount adminAddress.
Proof.
  intros H. apply mintTokens_returns in H. unfold mintTokens_try in H.
  apply bind_ret_returns in H. destruct H as [tr1 [tr2 [Hv [H Htr]]]].
  apply mintTokens_validate_returns in Hv. destruct Hv as [-> Hvalid].
  split; [exact Hvalid | ]. cbn [app] in Htr. subst tr2.
  unfold mintTokens_delegate in H.
  sdk_invert H c. sdk_invert H a1. sdk_invert H a2. sdk_invert H a3.
  sdk_invert H op. sdk_invert H acc. sdk_invert H tx. sdk_invert H sim.
  apply bind_ret_returns in H. destruct H as [tr1 [tr2 [Hsim [H Htr]]]].
  destruct sim as [error | response].
  { destruct (includes error (lit "unauthorized") || includes error (lit "auth"));
      discriminate Hsim. }
  injection Hsim as <-. subst.
  sdk_invert H prepared.
  unfold sdk_call in H. injection H as <- Hh.
  exists c, a1, a2, a3, op, acc, tx, response, prepared.
  repeat (split; [assumption | ]). reflexivity.
Qed.

Lemma unauthorized_mentions_auth :
  includes (lit "unauthorized") (lit "auth") = true
  /\ includes (lit "Unauthorized") (lit "auth") = true.
Proof. split; vm_compute; reflexivity. Qed.

(** X8. When the simulation of a mint reports an error that does not mention
    'auth', [mintTokens] rejects after the simulation, without assembling a
    transaction: with 'Minting failed: Simulation failed: ' followed by the
    error, unless the error mentions 'Invalid amount', in which case the
    message is 'Simulation failed: ' followed by the error, without the
    'Minting failed: ' prefix. *)
Theorem mintTokens_simulation_failure_without_auth
    (tokenAddress recipient amount adminAddress : jsstring)
    c a1 a2 a3 op acc tx error :
  ~ whitespace_only tokenAddress -> ~ whitespace_only recipient ->
  ~ whitespace_only adminAddress ->
  amount <> [] -> positive (Number env amount) ->
  newContract env tokenAddress = inr c ->
  nativeToScVal env (VString recipient) (lit "address") = inr a1 ->
  nativeToScVal env (VString amount) (lit "i128") = inr a2 ->
  nativeToScVal env (VString (lit "1000000")) (lit "i128") = inr a3 ->
  contractCall env c (lit "mint_tokens") [a1; a2; a3] = inr op ->
  getAccount env adminAddress = inr acc ->
  buildTransaction env acc (BASE_FEE env) (networkPassphrase env) op 30
    = inr tx ->
  simulateTransaction env tx = inr (SimulationError error) ->
  includes error (lit "auth") = false ->
  mintTokens env tokenAddress recipient amount adminAddress
  = (firstn 8 (mintTokens_operations tokenAddress recipient amount adminAddress),
     inl (ErrorObj
            (if includes error (lit "Invalid amount")
             then lit "Simulation failed: " ++ error
             else lit "Minting failed: Simulation failed: " ++ error))).
Proof.
  intros Ht Hr Ha Hne Hpos Hc H1 H2 H3 Hop Hacc Htx Hsim Hauth.
  destruct unauthorized_mentions_auth as [Hlow Hcap].
  pose proof (includes_false_trans _ _ _ Hlow Hauth) as Hno_low.
  pose proof (includes_false_trans _ _ _ Hcap Hauth) as Hno_cap.
  destruct (simulation_failed_prefix_neutral error) as [P1 [P2 P3]].
  unfold mintTokens.
  rewrite (mintTokens_guard_passes env _ _ _ _
             (mintTokens_validate_valid env _ _ _ _ Ht Hr Ha Hne Hpos)).
  unfold mintTokens_delegate.
  rewrite (bind_sdk_call_inr _ _ _ _ Hc).
  rewrite (bind_sdk_call_inr _ _ _ _ H1).
  rewrite (bind_sdk_call_inr _ _ _ _ H2).
  rewrite (bind_sdk_call_inr _ _ _ _ H3).
  rewrite (bind_sdk_call_inr _ _ _ _ Hop).
  rewrite (bind_sdk_call_inr _ _ _ _ Hacc).
  rewrite (bind_sdk_call_inr _ _ _ _ Htx).
  rewrite (bind_sdk_call_inr _ _ _ _ Hsim).
  rewrite Hno_low, Hauth. cbn [orb].
  unfold try_catch, bind, throw. cbn [fst snd].
  unfold mintTokens_catch. rewrite P1, P2, P3, Hno_low, Hno_cap. cbn [orb].
  destruct (includes error (lit "Invalid amount")); reflexivity.
Qed.

End MoreServiceFacts.

(* ===================================================================== *)
(** * Facts about the confetti hook and the success modal *)
(* ===================================================================== *)

Import Confetti.

Lemma clear_timer_single (h : nat) (t : timer) : clear_timer h [(h, t)] = [].
Proof. unfold clear_timer. simpl. rewrite Nat.eqb_refl. reflexivity. Qed.

Lemma tidy_idle (w : world) :
  tidy w -> timers w = [] -> intervalRef w = None.
Proof.
  unfold tidy. destruct (intervalRef w) as [h | ]; [ | reflexivity].
  intros [e [H _]] H0. rewrite H in H0. discriminate H0.
Qed.

Section HookFacts.

Variable options : UseConfettiOptions.

Lemma stop_idle (w : world) :
  tidy w ->
  intervalRef (stop w) = None /\ timers (stop w) = []
  /\ emitted (stop w) = emitted w /\ next_handle (stop w) = next_handle w.
Proof.
  unfold tidy, stop. destruct (intervalRef w) as [h | ] eqn:E.
  - intros [e [H _]]. cbn. rewrite H, clear_timer_single. auto.
  - intros H. rewrite E. auto.
Qed.

Lemma tidy_stop (w : world) : tidy w -> tidy (stop w).
Proof.
  intros H. destruct (stop_idle w H) as [H1 [H2 _]].
  unfold tidy. rewrite H1. exact H2.
Qed.

Lemma tidy_fire (now : Q) (p : bool) (w : world) :
  tidy w -> tidy (fire options now p w).
Proof.
  intros H. unfold fire.
  destruct (reduced_motion_respected options && p); [exact H | ].
  destruct (stop_idle w H) as [_ [H2 _]].
  unfold tidy. cbn. rewrite H2. eexists. split; [reflexivity | lia].
Qed.

Lemma tidy_interval_fires (h : nat) (now r1 r2 r3 r4 : Q) (w : world) :
  tidy w -> tidy (interval_fires options h now r1 r2 r3 r4 w).
Proof.
  intros H. unfold interval_fires.
  destruct (find_timer h (timers w)) as [[e | ] | ]; try exact H.
  unfold burst_tick. destruct (Qle_bool (e - now) 0).
  - apply tidy_stop, H.
  - exact H.
Qed.

Lemma tidy_step (w : world) (a : action) : tidy w -> tidy (step options w a).
Proof.
  destruct a; simpl.
  - apply tidy_fire.
  - apply tidy_stop.
  - apply tidy_interval_fires.
Qed.

Lemma tidy_run (actions : list action) :
  forall w, tidy w -> tidy (run options w actions).
Proof.
  unfold run. induction actions as [ | a actions IH]; intros w H; simpl.
  - exact H.
  - apply IH, tidy_step, H.
Qed.

Lemma tidy_initial : tidy initial_world.
Proof. reflexivity. Qed.

Lemma run_app (w : world) (xs ys : list action) :
  run options w (xs ++ ys) = run options (run options w xs) ys.
Proof. unfold run. apply fold_left_app. Qed.

(** X9. Whatever is done with the hook, at most one interval is active, and
    it is the one [intervalRef] holds: [fire] never leaves an earlier burst
    running, and [stop] always finds the interval to clear. *)
Theorem useConfetti_single_interval (actions : list action) :
  let w := run options initial_world actions in
  (List.length (timers w) <= 1)%nat
  /\ (forall h t, In (h, t) (timers w) ->
        intervalRef w = Some h /\ exists animationEnd, t = BurstInterval animationEnd)
  /\ (intervalRef w = None -> timers w = []).
Proof.
  intros w. pose proof (tidy_run actions _ tidy_initial) as H.
  fold w in H. unfold tidy in H.
  destruct (intervalRef w) as [h | ].
  - destruct H as [e [H _]]. rewrite H. split; [simpl; lia | ]. split.
    + intros h' t [Hin | []]. injection Hin as <- <-. eauto.
    + discriminate.
  - rewrite H. split; [simpl; lia | ]. split; [intros h t [] | reflexivity].
Qed.

(** Nothing happens to an idle hook until [fire] is called. *)
Lemma idle_run (actions : list action) :
  forall w,
    intervalRef w = None -> timers w = [] ->
    forallb (fun a => negb (is_fire a)) actions = true ->
    run options w actions = w.
Proof.
  unfold run. induction actions as [ | a actions IH]; intros w Hr Ht Hall; simpl.
  - reflexivity.
  - simpl in Hall. apply andb_true_iff in Hall. destruct Hall as [Ha Hall].
    assert (E : step options w a = w).
    { destruct a; simpl in *.
      - discriminate Ha.
      - unfold stop. rewrite Hr. reflexivity.
      - unfold interval_fires. rewrite Ht. reflexivity. }
    rewrite E. apply IH; assumption.
Qed.

(** X10. After [stop], the runtime has nothing left to run: until [fire] is
    called again, no interval callback makes a call to [confetti]. *)
Theorem useConfetti_stop_is_final (before after : list action) :
  forallb (fun a => negb (is_fire a)) after = true ->
  run options initial_world (before ++ [Stop] ++ after)
  = stop (run options initial_world before)
  /\ emitted (run options initial_world (before ++ [Stop] ++ after))
     = emitted (run options initial_world before)
  /\ timers (run options initial_world (before ++ [Stop] ++ after)) = [].
Proof.
  intros Hall. rewrite !run_app.
  pose proof (tidy_run before _ tidy_initial) as Ht.
  destruct (stop_idle _ Ht) as [H1 [H2 [H3 _]]].
  change (run options (run options initial_world before) [Stop])
    with (stop (run options initial_world before)).
  rewrite (idle_run after _ H1 H2 Hall). auto.
Qed.

Lemma reduced_run (actions : list action) :
  reduced_motion_respected options = true ->
  forall w,
    intervalRef w = None -> timers w = [] ->
    forallb prefers_reduced actions = true ->
    run options w actions = w.
Proof.
  intros Hresp. unfold run.
  induction actions as [ | a actions IH]; intros w Hr Ht Hall; simpl.
  - reflexivity.
  - simpl in Hall. apply andb_true_iff in Hall. destruct Hall as [Ha Hall].
    assert (E : step options w a = w).
    { destruct a; simpl in *.
      - unfold fire. rewrite Hresp, Ha. reflexivity.
      - unfold stop. rewrite Hr. reflexivity.
      - unfold interval_fires. rewrite Ht. reflexivity. }
    rewrite E. apply IH; assumption.
Qed.

(** X11. When the hook respects reduced motion (the default) and every call
    to [fire] finds the preference set, nothing ever happens: no interval is
    started and no call to [confetti] is made. *)
Theorem useConfetti_respects_reduced_motion (actions : list action) :
  reduced_motion_respected options = true ->
  forallb prefers_reduced actions = true ->
  run options initial_world actions = initial_world.
Proof.
  intros Hresp Hall. apply reduced_run; auto.
Qed.

Lemma fire_starts (now : Q) (w : world) :
  tidy w ->
  fire options now false w
  = {| intervalRef := Some (next_handle w);
       timers := [(next_handle w, BurstInterval (now + duration options))];
       next_handle := S (next_handle w);
       emitted := emitted w |}.
Proof.
  intros H. unfold fire. rewrite andb_false_r.
  destruct (stop_idle w H) as [_ [H2 [H3 H4]]].
  rewrite H2, H3, H4. reflexivity.
Qed.

Lemma find_timer_single (h : nat) (t : timer) :
  find_timer h [(h, t)] = Some t.
Proof. simpl. rewrite Nat.eqb_refl. reflexivity. Qed.

(** A tick of the active interval before the burst ends adds two calls
    and changes nothing else. *)
Lemma tick_before_step (w : world) (h : nat) (animationEnd : Q) (a : action) :
  intervalRef w = Some h ->
  timers w = [(h, BurstInterval animationEnd)] ->
  tick_before h animationEnd a ->
  exists now r1 r2 r3 r4,
    a = IntervalFires h now r1 r2 r3 r4
    /\ step options w a
       = {| intervalRef := Some h;
            timers := [(h, BurstInterval animationEnd)];
            next_handle := next_handle w;
            emitted :=
              emitted w
              ++ [burst_call options
                    (particle_count options
                       (Minus (Value animationEnd) (Value now)))
                    (randomInRange (Value r1) (Value (1 # 10)) (Value (3 # 10)))
                    (Minus (Value r2) (Value (1 # 5)));
                  burst_call options
                    (particle_count options
                       (Minus (Value animationEnd) (Value now)))
                    (randomInRange (Value r3) (Value (7 # 10)) (Value (9 # 10)))
                    (Minus (Value r4) (Value (1 # 5)))] |}.
Proof.
  intros Hr Ht Ha.
  destruct a as [ | | h' now r1 r2 r3 r4]; try contradiction.
  destruct Ha as [-> Hnow].
  exists now, r1, r2, r3, r4. split; [reflexivity | ].
  cbn [step]. unfold interval_fires. rewrite Ht, find_timer_single.
  unfold burst_tick.
  destruct (Qle_bool (animationEnd - now) 0) eqn:E.
  { apply Qle_bool_iff in E. lra. }
  rewrite Hr, Ht. reflexivity.
Qed.

(** X12. While the burst lasts, every tick of its interval makes exactly two
    calls to [confetti] and leaves the interval running. After any number
    of ticks at clock readings before [animationEnd], the interval is still
    the one active, and the calls made are, tick by tick, one from the left
    and then one from the right, both with the hook's fixed options and
    with one particle count, [50 * ((animationEnd - now) / duration)]. The
    left call has x = [r1 * (0.3 - 0.1) + 0.1] and y = [r2 - 0.2], the right
    one x = [r3 * (0.9 - 0.7) + 0.7] and y = [r4 - 0.2], on the four values
    of [Math.random()] of the tick in call order. The arithmetic is the
    code's, in double precision, and is left unevaluated: nothing is said
    of the values it rounds to. *)
Theorem useConfetti_tick_during_burst
    (w : world) (h : nat) (animationEnd : Q) (actions : list action) :
  intervalRef w = Some h ->
  timers w = [(h, BurstInterval animationEnd)] ->
  Forall (tick_before h animationEnd) actions ->
  let w' := run options w actions in
  intervalRef w' = Some h
  /\ timers w' = [(h, BurstInterval animationEnd)]
  /\ next_handle w' = next_handle w
  /\ List.length (emitted w')
     = (List.length (emitted w) + 2 * List.length actions)%nat
  /\ emitted w'
     = emitted w
       ++ flat_map
            (fun a =>
               match a with
               | IntervalFires _ now r1 r2 r3 r4 =>
                   [{| startVelocity := 30;
                       spread := 360;
                       ticks := 60;
                       zIndex := 9999;
                       colors := palette options;
                       disableForReducedMotion := reduced_motion_respected options;
                       particleCount :=
                         Times (Value 50)
                           (Over (Minus (Value animationEnd) (Value now))
                              (Value (duration options)));
                       origin_x :=
                         Plus (Times (Value r1)
                                 (Minus (Value (3 # 10)) (Value (1 # 10))))
                           (Value (1 # 10));
                       origin_y := Minus (Value r2) (Value (1 # 5)) |};
                    {| startVelocity := 30;
                       spread := 360;
                       ticks := 60;
                       zIndex := 9999;
                       colors := palette options;
                       disableForReducedMotion := reduced_motion_respected options;
                       particleCount :=
                         Times (Value 50)
                           (Over (Minus (Value animationEnd) (Value now))
                              (Value (duration options)));
                       origin_x :=
                         Plus (Times (Value r3)
                                 (Minus (Value (9 # 10)) (Value (7 # 10))))
                           (Value (7 # 10));
                       origin_y := Minus (Value r4) (Value (1 # 5)) |}]
               | _ => []
               end)
            actions.
Proof.
  intros Hr Ht Hall. revert w Hr Ht.
  induction Hall as [ | a actions Ha Hall IH]; intros w Hr Ht w'.
  - unfold w'. cbn. rewrite app_nil_r, Nat.add_0_r. auto.
  - destruct (tick_before_step w h animationEnd a Hr Ht Ha)
      as [now [r1 [r2 [r3 [r4 [-> Hstep]]]]]].
    unfold w', run. cbn [fold_left]. rewrite Hstep.
    match goal with
    | |- context [fold_left _ actions ?w1] =>
        destruct (IH w1 eq_refl eq_refl) as [H1 [H2 [H3 [H4 H5]]]]
    end.
    unfold run in H1, H2, H3, H4, H5.
    cbn [intervalRef timers next_handle emitted] in H1, H2, H3, H4, H5.
    split; [exact H1 | ]. split; [exact H2 | ]. split; [exact H3 | ].
    split.
    + rewrite H4, length_app. cbn [List.length]. lia.
    + rewrite H5, <- app_assoc. reflexivity.
Qed.

(** X13. The first tick at or after the end of the burst ([duration] after
    the call to [fire]) makes no call to [confetti] and clears the interval;
    from then on nothing is emitted until [fire] is called again. *)
Theorem useConfetti_burst_ends
    (w0 : world) (start now r1 r2 r3 r4 : Q) (after : list action) :
  tidy w0 ->
  start + duration options <= now ->
  forallb (fun a => negb (is_fire a)) after = true ->
  let w := fire options start false w0 in
  exists h,
    intervalRef w = Some h
    /\ run options (interval_fires options h now r1 r2 r3 r4 w) after
       = {| intervalRef := None;
            timers := [];
            next_handle := next_handle w;
            emitted := emitted w0 |}.
Proof.
  intros Ht Hend Hall w. unfold w. rewrite (fire_starts start w0 Ht).
  exists (next_handle w0). split; [reflexivity | ].
  unfold interval_fires. cbn [timers]. rewrite find_timer_single.
  unfold burst_tick.
  destruct (Qle_bool (start + duration options - now) 0) eqn:E.
  - unfold stop. cbn [intervalRef timers next_handle emitted].
    rewrite clear_timer_single.
    apply idle_run; [reflexivity | reflexivity | exact Hall].
  - exfalso. assert (H : start + duration options - now <= 0) by lra.
    apply Qle_bool_iff in H. congruence.
Qed.

End HookFacts.

(** ** The success modal *)

Import SuccessModal.

Lemma in_clear_timer (h : nat) (x : nat * timer) (ts : list (nat * timer)) :
  In x (clear_timer h ts) <-> In x ts /\ fst x <> h.
Proof.
  unfold clear_timer. rewrite filter_In, negb_true_iff, Nat.eqb_neq.
  reflexivity.
Qed.

Lemma find_timer_in (h : nat) (t : timer) (ts : list (nat * timer)) :
  find_timer h ts = Some t -> In (h, t) ts.
Proof.
  induction ts as [ | [h' t'] ts IH]; simpl; [discriminate | ].
  destruct (Nat.eqb_spec h' h) as [-> | Hne].
  - intros H. injection H as <-. left. reflexivity.
  - intros H. right. apply IH, H.
Qed.

Lemma find_timer_none (h : nat) (ts : list (nat * timer)) :
  (forall t, ~ In (h, t) ts) -> find_timer h ts = None.
Proof.
  intros H. destruct (find_timer h ts) as [t | ] eqn:E; [ | reflexivity].
  exfalso. exact (H t (find_timer_in _ _ _ E)).
Qed.

Lemma cleaned_idle (m : modal) :
  modal_ok m ->
  timers (cleaned m) = [] /\ intervalRef (cleaned m) = None
  /\ emitted (cleaned m) = emitted (page m)
  /\ next_handle (cleaned m) = next_handle (page m).
Proof.
  intros [Hacc Hnone]. unfold cleaned.
  destruct (cleanup m) as [t | ] eqn:Ec.
  - unfold run_cleanup, stop. cbn [intervalRef timers next_handle emitted].
    assert (Hrest : forall ts', (forall x, In x ts' -> In x (timers (page m))) ->
              forall h, intervalRef (page m) = Some h ->
              clear_timer h (clear_timer t ts') = []).
    { intros ts' Hsub h Hh.
      destruct (clear_timer h (clear_timer t ts')) as [ | [h' t'] rest] eqn:E;
        [reflexivity | exfalso].
      assert (Hin : In (h', t') (clear_timer h (clear_timer t ts'))).
      { rewrite E. left. reflexivity. }
      apply in_clear_timer in Hin. destruct Hin as [Hin Hne1].
      apply in_clear_timer in Hin. destruct Hin as [Hin Hne2].
      pose proof (Hacc _ _ (Hsub _ Hin)) as Ht. cbn [fst] in *.
      destruct t' as [e | ].
      - rewrite Hh in Ht. injection Ht as ->. contradiction.
      - rewrite Ec in Ht. injection Ht as ->. contradiction. }
    destruct (intervalRef (page m)) as [h | ] eqn:Er.
    + cbn [intervalRef timers next_handle emitted].
      rewrite (Hrest _ (fun x H => H) h eq_refl). auto.
    + split; [ | auto].
      destruct (clear_timer t (timers (page m))) as [ | [h' t'] rest] eqn:E;
        [reflexivity | exfalso].
      assert (Hin : In (h', t') (clear_timer t (timers (page m)))).
      { rewrite E. left. reflexivity. }
      apply in_clear_timer in Hin. destruct Hin as [Hin Hne].
      pose proof (Hacc _ _ Hin) as Ht. cbn [fst] in *.
      destruct t' as [e | ].
      * rewrite Er in Ht. discriminate Ht.
      * rewrite Ec in Ht. injection Ht as ->. contradiction.
  - destruct (Hnone eq_refl) as [H1 H2]. auto.
Qed.

Lemma modal_ok_step (m : modal) (a : modal_action) :
  modal_ok m -> modal_ok (modal_step m a).
Proof.
  intros Hok. pose proof (cleaned_idle m Hok) as [Ht [Hr _]].
  destruct Hok as [Hacc Hnone].
  destruct a as [isOpen | | h now p | h now r1 r2 r3 r4]; simpl.
  - unfold effect. destruct isOpen.
    + split; [ | discriminate].
      intros h t. cbn [page timers cleanup intervalRef]. rewrite Ht.
      intros [Hin | []]. injection Hin as <- <-. reflexivity.
    + split; [ | auto].
      intros h t. cbn [page]. rewrite Ht. intros [].
  - split; [ | auto]. intros h t. cbn [page]. rewrite Ht. intros [].
  - destruct (find_timer h (timers (page m))) as [[e | ] | ] eqn:Ef;
      try (split; assumption).
    pose proof (Hacc _ _ (find_timer_in _ _ _ Ef)) as Hc. cbn in Hc.
    split; [ | cbn [cleanup]; rewrite Hc; discriminate].
    unfold fire. destruct (reduced_motion_respected hook_options && p).
    + intros h' t'. cbn [page timers cleanup intervalRef].
      intros Hin. apply in_clear_timer in Hin. destruct Hin as [Hin Hne].
      pose proof (Hacc _ _ Hin) as Ht'. cbn [fst] in Hne.
      destruct t'; [exact Ht' | ]. rewrite Hc in Ht'. injection Ht' as ->.
      contradiction.
    + intros h' t'. cbn [page cleanup]. unfold stop.
      cbn [intervalRef timers next_handle emitted].
      assert (Hgone : forall h0, intervalRef (page m) = Some h0 ->
                forall x, ~ In x (clear_timer h0 (clear_timer h (timers (page m))))).
      { intros h0 Hh0 [h1 t1] Hin.
        apply in_clear_timer in Hin. destruct Hin as [Hin Hne1].
        apply in_clear_timer in Hin. destruct Hin as [Hin Hne2].
        pose proof (Hacc _ _ Hin) as Ht1. cbn [fst] in *.
        destruct t1.
        - rewrite Hh0 in Ht1. injection Ht1 as ->. contradiction.
        - rewrite Hc in Ht1. injection Ht1 as ->. contradiction. }
      destruct (intervalRef (page m)) as [h0 | ] eqn:Er;
        cbn [intervalRef timers next_handle emitted].
      * intros Hin. apply in_app_or in Hin. destruct Hin as [Hin | [Hin | []]].
        -- exfalso. exact (Hgone h0 eq_refl _ Hin).
        -- injection Hin as <- <-. reflexivity.
      * intros Hin. apply in_app_or in Hin. destruct Hin as [Hin | [Hin | []]].
        -- exfalso. apply in_clear_timer in Hin. destruct Hin as [Hin Hne].
           pose proof (Hacc _ _ Hin) as Ht1. cbn [fst] in *.
           destruct t'.
           ++ rewrite Er in Ht1. discriminate Ht1.
           ++ rewrite Hc in Ht1. injection Ht1 as ->. contradiction.
        -- injection Hin as <- <-. reflexivity.
  - unfold interval_fires.
    destruct (find_timer h (timers (page m))) as [[e | ] | ] eqn:Ef;
      try (split; assumption).
    unfold burst_tick. destruct (Qle_bool (e - now) 0); [ | split; assumption].
    pose proof (Hacc _ _ (find_timer_in _ _ _ Ef)) as Hh. cbn in Hh.
    unfold stop. rewrite Hh.
    split.
    + intros h' t'. cbn [page timers cleanup intervalRef].
      intros Hin. apply in_clear_timer in Hin. destruct Hin as [Hin Hne].
      pose proof (Hacc _ _ Hin) as Ht'. cbn [fst] in Hne.
      destruct t'; [ | exact Ht'].
      rewrite Hh in Ht'. injection Ht' as ->. contradiction.
    + cbn [cleanup page timers intervalRef]. intros Hc.
      destruct (Hnone Hc) as [H1 _]. rewrite H1 in Ef. discriminate Ef.
Qed.

Lemma modal_ok_initial : modal_ok initial_modal.
Proof. split; [intros h t [] | auto]. Qed.

Lemma modal_ok_run (actions : list modal_action) :
  forall m, modal_ok m -> modal_ok (modal_run m actions).
Proof.
  unfold modal_run. induction actions as [ | a actions IH]; intros m H; simpl.
  - exact H.
  - apply IH, modal_ok_step, H.
Qed.

Lemma modal_run_app (m : modal) (xs ys : list modal_action) :
  modal_run m (xs ++ ys) = modal_run (modal_run m xs) ys.
Proof. unfold modal_run. apply fold_left_app. Qed.

(** X14. Of the confetti's timers (the timeout by which the effect delays
    [fireConfetti], the interval of the hook's burst): whatever React and
    the runtime do to a mounted modal, every one that is active is one the
    effect's cleanup will clear, a pending timeout being the one the cleanup
    captured and an interval the one [stopConfetti] clears; and while no
    cleanup is registered (the modal is closed) none is active. The reset
    timeouts of the copy buttons are not covered. *)
Theorem modal_timers_accounted (actions : list modal_action) :
  let m := modal_run initial_modal actions in
  (forall h t,
     In (h, t) (timers (page m)) ->
     match t with
     | FireTimeout => cleanup m = Some h
     | BurstInterval _ => intervalRef (page m) = Some h
     end)
  /\ (cleanup m = None -> timers (page m) = [] /\ intervalRef (page m) = None).
Proof.
  intros m. exact (modal_ok_run actions _ modal_ok_initial).
Qed.

Lemma modal_idle_run (actions : list modal_action) :
  forall m,
    timers (page m) = [] ->
    forallb is_runtime actions = true ->
    modal_run m actions = m.
Proof.
  unfold modal_run. induction actions as [ | a actions IH]; intros m Ht Hall; simpl.
  - reflexivity.
  - simpl in Hall. apply andb_true_iff in Hall. destruct Hall as [Ha Hall].
    assert (E : modal_step m a = m).
    { destruct a; simpl in *; try discriminate Ha.
      - rewrite Ht. reflexivity.
      - unfold interval_fires. rewrite Ht. destruct m; reflexivity. }
    rewrite E. apply IH; assumption.
Qed.

(** X15. Closing the modal (the effect running again with [isOpen] false) or
    unmounting it leaves none of the confetti's timers behind, whatever
    React and the runtime did before: the delayed [fireConfetti] is
    cancelled if still pending, a running burst is stopped, and no confetti
    timeout or interval callback that the runtime could still run changes
    anything afterwards, so no further call to [confetti] is made. Only the
    confetti's timers are meant: the reset timeouts of the copy buttons
    are not covered. *)
Theorem modal_close_clears_timers
    (before after : list modal_action) (closing : modal_action) :
  closing = Unmount \/ closing = Commit false ->
  forallb is_runtime after = true ->
  let m := modal_run initial_modal (before ++ [closing]) in
  timers (page m) = []
  /\ intervalRef (page m) = None
  /\ cleanup m = None
  /\ emitted (page m) = emitted (page (modal_run initial_modal before))
  /\ modal_run initial_modal (before ++ [closing] ++ after) = m.
Proof.
  intros Hclosing Hall m.
  pose proof (modal_ok_run before _ modal_ok_initial) as Hok.
  destruct (cleaned_idle _ Hok) as [Ht [Hr [He _]]].
  assert (Hm : timers (page m) = [] /\ intervalRef (page m) = None
               /\ cleanup m = None
               /\ emitted (page m)
                  = emitted (page (modal_run initial_modal before))).
  { unfold m. rewrite modal_run_app.
    destruct Hclosing as [-> | ->]; cbn; auto. }
  destruct Hm as [H1 [H2 [H3 H4]]].
  repeat (split; [assumption | ]).
  rewrite app_assoc, modal_run_app. fold m.
  apply modal_idle_run; assumption.
Qed.

Lemma quiet_step (m : modal) (a : modal_action) :
  fires_with_reduced_motion a = true -> quiet m -> quiet (modal_step m a).
Proof.
  intros Ha [He [Hr Hno]].
  assert (Hclean : quiet {| page := cleaned m; cleanup := None |}).
  { unfold cleaned, quiet. cbn [page].
    destruct (cleanup m) as [t | ]; [ | auto].
    unfold run_cleanup, stop. cbn [intervalRef timers next_handle emitted].
    rewrite Hr. cbn [intervalRef timers next_handle emitted].
    split; [exact He | ]. split; [reflexivity | ].
    intros h e Hin. apply in_clear_timer in Hin. exact (Hno _ _ (proj1 Hin)). }
  destruct Hclean as [He' [Hr' Hno']]. cbn [page] in *.
  destruct a as [isOpen | | h now p | h now r1 r2 r3 r4]; simpl in *.
  - unfold effect. destruct isOpen; unfold quiet; cbn [page timers emitted intervalRef].
    + split; [exact He' | ]. split; [exact Hr' | ].
      intros h e Hin. apply in_app_or in Hin. destruct Hin as [Hin | [Hin | []]].
      * exact (Hno' _ _ Hin).
      * discriminate Hin.
    + auto.
  - unfold quiet. cbn [page]. auto.
  - destruct (find_timer h (timers (page m))) as [[e | ] | ];
      try (unfold quiet; auto; fail).
    subst p. unfold fire. cbn.
    unfold quiet. cbn [page timers emitted intervalRef].
    split; [exact He | ]. split; [exact Hr | ].
    intros h' e Hin. apply in_clear_timer in Hin. exact (Hno _ _ (proj1 Hin)).
  - unfold interval_fires.
    destruct (find_timer h (timers (page m))) as [[e | ] | ] eqn:Ef;
      try (unfold quiet; cbn [page]; auto; fail).
    exfalso. exact (Hno _ _ (find_timer_in _ _ _ Ef)).
Qed.

(** X16. The modal makes a call to [confetti] only after its delayed
    [fireConfetti] has run for a user who does not prefer reduced motion:
    as long as no timeout has fired (the modal was closed within the delay,
    say), or every one that fired found the preference set, no burst is
    started and nothing is emitted. *)
Theorem modal_quiet_without_fire (actions : list modal_action) :
  forallb fires_with_reduced_motion actions = true ->
  let m := modal_run initial_modal actions in
  emitted (page m) = []
  /\ intervalRef (page m) = None
  /\ forall h e, ~ In (h, BurstInterval e) (timers (page m)).
Proof.
  intros Hall m.
  assert (Hgen : forall m0, quiet m0 -> quiet (modal_run m0 actions)).
  { unfold modal_run. clear m. induction actions as [ | a actions IH];
      intros m0 Hq; simpl.
    - exact Hq.
    - simpl in Hall. apply andb_true_iff in Hall. destruct Hall as [Ha Hall].
      apply (IH Hall). apply quiet_step; assumption. }
  apply Hgen. unfold quiet. cbn. split; [reflexivity | ].
  split; [reflexivity | intros h e []].
Qed.

(** ** Sharing, copying and the fee line *)

Lemma includes_refl (p : jsstring) : includes p p = true.
Proof. apply includes_iff. exists [], []. rewrite app_nil_r. reflexivity. Qed.

Lemma includes_app_l (s t p : jsstring) :
  includes s p = true -> includes (s ++ t) p = true.
Proof.
  rewrite !includes_iff. intros [a [b ->]]. exists a, (b ++ t).
  rewrite <- !app_assoc. reflexivity.
Qed.

Lemma includes_app_r (s t p : jsstring) :
  includes t p = true -> includes (s ++ t) p = true.
Proof.
  rewrite !includes_iff. intros [a [b ->]]. exists (s ++ a), b.
  rewrite <- !app_assoc. reflexivity.
Qed.

Lemma shareText_mentions (tokenName tokenSymbol tokenAddress : jsstring) :
  includes (shareText tokenName tokenSymbol tokenAddress) tokenName = true
  /\ includes (shareText tokenName tokenSymbol tokenAddress) tokenSymbol = true
  /\ includes (shareText tokenName tokenSymbol tokenAddress) tokenAddress = true.
Proof.
  unfold shareText. repeat split.
  - do 2 apply includes_app_r. apply includes_app_l, includes_refl.
  - do 4 apply includes_app_r. apply includes_app_l, includes_refl.
  - do 8 apply includes_app_r. apply includes_refl.
Qed.


(** X18. Whatever [shareSuccess] hands to [navigator.share] or writes to the
    clipboard mentions the token's name, its symbol and its address; the
    share carries the page's URL, and the clipboard text ends with it. *)
Theorem shareSuccess_mentions_token
    (navigator : Navigator) (href tokenName tokenSymbol tokenAddress : jsstring)
    (e : ui_event) :
  In e (fst (shareSuccess navigator href tokenName tokenSymbol tokenAddress)) ->
  match e with
  | UiShare data =>
      includes (text data) tokenName = true
      /\ includes (text data) tokenSymbol = true
      /\ includes (text data) tokenAddress = true
      /\ includes (title data) tokenName = true
      /\ url data = href
  | UiClipboardWrite content =>
      includes content tokenName = true
      /\ includes content tokenSymbol = true
      /\ includes content tokenAddress = true
      /\ exists before, content = before ++ href
  | UiAlert _ => True
  end.
Proof.
  destruct (shareText_mentions tokenName tokenSymbol tokenAddress)
    as [Hn [Hs Ha]].
  unfold shareSuccess.
  destruct (share navigator) as [f | ]; [ | destruct (clipboard navigator) as [w | ]];
    cbn [fst In].
  - intros [<- | []]. cbn [text title url].
    repeat split; try assumption.
    apply includes_app_l, includes_refl.
  - intros [<- | [<- | []]]; [ | exact I].
    repeat split; try (apply includes_app_l; assumption).
    exists (shareText tokenName tokenSymbol tokenAddress ++ line_feed).
    rewrite <- app_assoc. reflexivity.
  - intros [].
Qed.

Lemma handleCopy_completes
    (clip : option (jsstring -> bool)) (exec : thrown + bool)
    (text : jsstring) (b : copy_button) :
  snd (handleCopy clip exec text b) = true ->
  copied (fst (handleCopy clip exec text b)) = true
  /\ resets (fst (handleCopy clip exec text b)) = resets b ++ [next_timeout b]
  /\ next_timeout (fst (handleCopy clip exec text b)) = S (next_timeout b)
  /\ attached (fst (handleCopy clip exec text b)) = attached b.
Proof.
  unfold handleCopy.
  destruct clip as [w | ]; [destruct (w text) | ]; destruct exec as [e | ok];
    cbn; intros H; try discriminate H; auto.
Qed.

(** X19. [handleCopy] offers exactly [text] for copying, to the clipboard
    and, when that fails, in the textarea of the fallback. It completes
    when the clipboard write is fulfilled or [execCommand] returns, and then
    the button shows 'Copied!', one reset is scheduled and no textarea is
    left in the page, even when [execCommand] reported that nothing was
    copied. When neither holds the call rejects with the textarea still
    attached, the flag untouched and no reset scheduled. *)
Theorem handleCopy_shows_copied
    (clip : option (jsstring -> bool)) (exec : thrown + bool)
    (text : jsstring) (b : copy_button) :
  let b' := fst (handleCopy clip exec text b) in
  let new := skipn (List.length (done b)) (done b') in
  (snd (handleCopy clip exec text b) = true <->
   (exists writeText, clip = Some writeText /\ writeText text = true)
   \/ exists ok, exec = inr ok)
  /\ (snd (handleCopy clip exec text b) = true ->
      copied b' = true
      /\ resets b' = resets b ++ [next_timeout b]
      /\ attached b' = attached b)
  /\ (snd (handleCopy clip exec text b) = false ->
      copied b' = copied b
      /\ resets b' = resets b
      /\ attached b' = S (attached b))
  /\ offered new <> []
  /\ (forall s, In s (offered new) -> s = text)
  /\ firstn (List.length (done b)) (done b') = done b.
Proof.
  assert (Hskip : forall l l' : list dom_event,
            skipn (List.length l) (l ++ l') = l'
            /\ firstn (List.length l) (l ++ l') = l).
  { intros l l'. split.
    - rewrite skipn_app, skipn_all, Nat.sub_diag. reflexivity.
    - rewrite firstn_app, firstn_all, Nat.sub_diag. simpl. apply app_nil_r. }
  unfold handleCopy.
  destruct clip as [w | ]; [destruct (w text) eqn:Ew | ];
    destruct exec as [e | ok]; cbn [fst snd show_copied done copied resets attached];
    match goal with
    | |- context [skipn (List.length (done b)) (done b ++ ?l)] =>
        destruct (Hskip (done b) l) as [-> ->]
    end;
    (split; [split; [intros H; try discriminate H; eauto
                    | intros [[w' [Hc Hw]] | [ok' He]];
                      try discriminate; try reflexivity;
                      try (injection Hc as <-; congruence)]
            | ]);
    (split; [intros H; try discriminate H; auto | ]);
    (split; [intros H; try discriminate H; auto | ]);
    cbn; (split; [discriminate | ]);
    (split; [ | reflexivity]);
    intros s Hs; cbn in Hs; intuition congruence.
Qed.

(** X20. A copy made while 'Copied!' is still shown does not renew it: the
    reset scheduled by the first copy is not cancelled, and when it runs it
    clears the flag although the reset of the second copy is still
    pending. *)
Theorem copy_reset_is_not_renewed
    (clip1 clip2 : option (jsstring -> bool)) (exec1 exec2 : thrown + bool)
    (text1 text2 : jsstring) (b : copy_button) :
  snd (handleCopy clip1 exec1 text1 b) = true ->
  snd (handleCopy clip2 exec2 text2 (fst (handleCopy clip1 exec1 text1 b))) = true ->
  let b1 := fst (handleCopy clip1 exec1 text1 b) in
  let b2 := fst (handleCopy clip2 exec2 text2 b1) in
  copied b2 = true
  /\ copied (reset_fires (next_timeout b) b2) = false
  /\ In (next_timeout b1) (resets (reset_fires (next_timeout b) b2)).
Proof.
  intros H1 H2 b1 b2.
  destruct (handleCopy_completes _ _ _ _ H1) as [C1 [R1 [N1 _]]].
  destruct (handleCopy_completes _ _ _ _ H2) as [C2 [R2 [N2 _]]].
  fold b1 in C1, R1, N1, C2, R2, N2. fold b2 in C2, R2, N2.
  split; [exact C2 | ].
  assert (Hin : existsb (Nat.eqb (next_timeout b)) (resets b2) = true).
  { apply existsb_exists. exists (next_timeout b). split; [ | apply Nat.eqb_refl].
    rewrite R2, R1. apply in_or_app. left. apply in_or_app. right. left.
    reflexivity. }
  unfold reset_fires. rewrite Hin. cbn [copied resets].
  split; [reflexivity | ].
  apply filter_In. split.
  - rewrite R2. apply in_or_app. right. left. reflexivity.
  - rewrite N1. apply negb_true_iff, Nat.eqb_neq. lia.
Qed.

(** X21. The fee line the modal renders for a result of [deployToken] is the
    fee in stroops followed by the unit XLM: '10000000 XLM' for a
    deployment without metadata, '15000000 XLM' for one with. *)
Theorem fee_line_of_deployment
    {O : Objects} (env : Env O) (params : TokenDeployParams O)
    (sourceAddress : jsstring) tr r :
  deployToken env params sourceAddress = (tr, inr r) ->
  fee_line r = number_toString (calculateTotalFee params) ++ lit " XLM"
  /\ fee_line r = match metadata params with
                  | Some _ => lit "15000000 XLM"
                  | None => lit "10000000 XLM"
                  end.
Proof.
  intros H.
  pose proof (on_return_elim _ _ _ _ (deployToken_result env params sourceAddress) H)
    as [_ [Hfee _]].
  unfold fee_line. rewrite Hfee. split; [reflexivity | ].
  unfold calculateTotalFee. destruct (metadata params); vm_compute; reflexivity.
Qed.

Import Pages.

(** ** The service, the hook and the modal at concrete inputs *)

Lemma deployToken_returns_assembled_hash_witness :
  exists tr r,
    deployToken accepting_env (sample_params None) (lit "GSOURCE") = (tr, inr r)
    /\ hashHex accepting_env tt = inr (transactionHash r)
    /\ tr = deployToken_operations accepting_env (sample_params None)
              (lit "GSOURCE").
Proof.
  eexists. eexists. split; [vm_compute; reflexivity | ].
  destruct (deployToken_returns_assembled_hash accepting_env
              (sample_params None) (lit "GSOURCE") _ _
              ltac:(vm_compute; reflexivity))
    as [c [a1 [a2 [a3 [a4 [a5 [a6 [op [acc [tx [resp [prepared H]]]]]]]]]]]].
  destruct prepared. split; [apply H | apply H].
Defined.

Lemma deployToken_simulation_failure_witness :
  deployToken (simulation_error_env (lit "budget exceeded"))
    (sample_params None) (lit "GSOURCE")
  = (firstn 11 (deployToken_operations
                  (simulation_error_env (lit "budget exceeded"))
                  (sample_params None) (lit "GSOURCE")),
     inl (ErrorObj (lit "Simulation failed: budget exceeded"))).
Proof.
  apply (deployToken_simulation_failure
           (simulation_error_env (lit "budget exceeded"))
           (sample_params None) (lit "GSOURCE")
           tt tt tt tt tt tt tt tt tt tt (lit "budget exceeded"));
    reflexivity.
Defined.

Lemma deployToken_rejects_with_errors_witness :
  exists tr m,
    deployToken (account_error_env (NonError (VNumber 404)))
      (sample_params None) (lit "GSOURCE")
    = (tr, inl (ErrorObj m))
    /\ m = lit "An unknown error occurred".
Proof.
  eexists.
  destruct (deployToken_rejects_with_errors
              (account_error_env (NonError (VNumber 404)))
              (sample_params None) (lit "GSOURCE") _
              (ErrorObj (lit "An unknown error occurred"))
              ltac:(vm_compute; reflexivity))
    as [m [Hm _]].
  exists m. split.
  - rewrite <- Hm. vm_compute. reflexivity.
  - injection Hm as <-. reflexivity.
Defined.

Lemma mintTokens_first_failing_guard_witness :
  mintTokens accepting_env [] [] [] []
  = ([], inl (ErrorObj (lit "Minting failed: Token address is required")))
  /\ mintTokens accepting_env (lit "CTOKEN") (lit " ") (lit "0") []
     = ([], inl (ErrorObj (lit "Minting failed: Recipient address is required")))
  /\ mintTokens accepting_env (lit "CTOKEN") (lit "GRECIP") (lit "0") []
     = ([], inl (ErrorObj (lit "Minting failed: Admin address is required"))).
Proof.
  split; [ | split].
  - apply (proj1 (mintTokens_first_failing_guard accepting_env [] [] [] [])).
    constructor.
  - apply (proj1 (proj2 (mintTokens_first_failing_guard accepting_env
                           (lit "CTOKEN") (lit " ") (lit "0") []))).
    + not_blank.
    + all_blank.
  - apply (proj2 (proj2 (mintTokens_first_failing_guard accepting_env
                           (lit "CTOKEN") (lit "GRECIP") (lit "0") []))).
    + not_blank.
    + not_blank.
    + constructor.
Defined.

Lemma deployToken_operations_in_order_witness :
  fst (deployToken (account_error_env (ErrorObj (lit "Account not found")))
         (sample_params None) (lit "GSOURCE"))
  = firstn 9 (deployToken_operations
                (account_error_env (ErrorObj (lit "Account not found")))
                (sample_params None) (lit "GSOURCE"))
  /\ List.length
       (fst (deployToken (account_error_env (ErrorObj (lit "Account not found")))
               (sample_params None) (lit "GSOURCE"))) = 9%nat.
Proof.
  destruct (deployToken_operations_in_order
              (account_error_env (ErrorObj (lit "Account not found")))
              (sample_params None) (lit "GSOURCE")) as [H _].
  split; [exact H | rewrite H; reflexivity].
Defined.

Lemma mintTokens_operations_in_order_witness :
  fst (mintTokens (simulation_error_env (lit "boom")) (lit "CTOKEN") (lit "GRECIP") (lit "5")
         (lit "GADMIN"))
  = firstn 8 (mintTokens_operations (lit "CTOKEN") (lit "GRECIP") (lit "5")
                (lit "GADMIN"))
  /\ fst (mintTokens accepting_env (lit "CTOKEN") (lit "GRECIP") (lit "0")
            (lit "GADMIN")) = [].
Proof.
  destruct (mintTokens_operations_in_order (simulation_error_env (lit "boom"))
              (lit "CTOKEN") (lit "GRECIP") (lit "5") (lit "GADMIN"))
    as [_ [Hvalid _]].
  destruct (mintTokens_operations_in_order accepting_env
              (lit "CTOKEN") (lit "GRECIP") (lit "0") (lit "GADMIN"))
    as [Hinvalid _].
  split.
  - apply Hvalid.
    + not_blank.
    + not_blank.
    + not_blank.
    + discriminate.
    + vm_compute. reflexivity.
  - apply Hinvalid. right. right. right. right. right.
    intros H. vm_compute in H. discriminate H.
Defined.

Lemma mintTokens_returns_assembled_hash_witness :
  exists tr h,
    mintTokens accepting_env (lit "CTOKEN") (lit "GRECIP") (lit "5") (lit "GADMIN")
    = (tr, inr h)
    /\ positive (sample_Number (lit "5"))
    /\ hashHex accepting_env tt = inr h
    /\ tr = mintTokens_operations (lit "CTOKEN") (lit "GRECIP") (lit "5")
              (lit "GADMIN").
Proof.
  eexists. eexists. split; [vm_compute; reflexivity | ].
  destruct (mintTokens_returns_assembled_hash accepting_env
              (lit "CTOKEN") (lit "GRECIP") (lit "5") (lit "GADMIN") _ _
              ltac:(vm_compute; reflexivity))
    as [[_ [_ [_ [_ Hpos]]]]
        [c [a1 [a2 [a3 [op [acc [tx [resp [prepared H]]]]]]]]]].
  destruct prepared. split; [exact Hpos | ]. split; apply H.
Defined.

Lemma mintTokens_simulation_failure_without_auth_witness :
  snd (mintTokens (simulation_error_env (lit "budget exceeded"))
         (lit "CTOKEN") (lit "GRECIP") (lit "5") (lit "GADMIN"))
  = inl (ErrorObj (lit "Minting failed: Simulation failed: budget exceeded"))
  /\ snd (mintTokens (simulation_error_env (lit "Invalid amount: overflow"))
            (lit "CTOKEN") (lit "GRECIP") (lit "5") (lit "GADMIN"))
     = inl (ErrorObj (lit "Simulation failed: Invalid amount: overflow")).
Proof.
  split.
  - rewrite (mintTokens_simulation_failure_without_auth
               (simulation_error_env (lit "budget exceeded"))
               (lit "CTOKEN") (lit "GRECIP") (lit "5") (lit "GADMIN")
               tt tt tt tt tt tt tt (lit "budget exceeded"));
      try reflexivity; try not_blank; try discriminate.
  - rewrite (mintTokens_simulation_failure_without_auth
               (simulation_error_env (lit "Invalid amount: overflow"))
               (lit "CTOKEN") (lit "GRECIP") (lit "5") (lit "GADMIN")
               tt tt tt tt tt tt tt (lit "Invalid amount: overflow"));
      try reflexivity; try not_blank; try discriminate.
Defined.

Lemma useConfetti_stop_is_final_witness :
  emitted (run hook_options initial_world
             ([Fire 0 false; IntervalFires 1 250 (1 # 2) (1 # 2) (1 # 2) (1 # 2)]
              ++ [Stop]
              ++ [IntervalFires 1 500 (1 # 2) (1 # 2) (1 # 2) (1 # 2)]))
  = emitted (run hook_options initial_world
               [Fire 0 false; IntervalFires 1 250 (1 # 2) (1 # 2) (1 # 2) (1 # 2)])
  /\ List.length
       (emitted (run hook_options initial_world
                   [Fire 0 false;
                    IntervalFires 1 250 (1 # 2) (1 # 2) (1 # 2) (1 # 2)]))
     = 2%nat.
Proof.
  split; [ | reflexivity].
  apply (useConfetti_stop_is_final hook_options
           [Fire 0 false; IntervalFires 1 250 (1 # 2) (1 # 2) (1 # 2) (1 # 2)]
           [IntervalFires 1 500 (1 # 2) (1 # 2) (1 # 2) (1 # 2)]).
  reflexivity.
Defined.

Lemma useConfetti_respects_reduced_motion_witness :
  run hook_options initial_world
    [Fire 0 true; IntervalFires 1 250 (1 # 2) (1 # 2) (1 # 2) (1 # 2);
     Fire 300 true; Stop]
  = initial_world.
Proof.
  apply (useConfetti_respects_reduced_motion hook_options); reflexivity.
Defined.

Lemma useConfetti_tick_during_burst_witness :
  let w := run hook_options (fire hook_options 0 false initial_world)
             [IntervalFires 1 250 (1 # 2) (1 # 4) (1 # 8) (1 # 16);
              IntervalFires 1 500 (1 # 3) (1 # 5) (1 # 7) (1 # 9)] in
  intervalRef w = Some 1%nat
  /\ List.length (emitted w) = 4%nat
  /\ map particleCount (emitted w)
     = [Times (Value 50) (Over (Minus (Value 2500) (Value 250)) (Value 2500));
        Times (Value 50) (Over (Minus (Value 2500) (Value 250)) (Value 2500));
        Times (Value 50) (Over (Minus (Value 2500) (Value 500)) (Value 2500));
        Times (Value 50) (Over (Minus (Value 2500) (Value 500)) (Value 2500))].
Proof.
  destruct (useConfetti_tick_during_burst hook_options
              (fire hook_options 0 false initial_world) 1 2500
              [IntervalFires 1 250 (1 # 2) (1 # 4) (1 # 8) (1 # 16);
               IntervalFires 1 500 (1 # 3) (1 # 5) (1 # 7) (1 # 9)])
    as [Hr [_ [_ [Hn He]]]].
  - reflexivity.
  - reflexivity.
  - repeat constructor.
  - cbv zeta. split; [exact Hr | ]. split; [exact Hn | ].
    rewrite He. reflexivity.
Defined.

Lemma useConfetti_burst_ends_witness :
  exists h,
    intervalRef (fire hook_options 0 false initial_world) = Some h
    /\ emitted (run hook_options
                  (interval_fires hook_options h 2500 (1 # 2) (1 # 2) (1 # 2) (1 # 2)
                     (fire hook_options 0 false initial_world))
                  [IntervalFires h 2750 (1 # 2) (1 # 2) (1 # 2) (1 # 2)])
       = [].
Proof.
  destruct (useConfetti_burst_ends hook_options initial_world
              0 2500 (1 # 2) (1 # 2) (1 # 2) (1 # 2)
              [IntervalFires 1 2750 (1 # 2) (1 # 2) (1 # 2) (1 # 2)])
    as [h [Hh Hrun]].
  - reflexivity.
  - vm_compute. discriminate.
  - reflexivity.
  - exists h. split; [exact Hh | ].
    assert (E : h = 1%nat).
    { vm_compute in Hh. injection Hh as <-. reflexivity. }
    subst h. rewrite Hrun. reflexivity.
Defined.

Lemma modal_close_clears_timers_witness :
  timers (page (modal_run initial_modal
                  [Commit true; TimeoutFires 1 350 false;
                   TickFires 2 600 (1 # 2) (1 # 2) (1 # 2) (1 # 2);
                   Commit false]))
  = []
  /\ List.length
       (emitted (page (modal_run initial_modal
                         [Commit true; TimeoutFires 1 350 false;
                          TickFires 2 600 (1 # 2) (1 # 2) (1 # 2) (1 # 2);
                          Commit false;
                          TickFires 2 850 (1 # 2) (1 # 2) (1 # 2) (1 # 2)])))
     = 2%nat.
Proof.
  destruct (modal_close_clears_timers
              [Commit true; TimeoutFires 1 350 false;
               TickFires 2 600 (1 # 2) (1 # 2) (1 # 2) (1 # 2)]
              [TickFires 2 850 (1 # 2) (1 # 2) (1 # 2) (1 # 2)]
              (Commit false))
    as [Ht [_ [_ [He Hrun]]]].
  - right. reflexivity.
  - reflexivity.
  - split; [exact Ht | ].
    cbn [app] in Hrun, He. rewrite Hrun, He. reflexivity.
Defined.

Lemma modal_quiet_without_fire_witness :
  emitted (page (modal_run initial_modal
                   [Commit true; Commit false;
                    Commit true; TimeoutFires 2 900 true;
                    TickFires 3 1150 (1 # 2) (1 # 2) (1 # 2) (1 # 2)]))
  = [].
Proof.
  apply (modal_quiet_without_fire
           [Commit true; Commit false;
            Commit true; TimeoutFires 2 900 true;
            TickFires 3 1150 (1 # 2) (1 # 2) (1 # 2) (1 # 2)]).
  reflexivity.
Defined.

Lemma shareSuccess_mentions_token_witness :
  exists content,
    In (UiClipboardWrite content)
       (fst (shareSuccess clipboard_browser (lit "https://nova.example/")
               (lit "Nova") (lit "NOVA") (lit "CTOKEN")))
    /\ includes content (lit "CTOKEN") = true
    /\ includes content (lit "NOVA") = true.
Proof.
  eexists. split; [left; reflexivity | ].
  pose proof (shareSuccess_mentions_token clipboard_browser
                (lit "https://nova.example/") (lit "Nova") (lit "NOVA")
                (lit "CTOKEN") _ (or_introl eq_refl)) as H.
  cbn beta iota in H. destruct H as [_ [Hs [Ha _]]]. split; assumption.
Defined.

Lemma copy_reset_is_not_renewed_witness :
  copied (reset_fires 1
            (fst (handleCopy (Some (fun _ => true)) (inr true) (lit "CTOKEN")
                    (fst (handleCopy None (inr false) (lit "CTOKEN")
                            fresh_button)))))
  = false.
Proof.
  apply (copy_reset_is_not_renewed None (Some (fun _ => true))
           (inr false) (inr true) (lit "CTOKEN") (lit "CTOKEN") fresh_button);
    reflexivity.
Defined.

Lemma fee_line_of_deployment_witness :
  exists tr r,
    deployToken accepting_env (sample_params (Some tt)) (lit "GSOURCE")
    = (tr, inr r)
    /\ fee_line r = lit "15000000 XLM".
Proof.
  eexists. eexists. split; [vm_compute; reflexivity | ].
  apply (proj2 (fee_line_of_deployment accepting_env (sample_params (Some tt))
                  (lit "GSOURCE") _ _ ltac:(vm_compute; reflexivity))).
Defined.

Lemma handleCopy_shows_copied_witness :
  copied (fst (handleCopy (Some (fun _ => false)) (inr false) (lit "CTOKEN")
                 fresh_button))
  = true
  /\ attached (fst (handleCopy (Some (fun _ => false)) (inr false) (lit "CTOKEN")
                      fresh_button))
     = 0%nat.
Proof.
  destruct (proj1 (proj2 (handleCopy_shows_copied (Some (fun _ => false))
                            (inr false) (lit "CTOKEN") fresh_button))
              eq_refl)
    as [Hc [_ Ha]].
  split; assumption.
Defined.
